(** * Ravel: reconciliation workers and the HAProxy supervisor

    A shallow embedding of
      - pkg/haproxy/haproxy.go   (HAProxySetManager, HAProxyManager),
      - the director worker      (bgpserver: watches, periodic, configure),
      - the realserver worker    (realserver: watches, periodic, configure,
                                  checkConfigParity),
    and the properties of the specification that concern them.

    Every method is translated statement by statement into a small monad:
    the receiver's fields are threaded as state, every call that leaves the
    package (kernel abstractions, file system, signals, channels, the
    template engine, the logger at warning level) is an event whose answer
    is supplied by a handler, and a Go runtime panic ends the run.  Theorems
    quantify over every handler, that is over every behaviour of the
    environment.  Mutex operations and debug/info logging are not modelled;
    an error built with [fmt.Errorf] is its fixed text followed by the
    message of the error it wraps, without the other formatted fields. *)

From Stdlib Require Import ZArith List String Ascii Lia Bool.
From stdpp Require Import base gmap list strings sorting.

Set Implicit Arguments.
Set Default Proof Using "Type".

Local Open Scope string_scope.
Local Open Scope list_scope.

(** ** Go values *)

(** An [error] value is represented by its message; the nil error is [None]
    of [option error]. *)
Definition error := string.

(** A call returning [(T, error)]: the sources look at the value only when
    the error is nil. *)
Inductive result (A : Type) : Type :=
| Ok (a : A)
| Err (e : error).
Arguments Ok {A} a.
Arguments Err {A} e.

(** A Go slice is either nil or a (possibly empty) sequence of elements;
    [reflect.DeepEqual] tells the two apart, [len] and [range] do not. *)
Inductive slice (A : Type) : Type :=
| NilSlice
| Slice (elts : list A).
Arguments NilSlice {A}.
Arguments Slice {A} elts.

Definition elems {A} (s : slice A) : list A :=
  match s with
  | NilSlice => []
  | Slice l => l
  end.

Definition len {A} (s : slice A) : nat := length (elems s).

(** [append(s, x)]: the result is never nil. *)
Definition append {A} (s : slice A) (x : A) : slice A := Slice (elems s ++ [x]).

Fixpoint list_eqb {A} (eqb : A -> A -> bool) (l1 l2 : list A) : bool :=
  match l1, l2 with
  | [], [] => true
  | x :: l1', y :: l2' => eqb x y && list_eqb eqb l1' l2'
  | _, _ => false
  end.

(** [reflect.DeepEqual] on two slices of the same type: both nil, or both
    non-nil with the same length and pairwise equal elements. *)
Definition DeepEqual {A} (eqb : A -> A -> bool) (s t : slice A) : bool :=
  match s, t with
  | NilSlice, NilSlice => true
  | Slice l1, Slice l2 => list_eqb eqb l1 l2
  | _, _ => false
  end.

Definition uint16 := Z.
Definition bytes := list Byte.byte.

(** [time.Time] values read from the monotonic clock, as a count of ticks;
    the zero [time.Time] is [0], and no reading of the clock is before it. *)
Definition time := nat.

(** ** Programs over an event signature *)

Section Prog.
Context {E : Type -> Type}.

(** [Vis e k] calls out with [e] and continues with the answer; [Now k]
    is [time.Now()]; [Panic] is a runtime panic. *)
Inductive prog (A : Type) : Type :=
| Ret (a : A)
| Panic (msg : string)
| Now (k : time -> prog A)
| Vis {X : Type} (e : E X) (k : X -> prog A).
Arguments Ret {A} a.
Arguments Panic {A} msg.
Arguments Now {A} k.
Arguments Vis {A X} e k.

Fixpoint pbind {A B} (p : prog A) (f : A -> prog B) : prog B :=
  match p with
  | Ret a => f a
  | Panic m => Panic m
  | Now k => Now (fun t => pbind (k t) f)
  | Vis e k => Vis e (fun x => pbind (k x) f)
  end.

(** A method with receiver of type [R]: the receiver's fields are state. *)
Definition M (R A : Type) : Type := R -> prog (A * R).

Definition ret {R A} (a : A) : M R A := fun r => Ret (a, r).
Definition bind {R A B} (m : M R A) (f : A -> M R B) : M R B :=
  fun r => pbind (m r) (fun ar => f (fst ar) (snd ar)).
Definition get {R} : M R R := fun r => Ret (r, r).
Definition gets {R A} (f : R -> A) : M R A := fun r => Ret (f r, r).
Definition put {R} (r' : R) : M R unit := fun _ => Ret (tt, r').
Definition modify {R} (f : R -> R) : M R unit := fun r => Ret (tt, f r).
Definition panic {R A} (msg : string) : M R A := fun _ => Panic msg.
Definition call {R X} (e : E X) : M R X := fun r => Vis e (fun x => Ret (x, r)).
Definition now {R} : M R time := fun r => Now (fun t => Ret (t, r)).

(** ** Running a program against an environment *)

(** How a run ends. [Blocked]: a call never returned. *)
Inductive outcome (A : Type) : Type :=
| Returned (a : A)
| Panicked (msg : string)
| Blocked.
Arguments Returned {A} a.
Arguments Panicked {A} msg.
Arguments Blocked {A}.

(** One call and its answer ([None]: the call blocked for ever). *)
Record entry : Type := Entry { ety : Type; ecall : E ety; eresp : option ety }.

(** The environment: how each call is answered in a world [W], and how
    much time passes before a reading of the clock. *)
Record handler (W : Type) : Type := Handler {
  on_call : forall X, E X -> W -> option X * W;
  elapse : W -> nat * W
}.

Record final (A W : Type) : Type := Final {
  out : outcome A;
  world : W;
  clock : time;
  trace : list entry
}.

Definition logged {A W} (en : entry) (f : final A W) : final A W :=
  {| out := out f; world := world f; clock := clock f; trace := en :: trace f |}.

Fixpoint run {A W} (p : prog A) (hd : handler W) (w : W) (clk : time) : final A W :=
  match p with
  | Ret a => {| out := Returned a; world := w; clock := clk; trace := [] |}
  | Panic m => {| out := Panicked m; world := w; clock := clk; trace := [] |}
  | Now k =>
      let dw := elapse hd w in
      run (k (clk + fst dw)) hd (snd dw) (clk + fst dw)
  | Vis e k =>
      let xw := on_call hd e w in
      match fst xw with
      | Some x => logged (Entry e (Some x)) (run (k x) hd (snd xw) clk)
      | None => {| out := Blocked; world := snd xw; clock := clk;
                   trace := [Entry e None] |}
      end
  end.

(** The receiver at the end of a run that returned ([r0] otherwise). *)
Definition state_of {R A W} (r0 : R) (f : final (A * R) W) : R :=
  match out f with
  | Returned ar => snd ar
  | _ => r0
  end.

(** Every call that [p] can make, whatever the answers, satisfies [P]. *)
Fixpoint only_calls {A} (P : forall X, E X -> Prop) (p : prog A) : Prop :=
  match p with
  | Ret _ => True
  | Panic _ => True
  | Now k => forall t, only_calls P (k t)
  | Vis e k => P _ e /\ forall x, only_calls P (k x)
  end.

(** [always clk p Q]: started when the clock shows [clk], and whatever the
    environment answers, the run of [p] ends in an outcome, a clock and a
    trace of calls that satisfy [Q]. *)
Definition always {A} (clk : time) (p : prog A)
    (Q : outcome A -> time -> list entry -> Prop) : Prop :=
  forall (W : Type) (hd : handler W) (w : W),
    Q (out (run p hd w clk)) (clock (run p hd w clk)) (trace (run p hd w clk)).

(** A method that returns leaves the receiver as it found it. *)
Definition keeps_state {R A} (m : M R A) : Prop :=
  forall (r : R) (clk : time),
    always clk (m r) (fun o _ _ => forall a r', o = Returned (a, r') -> r' = r).
End Prog.

Arguments prog E A : clear implicits.
Arguments M E R A : clear implicits.
Arguments entry E : clear implicits.
Arguments handler E W : clear implicits.
Arguments final E A W : clear implicits.
Arguments Ret {E A} a.
Arguments Panic {E A} msg.
Arguments Now {E A} k.
Arguments Vis {E A X} e k.
Arguments Returned {A} a.
Arguments Panicked {A} msg.
Arguments Blocked {A}.
Arguments on_call {E W} h {X} e w.
Arguments elapse {E W} h w.
Arguments Entry {E ety} ecall eresp.

Declare Scope go_scope.
Delimit Scope go_scope with go.
Notation "x <- m ;; k" := (bind m (fun x => k))
  (at level 63, m at next level, right associativity) : go_scope.
Notation "m ;;; k" := (bind m (fun _ => k))
  (at level 63, right associativity) : go_scope.
Local Open Scope go_scope.

(** * pkg/haproxy/haproxy.go *)

Module HAProxy.

Record templateContext : Type := {
  Port : uint16;
  Source : string;
  Dest : string
}.

(** The zero value that [make([]templateContext, n)] fills the slice with. *)
Definition zero_templateContext : templateContext :=
  {| Port := 0%Z; Source := ""; Dest := "" |}.

Record HAProxyError : Type := {
  err_Error : error;
  err_Source : string;
  err_Dest : slice string;
  err_Ports : slice uint16
}.

(** Contexts and channels are known by identity. *)
Definition ctx := nat.
Definition chan := nat.

(** What [h.cmd.Process.Signal(syscall.SIGHUP)] comes to.  [h.cmd] is nil
    until the [run] goroutine has assigned it, and its [Process] is nil
    until the command has been started and when it could not be started;
    dereferencing either is a runtime panic.  Otherwise the signal is sent
    and [Signal] returns nil or an error. *)
Inductive signal_answer : Type :=
| NoProcess
| SignalReturned (e : option error).

(** What the package asks of the Go runtime, the operating system and the
    template engine.  [TrySend] is the send case of a [select] that has a
    [default]; [Send] is the plain, blocking send statement. *)
Inductive haE : Type -> Type :=
| TemplateParse : haE (option error)
| TemplateExecute (d : list templateContext) : haE (result bytes)
| Warnf (i n : nat) (ports : slice uint16) (serviceAddrs : slice string) : haE unit
| Errorf (msg : string) : haE unit
| OpenFile (name : string) : haE (option error)
| FileWrite (name : string) (b : bytes) : haE (option error)
| FileClose (name : string) : haE unit
| Signal_SIGHUP (listenAddr : string) : haE signal_answer
| GoRun (listenAddr : string) (c : ctx) : haE unit
| WithCancel (parent : ctx) : haE ctx
| Cancel (c : ctx) : haE unit
| MakeChan (capacity : nat) : haE chan
| TrySend (c : chan) (msg : HAProxyError) : haE bool
| Send (c : chan) (msg : HAProxyError) : haE unit.

(** The fields of [HAProxyManager] that the methods read or write.  The
    parsed template carries no data of its own; the process handle [cmd]
    is assigned by the [run] goroutine, and whether it is there when
    [reload] dereferences it, and the outcome of signalling it, are the
    environment's answer to [Signal_SIGHUP]. *)
Record HAProxyManager : Type := {
  binary : string;
  configDir : string;
  listenAddr : string;
  serviceAddrs : slice string;
  ports : slice uint16;
  rendered : bytes;
  errChan : chan;
  hctx : ctx
}.

Definition set_rendered (b : bytes) (h : HAProxyManager) : HAProxyManager :=
  {| binary := binary h; configDir := configDir h; listenAddr := listenAddr h;
     serviceAddrs := serviceAddrs h; ports := ports h; rendered := b;
     errChan := errChan h; hctx := hctx h |}.

Definition set_ports (p : slice uint16) (h : HAProxyManager) : HAProxyManager :=
  {| binary := binary h; configDir := configDir h; listenAddr := listenAddr h;
     serviceAddrs := serviceAddrs h; ports := p; rendered := rendered h;
     errChan := errChan h; hctx := hctx h |}.

(** [filename]: [filepath.Join(h.configDir, h.listenAddr+".conf")]; the
    path cleaning of [Join] is left out. *)
Definition filename (h : HAProxyManager) : string :=
  configDir h +:+ "/" +:+ listenAddr h +:+ ".conf".

(** The loop of [render]: [i] is the index of the head of [rest] in the
    ports slice, [d] the slice of contexts filled so far.  Indexing
    [h.serviceAddrs[i]] out of range is a runtime panic. *)
Fixpoint render_loop (i : nat) (rest : list uint16) (all : slice uint16)
    (d : list templateContext) : M haE HAProxyManager (list templateContext) :=
  match rest with
  | [] => ret d
  | port :: rest' =>
      h <- get ;;
      if Nat.eqb i (len (serviceAddrs h)) then
        call (Warnf i (len (serviceAddrs h)) all (serviceAddrs h)) ;;;
        render_loop (S i) rest' all d
      else
        match elems (serviceAddrs h) !! i with
        | None => panic "runtime error: index out of range"
        | Some dest =>
            render_loop (S i) rest' all
              (<[i := {| Port := port; Source := listenAddr h; Dest := dest |}]> d)
        end
  end.

Definition render (ports : slice uint16) : M haE HAProxyManager (result bytes) :=
  d <- render_loop 0 (elems ports) ports (replicate (len ports) zero_templateContext) ;;
  r <- call (TemplateExecute d) ;;
  match r with
  | Err e => ret (Err e)
  | Ok b => ret (Ok b)
  end.

Definition nil_dereference : string :=
  "runtime error: invalid memory address or nil pointer dereference".

Definition reload : M haE HAProxyManager (option error) :=
  h <- get ;;
  s <- call (Signal_SIGHUP (listenAddr h)) ;;
  match s with
  | NoProcess => panic nil_dereference
  | SignalReturned e => ret e
  end.

Definition write (b : bytes) : M haE HAProxyManager (option error) :=
  h <- get ;;
  oerr <- call (OpenFile (filename h)) ;;
  match oerr with
  | Some e => ret (Some e)
  | None =>
      werr <- call (FileWrite (filename h) b) ;;
      call (FileClose (filename h)) ;;;
      ret werr
  end.

Definition sendError (err : error) : M haE HAProxyManager unit :=
  h <- get ;;
  let msg := {| err_Error := "unable to unroll haproxy config. config on disk and config in memory may be out of sync. " +:+ err;
                err_Source := listenAddr h;
                err_Dest := serviceAddrs h;
                err_Ports := ports h |} in
  sent <- call (TrySend (errChan h) msg) ;;
  if sent : bool then ret tt else panic err.

Definition unroll : M haE HAProxyManager unit :=
  h <- get ;;
  werr <- write (rendered h) ;;
  match werr with
  | Some err => sendError err
  | None => ret tt
  end.

Definition uint16_eqb (a b : uint16) : bool := Z.eqb a b.

Definition Reload (ports' : slice uint16) : M haE HAProxyManager (option error) :=
  h <- get ;;
  if DeepEqual uint16_eqb ports' (ports h) then ret None
  else
    r <- render ports' ;;
    match r with
    | Err err => ret (Some ("error rendering configuration. " +:+ err))
    | Ok b =>
        werr <- write b ;;
        match werr with
        | Some err => ret (Some ("error writing configuration. " +:+ err))
        | None =>
            serr <- reload ;;
            match serr with
            | Some err =>
                unroll ;;;
                ret (Some ("unable to reload haproxy. " +:+ err))
            | None =>
                modify (set_rendered b) ;;;
                modify (set_ports ports') ;;;
                ret None
            end
        end
    end.

(** [NewHAProxy]: the constructed manager is returned only when the
    bootstrap render and write succeed. *)
Definition NewHAProxy (c : ctx) (binary configDir listenAddr : string)
    (serviceAddrs : slice string) (ports : slice uint16) (errChan : chan)
    : prog haE (result HAProxyManager) :=
  pbind (Vis TemplateParse Ret) (fun perr =>
  match perr with
  | Some err => Ret (Err err)
  | None =>
      let h := {| binary := binary; configDir := configDir; listenAddr := listenAddr;
                  serviceAddrs := serviceAddrs; ports := ports; rendered := [];
                  errChan := errChan; hctx := c |} in
      pbind (render ports h) (fun rh =>
      match fst rh with
      | Err err => Ret (Err ("error rendering configuration. " +:+ err))
      | Ok b =>
          pbind (write b (snd rh)) (fun wh =>
          match fst wh with
          | Some err => Ret (Err ("error writing configuration. " +:+ err))
          | None =>
              pbind (Vis (GoRun listenAddr c) Ret) (fun _ => Ret (Ok (snd wh)))
          end)
      end)
  end).

(** ** HAProxySetManager *)

(** [sources] maps a listen address to its instance ([HAProxyManager] is the
    only implementation of the [HAProxy] interface); [cancelFuncs] maps it
    to the context its cancel function cancels. *)
Record HAProxySetManager : Type := {
  sources : gmap string HAProxyManager;
  cancelFuncs : gmap string ctx;
  set_errChan : chan;
  set_binary : string;
  set_configDir : string;
  set_ctx : ctx;
  parentCtx : ctx
}.

Definition with_maps (src : gmap string HAProxyManager) (cf : gmap string ctx)
    (h : HAProxySetManager) : HAProxySetManager :=
  {| sources := src; cancelFuncs := cf; set_errChan := set_errChan h;
     set_binary := set_binary h; set_configDir := set_configDir h;
     set_ctx := set_ctx h; parentCtx := parentCtx h |}.

Definition NewHAProxySet (c : ctx) (binary configDir : string)
    : prog haE HAProxySetManager :=
  pbind (Vis (WithCancel c) Ret) (fun c2 =>
  pbind (Vis (MakeChan 100) Ret) (fun ch =>
  Ret {| sources := ∅; cancelFuncs := ∅; set_errChan := ch;
         set_binary := binary; set_configDir := configDir;
         set_ctx := c2; parentCtx := c |})).

(** The inner loop of [GetRemovals]: is [i] one of [v6addrs]? *)
Fixpoint match_loop (i : string) (v6addrs : list string) : bool :=
  match v6addrs with
  | [] => false
  | j :: rest => if String.eqb i j then true else match_loop i rest
  end.

(** The outer loop of [GetRemovals] over the configured addresses. *)
Fixpoint removals_loop (configured v6addrs : list string) (removals : slice string)
    : slice string :=
  match configured with
  | [] => removals
  | i :: rest =>
      if match_loop i v6addrs
      then removals_loop rest v6addrs removals
      else removals_loop rest v6addrs (append removals i)
  end.

(** [range h.sources] visits the keys in an order Go leaves open; the
    model visits them in the order of [map_to_list]. *)
Definition GetRemovals (v6addrs : slice string) : M haE HAProxySetManager (slice string) :=
  h <- get ;;
  let configured := fold_left append (map fst (map_to_list (sources h))) (Slice []) in
  ret (removals_loop (elems configured) (elems v6addrs) (Slice [])).

Definition StopOne (listenAddr : string) : M haE HAProxySetManager unit :=
  h <- get ;;
  match cancelFuncs h !! listenAddr with
  | None => ret tt
  | Some c => call (Cancel c)
  end.

Definition StopAll : M haE HAProxySetManager unit :=
  h <- get ;;
  call (Cancel (set_ctx h)) ;;;
  c2 <- call (WithCancel (parentCtx h)) ;;
  put {| sources := ∅; cancelFuncs := ∅; set_errChan := set_errChan h;
         set_binary := set_binary h; set_configDir := set_configDir h;
         set_ctx := c2; parentCtx := parentCtx h |}.

Record VIPConfig : Type := {
  Addr6 : string;
  ServiceAddrs : slice string;
  ListenPorts : slice uint16
}.

(** [h.sources[listenAddr].Reload(ports)]: the instance is a pointer, so
    what [Reload] assigns is seen through the map. *)
Definition Reload_in_set (listenAddr : string) (ports : slice uint16)
    : M haE HAProxySetManager (option error) :=
  fun h =>
    match sources h !! listenAddr with
    | None => Panic "runtime error: invalid memory address or nil pointer dereference"
    | Some inst =>
        pbind (Reload ports inst) (fun ei =>
        Ret (fst ei, with_maps (<[listenAddr := snd ei]> (sources h)) (cancelFuncs h) h))
    end.

Definition Configure (config : VIPConfig) : M haE HAProxySetManager (option error) :=
  let listenAddr := Addr6 config in
  let serviceAddrs := ServiceAddrs config in
  let ports := ListenPorts config in
  h <- get ;;
  match sources h !! listenAddr with
  | Some _ => Reload_in_set listenAddr ports
  | None =>
      c2 <- call (WithCancel (set_ctx h)) ;;
      r <- (fun h' => pbind (NewHAProxy c2 (set_binary h) (set_configDir h) listenAddr
                               serviceAddrs ports (set_errChan h))
                            (fun r => Ret (r, h'))) ;;
      match r with
      | Err err =>
          call (Errorf ("error creating new haproxy. canceling context. " +:+ err)) ;;;
          call (Cancel c2) ;;;
          ret (Some err)
      | Ok instance =>
          modify (fun h' => with_maps (<[listenAddr := instance]> (sources h'))
                                      (<[listenAddr := c2]> (cancelFuncs h')) h') ;;;
          Reload_in_set listenAddr ports
      end
  end.

(** One turn of the supervisor loop [HAProxySetManager.run] that received
    [instanceError] from the error channel (the one-second sleep that ends
    the turn is left out). *)
Definition run_received (instanceError : HAProxyError) : M haE HAProxySetManager unit :=
  call (Errorf ("got error from instance. " +:+ err_Error instanceError)) ;;;
  modify (fun h => with_maps (delete (err_Source instanceError) (sources h))
                             (delete (err_Source instanceError) (cancelFuncs h)) h) ;;;
  h <- get ;;
  c2 <- call (WithCancel (set_ctx h)) ;;
  r <- (fun h' => pbind (NewHAProxy c2 (set_binary h) (set_configDir h)
                           (err_Source instanceError) (err_Dest instanceError)
                           (err_Ports instanceError) (set_errChan h))
                        (fun r => Ret (r, h'))) ;;
  match r with
  | Err err =>
      call (Errorf ("error recreating haproxy. canceling context. " +:+ err)) ;;;
      call (Cancel c2) ;;;
      call (Send (set_errChan h) instanceError)
  | Ok instance =>
      modify (fun h' => with_maps (<[err_Source instanceError := instance]> (sources h'))
                                  (<[err_Source instanceError := c2]> (cancelFuncs h')) h')
  end.

(** ** A model of the operating system and the Go runtime

    Files hold bytes; a channel is a bounded buffer; identities of contexts
    and channels are allocated in sequence.  The calls that can fail
    ([TemplateParse], [TemplateExecute], [OpenFile], [FileWrite],
    [Signal_SIGHUP]) take their fate from [faults], one entry per call in
    the order of the calls, and succeed once the list is used up.  The
    process of an instance is taken to have been started: a signal finds
    it.  No receiver is modelled: a blocking send on a full buffer stays
    blocked. *)
Record chan_state : Type := { capacity : nat; buffer : list HAProxyError }.

Record os : Type := {
  files : gmap string bytes;
  chans : gmap chan chan_state;
  next_id : nat;
  cancelled : list ctx;
  faults : list (option error);
  execute : list templateContext -> bytes
}.

Definition next_fault (w : os) : option error * os :=
  match faults w with
  | [] => (None, w)
  | f :: rest =>
      (f, {| files := files w; chans := chans w; next_id := next_id w;
             cancelled := cancelled w; faults := rest; execute := execute w |})
  end.

Definition set_faults (fs : list (option error)) (w : os) : os :=
  {| files := files w; chans := chans w; next_id := next_id w;
     cancelled := cancelled w; faults := fs; execute := execute w |}.

Definition set_file (name : string) (b : bytes) (w : os) : os :=
  {| files := <[name := b]> (files w); chans := chans w; next_id := next_id w;
     cancelled := cancelled w; faults := faults w; execute := execute w |}.

Definition set_chan (c : chan) (st : chan_state) (w : os) : os :=
  {| files := files w; chans := <[c := st]> (chans w); next_id := next_id w;
     cancelled := cancelled w; faults := faults w; execute := execute w |}.

Definition fresh (w : os) : nat * os :=
  (next_id w,
   {| files := files w; chans := chans w; next_id := S (next_id w);
      cancelled := cancelled w; faults := faults w; execute := execute w |}).

Definition cancel (c : ctx) (w : os) : os :=
  {| files := files w; chans := chans w; next_id := next_id w;
     cancelled := c :: cancelled w; faults := faults w; execute := execute w |}.

(** Is the send case of a [select] ready?  A nil or unknown channel never
    is; a buffered channel is when its buffer has room. *)
Definition has_room (w : os) (c : chan) : bool :=
  match chans w !! c with
  | None => false
  | Some st => Nat.ltb (length (buffer st)) (capacity st)
  end.

Definition enqueue (c : chan) (msg : HAProxyError) (w : os) : os :=
  match chans w !! c with
  | None => w
  | Some st => set_chan c {| capacity := capacity st; buffer := buffer st ++ [msg] |} w
  end.

Definition os_call (X : Type) (e : haE X) (w : os) : option X * os :=
  match e in haE X return option X * os with
  | TemplateParse => let fw := next_fault w in (Some (fst fw), snd fw)
  | TemplateExecute d =>
      let fw := next_fault w in
      match fst fw with
      | None => (Some (Ok (execute w d)), snd fw)
      | Some err => (Some (Err err), snd fw)
      end
  | Warnf _ _ _ _ => (Some tt, w)
  | Errorf _ => (Some tt, w)
  | OpenFile name =>
      let fw := next_fault w in
      match fst fw with
      | None => (Some None, set_file name [] (snd fw))
      | Some err => (Some (Some err), snd fw)
      end
  | FileWrite name b =>
      let fw := next_fault w in
      match fst fw with
      | None => (Some None, set_file name b (snd fw))
      | Some err => (Some (Some err), snd fw)
      end
  | FileClose _ => (Some tt, w)
  | Signal_SIGHUP _ => let fw := next_fault w in (Some (SignalReturned (fst fw)), snd fw)
  | GoRun _ _ => (Some tt, w)
  | WithCancel _ => let iw := fresh w in (Some (fst iw), snd iw)
  | Cancel c => (Some tt, cancel c w)
  | MakeChan n =>
      let iw := fresh w in
      (Some (fst iw), set_chan (fst iw) {| capacity := n; buffer := [] |} (snd iw))
  | TrySend c msg =>
      if has_room w c then (Some true, enqueue c msg w) else (Some false, w)
  | Send c msg =>
      if has_room w c then (Some tt, enqueue c msg w) else (None, w)
  end.

Definition os_handler : handler haE os :=
  {| on_call := os_call; elapse := fun w => (0, w) |}.

(** A method of [HAProxyManager] that returns leaves the manager as it
    found it. *)
Definition keeps {A} (h : HAProxyManager) : outcome (A * HAProxyManager) -> Prop :=
  fun o => forall a h', o = Returned (a, h') -> h' = h.

Arguments render : simpl never.
Arguments write : simpl never.
Arguments reload : simpl never.
Arguments sendError : simpl never.
Arguments unroll : simpl never.
Arguments Reload : simpl never.
Arguments NewHAProxy : simpl never.
Arguments Reload_in_set : simpl never.
Arguments Configure : simpl never.

End HAProxy.


(** * The [types] package

    The declarations of this package are not among the sources; the records
    below take their fields from the data model of the specification.  A
    [*ClusterConfig] is an [option]: [None] is the nil pointer.
    [types.NodesEqual] and [types.NodeEqual] are calls answered by the
    environment. *)

Module types.

(** Modelled from the spec: [ServiceRef{ Namespace, Service, PortName }],
    the value of a port map. *)
Record ServiceRef : Type := {
  Namespace : string;
  Service : string;
  PortName : string
}.

(** Modelled from the spec: [Config] and [Config6] map a VIP to its port
    map (listen port to service reference), [IPV6] maps an IPv4 VIP to its
    IPv6 VIP. *)
Record ClusterConfig : Type := {
  Config : gmap string (gmap string ServiceRef);
  Config6 : gmap string (gmap string ServiceRef);
  IPV6 : gmap string string
}.

(** Modelled from the spec: [Node{ Name, Addresses, Labels, Ready }]. *)
Record Node : Type := {
  Name : string;
  Addresses : list string;
  Labels : gmap string string;
  Ready : bool
}.

Definition zero_Node : Node :=
  {| Name := ""; Addresses := []; Labels := ∅; Ready := false |}.

(** [for ip, _ := range c.Config { s = append(s, string(ip)) }] from
    [s := []string{}].  Go leaves the order open; the model takes the order
    of [map_to_list]. *)
Definition vips (c : ClusterConfig) : slice string :=
  fold_left append (map fst (map_to_list (Config c))) (Slice []).

End types.

(** [sort.Sort(sort.StringSlice(s))]: ascending in the byte-wise order of
    Go strings.  Equal strings cannot be told apart, so the result is the
    one sorted arrangement of the elements whatever the algorithm. *)
Definition string_le (s t : string) : Prop := Is_true (String.leb s t).

#[global] Instance string_le_dec : RelDecision string_le.
Proof. intros s t. unfold string_le. apply _. Defined.

Definition sort_strings (s : slice string) : slice string :=
  match s with
  | NilSlice => NilSlice
  | Slice l => Slice (merge_sort string_le l)
  end.

(** * The director worker (package bgp) *)

Module bgp.
Import types.

(** The calls of the director into its collaborators.  Of the metrics the
    update and reconfigure counters are kept, the gauges are not. *)
Inductive dE : Type -> Type :=
| LoGet : dE (result (slice string))
| LoCompare (configured desired : slice string) : dE (list string * list string)
| LoDel (addr : string) : dE (option error)
| LoAdd (addr : string) : dE (option error)
| BgpSet (addrs : slice string) : dE (option error)
| SetIPVS (nodes : list Node) (config : option ClusterConfig) : dE (option error)
| CheckConfigParity (nodes : list Node) (config : option ClusterConfig)
    (addresses : slice string) (configReady : bool) : dE (result bool)
| NodesEqual (a b : list Node) : dE bool
| Metric_NodeUpdate (kind : string) : dE unit
| Metric_ConfigUpdate : dE unit
| Metric_Reconfigure (outcome : string) : dE unit
| Metric_QueueDepth : dE unit.

(** The fields of [bgpserver] that [watches] and [periodic] read or write. *)
Record bgpserver : Type := {
  nodes : list Node;
  config : option ClusterConfig;
  newConfig : bool;
  lastInboundUpdate : time;
  lastReconfigure : time
}.

(** The worker as [NewBGPWorker] leaves it. *)
Definition NewBGPWorker : bgpserver :=
  {| nodes := []; config := None; newConfig := false;
     lastInboundUpdate := 0; lastReconfigure := 0 |}.

Definition set_lastReconfigure (t : time) (b : bgpserver) : bgpserver :=
  {| nodes := nodes b; config := config b; newConfig := newConfig b;
     lastInboundUpdate := lastInboundUpdate b; lastReconfigure := t |}.

Definition set_newConfig (v : bool) (b : bgpserver) : bgpserver :=
  {| nodes := nodes b; config := config b; newConfig := v;
     lastInboundUpdate := lastInboundUpdate b; lastReconfigure := lastReconfigure b |}.

(** [b.lastReconfigure.Sub(b.lastInboundUpdate) > 0] *)
Definition noUpdatesReady (b : bgpserver) : bool :=
  Nat.ltb (lastInboundUpdate b) (lastReconfigure b).

(** [for _, addr := range addrs { if err := f(addr); err != nil { return err } }] *)
Fixpoint each_until_error (f : string -> dE (option error)) (addrs : list string)
    : M dE bgpserver (option error) :=
  match addrs with
  | [] => ret None
  | addr :: rest =>
      e <- call (f addr) ;;
      match e with
      | Some err => ret (Some err)
      | None => each_until_error f rest
      end
  end.

Definition nil_dereference : string :=
  "runtime error: invalid memory address or nil pointer dereference".

Definition setAddresses : M dE bgpserver (option error) :=
  g <- call LoGet ;;
  match g with
  | Err err => ret (Some err)
  | Ok configured =>
      b <- get ;;
      match config b with
      | None => panic nil_dereference
      | Some c =>
          let desired := vips c in
          ra <- call (LoCompare configured desired) ;;
          e <- each_until_error LoDel (fst ra) ;;
          match e with
          | Some err => ret (Some err)
          | None => each_until_error LoAdd (snd ra)
          end
      end
  end.

Definition configure : M dE bgpserver (option error) :=
  e <- setAddresses ;;
  match e with
  | Some err => ret (Some err)
  | None =>
      b <- get ;;
      match config b with
      | None => panic nil_dereference
      | Some c =>
          e <- call (BgpSet (vips c)) ;;
          match e with
          | Some err => ret (Some err)
          | None =>
              e <- call (SetIPVS (nodes b) (config b)) ;;
              match e with
              | Some err => ret (Some ("unable to configure ipvs with error " +:+ err))
              | None =>
                  t <- now ;;
                  modify (set_lastReconfigure t) ;;;
                  ret None
              end
          end
      end
  end.

Definition configReady : M dE bgpserver bool :=
  b <- get ;;
  if newConfig b
  then modify (set_newConfig false) ;;; ret true
  else ret false.

Definition performReconfigure : M dE bgpserver unit :=
  b <- get ;;
  if noUpdatesReady b then ret tt
  else
    start <- now ;;
    g <- call LoGet ;;
    match g with
    | Err err => now ;;; call (Metric_Reconfigure "error")
    | Ok addresses =>
        b <- get ;;
        ready <- configReady ;;
        p <- call (CheckConfigParity (nodes b) (config b) addresses ready) ;;
        match p with
        | Err err => now ;;; call (Metric_Reconfigure "error")
        | Ok true => now ;;; call (Metric_Reconfigure "noop")
        | Ok false =>
            e <- configure ;;
            match e with
            | Some err => now ;;; call (Metric_Reconfigure "critical")
            | None => now ;;; call (Metric_Reconfigure "complete")
            end
        end
    end.

(** The loop of [watches], one received message at a time; the messages
    and the ticks of [periodic] are the events of the worker.  [step] is
    the case of one event run from its first statement to its last, and
    [steps] a sequence of such cases one after the other. *)
Inductive event : Type :=
| RecvNodes (ns : list Node)
| RecvConfig (c : option ClusterConfig)
| TickQueueDepth
| TickReconfigure
| TickBGP.

Definition watches_nodes (ns : list Node) : M dE bgpserver unit :=
  b <- get ;;
  same <- call (NodesEqual (nodes b) ns) ;;
  if same : bool then call (Metric_NodeUpdate "noop")
  else
    call (Metric_NodeUpdate "updated") ;;;
    t <- now ;;
    modify (fun b => {| nodes := ns; config := config b; newConfig := newConfig b;
                        lastInboundUpdate := t; lastReconfigure := lastReconfigure b |}).

Definition watches_config (c : option ClusterConfig) : M dE bgpserver unit :=
  t <- now ;;
  modify (fun b => {| nodes := nodes b; config := c; newConfig := true;
                      lastInboundUpdate := t; lastReconfigure := lastReconfigure b |}) ;;;
  call Metric_ConfigUpdate.

Definition periodic_reconfigure : M dE bgpserver unit :=
  start <- now ;;
  e <- configure ;;
  match e with
  | Some err => now ;;; call (Metric_Reconfigure "critical")
  | None => ret tt
  end.

Definition step (ev : event) : M dE bgpserver unit :=
  match ev with
  | RecvNodes ns => watches_nodes ns
  | RecvConfig c => watches_config c
  | TickQueueDepth => call Metric_QueueDepth
  | TickReconfigure => periodic_reconfigure
  | TickBGP => performReconfigure
  end.

Fixpoint steps (evs : list event) : M dE bgpserver unit :=
  match evs with
  | [] => ret tt
  | ev :: rest => step ev ;;; steps rest
  end.

(** The [configReady] arguments of the [CheckConfigParity] calls of a
    trace, in the order of the calls. *)
Definition parity_flags (tr : list (entry dE)) : list bool :=
  omap (fun en => match ecall en with
                  | CheckConfigParity _ _ _ ready => Some ready
                  | _ => None
                  end) tr.

(** *** An environment for the examples

    The loopback device holds a list of addresses.  The calls that can fail
    take their fate from [kfaults], one entry per call in order; the parity
    check of this environment reports a difference exactly when a new
    configuration is ready; node lists are compared by their names; each
    reading of the clock comes one tick after the previous one. *)
Record kernel : Type := {
  lo : list string;
  kfaults : list (option error)
}.

Definition knext (w : kernel) : option error * kernel :=
  match kfaults w with
  | [] => (None, w)
  | f :: rest => (f, {| lo := lo w; kfaults := rest |})
  end.

(** Modelled from the spec: [Compare(configured, desired)] answers the
    addresses to remove, [without configured desired], and the addresses to
    add, [without desired configured]. *)
Definition without (l1 l2 : list string) : list string :=
  List.filter (fun a => negb (existsb (String.eqb a) l2)) l1.

Definition kernel_call (X : Type) (e : dE X) (w : kernel) : option X * kernel :=
  match e in dE X return option X * kernel with
  | LoGet =>
      let fw := knext w in
      match fst fw with
      | None => (Some (Ok (Slice (lo w))), snd fw)
      | Some err => (Some (Err err), snd fw)
      end
  | LoCompare configured desired =>
      (Some (without (elems configured) (elems desired),
             without (elems desired) (elems configured)), w)
  | LoDel addr =>
      let fw := knext w in
      match fst fw with
      | None => (Some None, {| lo := without (lo w) [addr]; kfaults := kfaults (snd fw) |})
      | Some err => (Some (Some err), snd fw)
      end
  | LoAdd addr =>
      let fw := knext w in
      match fst fw with
      | None => (Some None, {| lo := lo w ++ [addr]; kfaults := kfaults (snd fw) |})
      | Some err => (Some (Some err), snd fw)
      end
  | BgpSet _ => let fw := knext w in (Some (fst fw), snd fw)
  | SetIPVS _ _ => let fw := knext w in (Some (fst fw), snd fw)
  | CheckConfigParity _ _ _ ready =>
      let fw := knext w in
      match fst fw with
      | None => (Some (Ok (negb ready)), snd fw)
      | Some err => (Some (Err err), snd fw)
      end
  | NodesEqual a b =>
      (Some (list_eqb String.eqb (map Name a) (map Name b)), w)
  | Metric_NodeUpdate _ => (Some tt, w)
  | Metric_ConfigUpdate => (Some tt, w)
  | Metric_Reconfigure _ => (Some tt, w)
  | Metric_QueueDepth => (Some tt, w)
  end.

Definition kernel_handler : handler dE kernel :=
  {| on_call := kernel_call; elapse := fun w => (1, w) |}.

(** Was a node update let through by the equality guard (counted as
    "updated")? *)
Definition node_update_accepted (tr : list (entry dE)) : bool :=
  existsb (fun en => match ecall en with
                     | Metric_NodeUpdate kind => String.eqb kind "updated"
                     | _ => false
                     end) tr.

(** *** What a run of [configure] can look like *)

(** A call that was answered with an error. *)
Definition failed (en : entry dE) : bool :=
  match ecall en in dE X return option X -> bool with
  | LoGet => fun r => match r with Some (Err _) => true | _ => false end
  | LoDel _ => fun r => match r with Some (Some _) => true | _ => false end
  | LoAdd _ => fun r => match r with Some (Some _) => true | _ => false end
  | BgpSet _ => fun r => match r with Some (Some _) => true | _ => false end
  | SetIPVS _ _ => fun r => match r with Some (Some _) => true | _ => false end
  | CheckConfigParity _ _ _ _ => fun r => match r with Some (Err _) => true | _ => false end
  | _ => fun _ => false
  end (eresp en).

(** A [bgp.Set] that was answered with an error. *)
Definition bgp_failed (en : entry dE) : bool :=
  match ecall en in dE X return option X -> bool with
  | BgpSet _ => fun r => match r with Some (Some _) => true | _ => false end
  | _ => fun _ => false
  end (eresp en).

(** Calls [f(addr)] for each address of [addrs], each answered nil. *)
Definition ok_calls (f : string -> dE (option error)) (addrs : list string)
    : list (entry dE) :=
  map (fun addr => Entry (f addr) (Some None)) addrs.

(** The calls of a [setAddresses] that returned nil: the addresses read,
    the comparison, every removal deleted, every addition added. *)
Definition addresses_set (c : ClusterConfig) (configured : slice string)
    (removals additions : list string) : list (entry dE) :=
  Entry LoGet (Some (Ok configured)) ::
  Entry (LoCompare configured (vips c)) (Some (removals, additions)) ::
  ok_calls LoDel removals ++ ok_calls LoAdd additions.

Inductive setAddresses_run (b : bgpserver)
    : outcome (option error * bgpserver) -> list (entry dE) -> Prop :=
| sa_get_failed err :
    setAddresses_run b (Returned (Some err, b)) [Entry LoGet (Some (Err err))]
| sa_del_failed c configured l1 addr l2 additions err :
    config b = Some c ->
    setAddresses_run b (Returned (Some err, b))
      (Entry LoGet (Some (Ok configured)) ::
       Entry (LoCompare configured (vips c)) (Some (l1 ++ addr :: l2, additions)) ::
       ok_calls LoDel l1 ++ [Entry (LoDel addr) (Some (Some err))])
| sa_add_failed c configured removals l1 addr l2 err :
    config b = Some c ->
    setAddresses_run b (Returned (Some err, b))
      (Entry LoGet (Some (Ok configured)) ::
       Entry (LoCompare configured (vips c)) (Some (removals, l1 ++ addr :: l2)) ::
       ok_calls LoDel removals ++ ok_calls LoAdd l1 ++
       [Entry (LoAdd addr) (Some (Some err))])
| sa_done c configured removals additions :
    config b = Some c ->
    setAddresses_run b (Returned (None, b)) (addresses_set c configured removals additions)
| sa_stopped o tr :
    (forall x, o <> Returned x) -> existsb failed tr = false ->
    setAddresses_run b o tr.

Inductive configure_run (b : bgpserver) (clk : time)
    : outcome (option error * bgpserver) -> time -> list (entry dE) -> Prop :=
| cf_addresses_failed err tr :
    setAddresses_run b (Returned (Some err, b)) tr ->
    configure_run b clk (Returned (Some err, b)) clk tr
| cf_bgp_failed c configured removals additions err :
    config b = Some c ->
    configure_run b clk (Returned (Some err, b)) clk
      (addresses_set c configured removals additions ++
       [Entry (BgpSet (vips c)) (Some (Some err))])
| cf_ipvs_failed c configured removals additions err :
    config b = Some c ->
    configure_run b clk
      (Returned (Some ("unable to configure ipvs with error " +:+ err), b)) clk
      (addresses_set c configured removals additions ++
       [Entry (BgpSet (vips c)) (Some None);
        Entry (SetIPVS (nodes b) (Some c)) (Some (Some err))])
| cf_done c configured removals additions d :
    config b = Some c ->
    configure_run b clk (Returned (None, set_lastReconfigure (clk + d) b)) (clk + d)
      (addresses_set c configured removals additions ++
       [Entry (BgpSet (vips c)) (Some None);
        Entry (SetIPVS (nodes b) (Some c)) (Some None)])
| cf_stopped o tr :
    (forall x, o <> Returned x) -> existsb failed tr = false ->
    configure_run b clk o clk tr.

(** The last call of a trace is the failed one. *)
Definition failed_last (tr : list (entry dE)) : Prop :=
  exists tr0 en, tr = tr0 ++ [en] /\ failed en = true /\ existsb failed tr0 = false.

(** Any call but the parity check. *)
Definition not_parity (X : Type) (e : dE X) : Prop :=
  match e with
  | CheckConfigParity _ _ _ _ => False
  | _ => True
  end.

(** The inputs latched by [watches] are those of [b]. *)
Definition same_inputs (b b' : bgpserver) : Prop :=
  nodes b' = nodes b /\ config b' = config b /\
  lastInboundUpdate b' = lastInboundUpdate b.

(** [lastReconfigure] is that of [b], or a time read between [clk] and [c]. *)
Definition reconfigure_stamp (clk c : time) (b b' : bgpserver) : Prop :=
  lastReconfigure b' = lastReconfigure b \/
  (clk <= lastReconfigure b' /\ lastReconfigure b' <= c).


Definition is_tick (ev : event) : bool :=
  match ev with
  | TickQueueDepth | TickReconfigure | TickBGP => true
  | _ => false
  end.

(** The two stamps do not lie in the future. *)
Definition stamps_in_past (clk : time) (b : bgpserver) : Prop :=
  lastReconfigure b <= clk /\ lastInboundUpdate b <= clk.


Arguments noUpdatesReady : simpl never.
Arguments setAddresses : simpl never.
Arguments configure : simpl never.
Arguments configReady : simpl never.
Arguments performReconfigure : simpl never.
Arguments watches_nodes : simpl never.
Arguments watches_config : simpl never.
Arguments periodic_reconfigure : simpl never.

End bgp.

(** * The realserver worker (package realserver) *)

Module realserver.
Import types.

(** Modelled from the spec: the chain type of package iptables is not among
    the sources; a rule set maps a chain name to a chain, a chain holds its
    rules (policy and counters play no part here).  The map's values are
    taken as structs, so indexing with a missing key yields the zero chain,
    whose [Rules] is nil. *)
Record Chain : Type := { Rules : slice string }.

Definition zero_Chain : Chain := {| Rules := NilSlice |}.

(** The calls of the realserver into its collaborators. *)
Inductive rE : Type -> Type :=
| LoGet : rE (result (slice string))
| LoCompare (configured desired : slice string) : rE (list string * list string)
| LoDel (addr : string) : rE (option error)
| LoAdd (addr : string) : rE (option error)
| Save : rE (result (gmap string Chain))
| BaseChain : rE string
| GenerateRules (config : option ClusterConfig) : rE (result (gmap string Chain))
| GenerateRulesForNodes (node : Node) (config : option ClusterConfig) (flag : bool)
    : rE (result (gmap string Chain))
| Merge (generated existing : gmap string Chain)
    : rE (gmap string Chain * Z * option error)
| Restore (merged : gmap string Chain) : rE (option error)
| BytesFromRules (merged : gmap string Chain) : rE bytes
| WriteFile (name : string) (data : bytes) : rE (option error)
| NodeEqual (a b : Node) : rE bool
| Metric_NodeUpdate (kind : string) : rE unit
| Metric_ConfigUpdate : rE unit
| Metric_Reconfigure (outcome : string) : rE unit
| Metric_QueueDepth : rE unit.

(** The fields of [realserver] that [watches] and [periodic] read or write. *)
Record realserver : Type := {
  nodeName : string;
  config : option ClusterConfig;
  node : Node;
  lastInboundUpdate : time;
  lastReconfigure : time;
  forcedReconfigure : bool
}.

(** The worker as [NewRealServer] leaves it. *)
Definition NewRealServer (nodeName : string) (forcedReconfigure : bool) : realserver :=
  {| nodeName := nodeName; config := None; node := zero_Node;
     lastInboundUpdate := 0; lastReconfigure := 0;
     forcedReconfigure := forcedReconfigure |}.

Definition set_lastReconfigure (t : time) (r : realserver) : realserver :=
  {| nodeName := nodeName r; config := config r; node := node r;
     lastInboundUpdate := lastInboundUpdate r; lastReconfigure := t;
     forcedReconfigure := forcedReconfigure r |}.

Definition nil_dereference : string :=
  "runtime error: invalid memory address or nil pointer dereference".

Definition string_eqb (a b : string) : bool := String.eqb a b.

(** [checkConfigParity] returns [(bool, error)]. *)
Definition checkConfigParity : M rE realserver (bool * option error) :=
  r <- get ;;
  match config r with
  | None => ret (true, None)
  | Some c =>
      g <- call LoGet ;;
      match g with
      | Err err => ret (false, Some err)
      | Ok addresses =>
          let vips := sort_strings (vips c) in
          s <- call Save ;;
          match s with
          | Err err => ret (false, Some err)
          | Ok existing =>
              base <- call BaseChain ;;
              let existingRules :=
                match existing !! base with
                | Some k => sort_strings (Rules k)
                | None => Slice []
                end in
              gen <- call (GenerateRules (config r)) ;;
              match gen with
              | Err err => ret (false, Some err)
              | Ok generated =>
                  base' <- call BaseChain ;;
                  let generatedRules :=
                    sort_strings (Rules (default zero_Chain (generated !! base'))) in
                  ret (DeepEqual string_eqb vips addresses &&
                       DeepEqual string_eqb existingRules generatedRules, None)
              end
          end
      end
  end.

Fixpoint each_until_error (f : string -> rE (option error)) (addrs : list string)
    : M rE realserver (option error) :=
  match addrs with
  | [] => ret None
  | addr :: rest =>
      e <- call (f addr) ;;
      match e with
      | Some err => ret (Some err)
      | None => each_until_error f rest
      end
  end.

Definition setAddresses : M rE realserver (option error) :=
  g <- call LoGet ;;
  match g with
  | Err err => ret (Some err)
  | Ok configured =>
      r <- get ;;
      match config r with
      | None => panic nil_dereference
      | Some c =>
          ra <- call (LoCompare configured (vips c)) ;;
          e <- each_until_error LoDel (fst ra) ;;
          match e with
          | Some err => ret (Some err)
          | None => each_until_error LoAdd (snd ra)
          end
      end
  end.

Definition newline : string := String (ascii_of_nat 10) "".

Definition createErrorLog (err : option error) (rules : bytes) : bytes :=
  match err with
  | None => rules
  | Some e => list_byte_of_string ("ipvs restore error: " +:+ e +:+ newline) ++ rules
  end.

(** [configure] returns [(error, int)]. *)
Definition configure (force : bool) : M rE realserver (option error * Z) :=
  let apply : M rE realserver (option error * Z) :=
    e <- setAddresses ;;
    match e with
    | Some err => ret (Some err, 0%Z)
    | None =>
        s <- call Save ;;
        match s with
        | Err err => ret (Some err, 0%Z)
        | Ok existing =>
            r <- get ;;
            g <- call (GenerateRulesForNodes (node r) (config r) false) ;;
            match g with
            | Err err => ret (Some err, 0%Z)
            | Ok generated =>
                m <- call (Merge generated existing) ;;
                match snd m with
                | Some err => ret (Some err, snd (fst m))
                | None =>
                    e <- call (Restore (fst (fst m))) ;;
                    match e with
                    | Some err =>
                        dump <- call (BytesFromRules (fst (fst m))) ;;
                        werr <- call (WriteFile "/tmp/realserver-ruleset-err"
                                        (createErrorLog (Some err) dump)) ;;
                        match werr with
                        | Some _ =>
                            call (BytesFromRules (fst (fst m))) ;;;
                            ret (Some err, snd (fst m))
                        | None => ret (Some err, snd (fst m))
                        end
                    | None => ret (None, snd (fst m))
                    end
                end
            end
        end
    end in
  if force then apply
  else
    p <- checkConfigParity ;;
    match p with
    | (_, Some err) => ret (Some err, 0%Z)
    | (true, None) => ret (None, 0%Z)
    | (false, None) => apply
    end.

(** The search of [watches] for the node named [nodeName]. *)
Fixpoint find_node (nodeName : string) (nodes : list Node) : option Node :=
  match nodes with
  | [] => None
  | n :: rest => if String.eqb (Name n) nodeName then Some n else find_node nodeName rest
  end.

Definition watches_nodes (ns : list Node) : M rE realserver unit :=
  r <- get ;;
  match find_node (nodeName r) ns with
  | None => ret tt
  | Some n =>
      same <- call (NodeEqual (node r) n) ;;
      if same : bool then call (Metric_NodeUpdate "noop")
      else
        call (Metric_NodeUpdate "updated") ;;;
        t <- now ;;
        modify (fun r => {| nodeName := nodeName r; config := config r; node := n;
                            lastInboundUpdate := t; lastReconfigure := lastReconfigure r;
                            forcedReconfigure := forcedReconfigure r |})
  end.

Definition watches_config (c : option ClusterConfig) : M rE realserver unit :=
  t <- now ;;
  modify (fun r => {| nodeName := nodeName r; config := c; node := node r;
                      lastInboundUpdate := t; lastReconfigure := lastReconfigure r;
                      forcedReconfigure := forcedReconfigure r |}) ;;;
  call Metric_ConfigUpdate.

(** [r.lastReconfigure.Sub(r.lastInboundUpdate) > 0] *)
Definition skip_condition (r : realserver) : bool :=
  Nat.ltb (lastInboundUpdate r) (lastReconfigure r).

(** The three tickers of [periodic]. *)
Definition periodic_forced : M rE realserver unit :=
  r <- get ;;
  if forcedReconfigure r then
    start <- now ;;
    res <- configure true ;;
    match fst res with
    | Some err => now ;;; call (Metric_Reconfigure "error")
    | None => ret tt
    end
  else ret tt.

Definition periodic_slow : M rE realserver unit :=
  start <- now ;;
  res <- configure false ;;
  match fst res with
  | Some err => now ;;; call (Metric_Reconfigure "error")
  | None => ret tt
  end.

Definition periodic_check : M rE realserver unit :=
  start <- now ;;
  r <- get ;;
  if skip_condition r then ret tt
  else
    call Metric_QueueDepth ;;;
    if match config r with None => true | Some _ => false end
       || String.eqb (Name (node r)) ""
    then now ;;; call (Metric_Reconfigure "noop")
    else
      res <- configure false ;;
      match fst res with
      | Some err => now ;;; call (Metric_Reconfigure "error")
      | None =>
          now ;;;
          modify (set_lastReconfigure start) ;;;
          now ;;;
          call (Metric_Reconfigure "complete")
      end.

Inductive event : Type :=
| RecvNodes (ns : list Node)
| RecvConfig (c : option ClusterConfig)
| TickForced
| TickSlow
| TickCheck.

Definition step (ev : event) : M rE realserver unit :=
  match ev with
  | RecvNodes ns => watches_nodes ns
  | RecvConfig c => watches_config c
  | TickForced => periodic_forced
  | TickSlow => periodic_slow
  | TickCheck => periodic_check
  end.

Fixpoint steps (evs : list event) : M rE realserver unit :=
  match evs with
  | [] => ret tt
  | ev :: rest => step ev ;;; steps rest
  end.

Definition node_update_accepted (tr : list (entry rE)) : bool :=
  existsb (fun en => match ecall en with
                     | Metric_NodeUpdate kind => String.eqb kind "updated"
                     | _ => false
                     end) tr.

(** *** The parity check in the words of the specification

    sorted(loopback addresses) equals sorted(desired VIPs) and sorted(existing
    rules of the base chain) equals sorted(generated rules of the base
    chain). *)
Definition parity_as_specified (addresses desired existingRules generatedRules : list string)
    : bool :=
  list_eqb string_eqb (merge_sort string_le addresses) (merge_sort string_le desired) &&
  list_eqb string_eqb (merge_sort string_le existingRules)
                      (merge_sort string_le generatedRules).

(** *** What the parity check compares *)

(** The rules of the base chain as [checkConfigParity] takes them from the
    saved and from the generated rule set. *)
Definition existing_rules (existing : gmap string Chain) (base : string) : slice string :=
  match existing !! base with
  | Some k => Rules k
  | None => Slice []
  end.

Definition generated_rules (generated : gmap string Chain) (base : string) : slice string :=
  Rules (default zero_Chain (generated !! base)).

(** The addresses, in the order [Get] returned them, are the sorted list of
    the desired VIPs. *)
Definition addresses_are_sorted_vips (c : ClusterConfig) (addresses : slice string) : Prop :=
  exists l, addresses = Slice l /\ Sorted string_le l /\
            l ≡ₚ map fst (map_to_list (Config c)).

(** Both rule slices are nil, or both are not and one is a rearrangement
    of the other. *)
Definition rules_agree (existingRules generatedRules : slice string) : Prop :=
  match existingRules, generatedRules with
  | NilSlice, NilSlice => True
  | Slice l1, Slice l2 => l1 ≡ₚ l2
  | _, _ => False
  end.

(** *** An environment for the examples

    The loopback device reports its addresses in the order held in [r_lo];
    the rule sets saved and generated are fixed; nothing fails; node
    descriptions are compared by name and addresses; each reading of the
    clock comes one tick after the previous one. *)
Record host : Type := {
  r_lo : list string;
  r_existing : gmap string Chain;
  r_generated : gmap string Chain;
  r_base : string
}.

(** Modelled from the spec: [Compare(configured, desired)] answers the
    addresses to remove, [without configured desired], and the addresses to
    add, [without desired configured]. *)
Definition without (l1 l2 : list string) : list string :=
  List.filter (fun a => negb (existsb (String.eqb a) l2)) l1.

Definition set_lo (l : list string) (w : host) : host :=
  {| r_lo := l; r_existing := r_existing w; r_generated := r_generated w;
     r_base := r_base w |}.

Definition host_call (X : Type) (e : rE X) (w : host) : option X * host :=
  match e in rE X return option X * host with
  | LoGet => (Some (Ok (Slice (r_lo w))), w)
  | LoCompare configured desired =>
      (Some (without (elems configured) (elems desired),
             without (elems desired) (elems configured)), w)
  | LoDel addr => (Some None, set_lo (without (r_lo w) [addr]) w)
  | LoAdd addr => (Some None, set_lo (r_lo w ++ [addr]) w)
  | Save => (Some (Ok (r_existing w)), w)
  | BaseChain => (Some (r_base w), w)
  | GenerateRules _ => (Some (Ok (r_generated w)), w)
  | GenerateRulesForNodes _ _ _ => (Some (Ok (r_generated w)), w)
  | Merge generated existing => (Some (generated ∪ existing, 0%Z, None), w)
  | Restore merged =>
      (Some None, {| r_lo := r_lo w; r_existing := merged;
                     r_generated := r_generated w; r_base := r_base w |})
  | BytesFromRules _ => (Some [], w)
  | WriteFile _ _ => (Some None, w)
  | NodeEqual a b =>
      (Some (String.eqb (Name a) (Name b) &&
             list_eqb String.eqb (Addresses a) (Addresses b)), w)
  | Metric_NodeUpdate _ => (Some tt, w)
  | Metric_ConfigUpdate => (Some tt, w)
  | Metric_Reconfigure _ => (Some tt, w)
  | Metric_QueueDepth => (Some tt, w)
  end.

Definition host_handler : handler rE host :=
  {| on_call := host_call; elapse := fun w => (1, w) |}.

(** The two stamps do not lie in the future. *)
Definition rs_stamps_in_past (clk : time) (r : realserver) : Prop :=
  lastReconfigure r <= clk /\ lastInboundUpdate r <= clk.

Arguments skip_condition : simpl never.
Arguments checkConfigParity : simpl never.
Arguments setAddresses : simpl never.
Arguments configure : simpl never.
Arguments watches_nodes : simpl never.
Arguments watches_config : simpl never.
Arguments periodic_forced : simpl never.
Arguments periodic_slow : simpl never.
Arguments periodic_check : simpl never.

End realserver.

(** Does a trace contain a SIGHUP sent to a child? *)
Definition sends_SIGHUP (tr : list (entry HAProxy.haE)) : bool :=
  existsb (fun en => match ecall en in HAProxy.haE X return option X -> bool with
                     | HAProxy.Signal_SIGHUP _ => fun r =>
                         match r with
                         | Some (HAProxy.SignalReturned _) => true
                         | _ => false
                         end
                     | _ => fun _ => false
                     end (eresp en)) tr.

(** Does a trace contain a write to a file? *)
Definition writes_file (tr : list (entry HAProxy.haE)) : bool :=
  existsb (fun en => match ecall en with
                     | HAProxy.OpenFile _ => true
                     | HAProxy.FileWrite _ _ => true
                     | _ => false
                     end) tr.

(** * Concrete instances used in the examples *)

Module Examples.
Import HAProxy.

(** A stand-in for the template engine: one byte per rendered context. *)
Definition byte_of_port (p : uint16) : Byte.byte :=
  match Byte.of_N (Z.to_N (p mod 256)) with
  | Some b => b
  | None => Byte.x00
  end.

Definition example_execute (d : list templateContext) : bytes :=
  map (fun c => byte_of_port (Port c)) d.

Definition example_os (fs : list (option error)) : os :=
  {| files := ∅; chans := ∅; next_id := 0; cancelled := [];
     faults := fs; execute := example_execute |}.

(** An instance for VIP fd00::1 with a single backend. *)
Definition example_manager : HAProxyManager :=
  {| binary := "/usr/sbin/haproxy"; configDir := "/etc/ravel";
     listenAddr := "fd00::1"; serviceAddrs := Slice ["10.96.0.10:80"];
     ports := Slice [80%Z]; rendered := []; errChan := 0; hctx := 0 |}.

(** A set manager that supervises that one instance. *)
Definition example_set : HAProxySetManager :=
  {| sources := {[ "fd00::1" := example_manager ]};
     cancelFuncs := {[ "fd00::1" := 1 ]};
     set_errChan := 0; set_binary := "/usr/sbin/haproxy";
     set_configDir := "/etc/ravel"; set_ctx := 0; parentCtx := 0 |}.

Definition example_config (ps : list uint16) : VIPConfig :=
  {| Addr6 := "fd00::1"; ServiceAddrs := Slice ["10.96.0.10:80"];
     ListenPorts := Slice ps |}.

(** A cluster configuration with one IPv4 VIP, and two nodes. *)
Definition example_cluster : types.ClusterConfig :=
  {| types.Config :=
       {[ "10.10.0.1" := {[ "80" := {| types.Namespace := "s"; types.Service := "web";
                                       types.PortName := "http" |} ]} ]};
     types.Config6 := ∅; types.IPV6 := ∅ |}.

Definition example_node (name addr : string) : types.Node :=
  {| types.Name := name; types.Addresses := [addr]; types.Labels := ∅;
     types.Ready := true |}.

Definition example_nodes : list types.Node :=
  [example_node "n1" "10.0.0.1"; example_node "n2" "10.0.0.2"].

Definition example_kernel (fs : list (option error)) : bgp.kernel :=
  {| bgp.lo := []; bgp.kfaults := fs |}.

(** A realserver whose configuration asks for two VIPs, on a host whose
    loopback device reports them in the order they were added. *)
Definition example_cluster2 : types.ClusterConfig :=
  {| types.Config := {[ "10.10.0.1" := ∅; "10.10.0.2" := ∅ ]};
     types.Config6 := ∅; types.IPV6 := ∅ |}.

Definition example_rules : gmap string realserver.Chain :=
  {[ "RAVEL" := {| realserver.Rules :=
       Slice ["-A RAVEL -d 10.10.0.1/32 -j ACCEPT"; "-A RAVEL -d 10.10.0.2/32 -j ACCEPT"] |} ]}.

Definition example_host (addrs : list string) : realserver.host :=
  {| realserver.r_lo := addrs; realserver.r_existing := example_rules;
     realserver.r_generated := example_rules; realserver.r_base := "RAVEL" |}.

Definition example_realserver (c : option types.ClusterConfig) : realserver.realserver :=
  {| realserver.nodeName := "n1"; realserver.config := c;
     realserver.node := example_node "n1" "10.0.0.1";
     realserver.lastInboundUpdate := 0; realserver.lastReconfigure := 0;
     realserver.forcedReconfigure := true |}.

End Examples.

(** * The calls of the HAProxy package as plain data

    A trace holds the calls with their answers; [acts] reads it as a list
    of what happened, in order, so that runs can be compared with explicit
    lists. *)

Module HAProxyActs.
Import HAProxy.

Inductive act : Type :=
| Parsed (e : option error)
| Executed (d : list templateContext) (r : result bytes)
| Warned (i : nat)
| Logged (msg : string)
| Opened (name : string) (e : option error)
| Wrote (name : string) (b : bytes) (e : option error)
| Closed (name : string)
| Signalled (addr : string) (e : option error)
| Unstarted (addr : string)
| Spawned (addr : string) (c : ctx)
| Derived (parent child : ctx)
| Cancelled (c : ctx)
| Made (capacity : nat) (c : chan)
| Offered (c : chan) (msg : HAProxyError) (taken : bool)
| Sent (c : chan) (msg : HAProxyError)
| Stuck.

(** What one call and its answer amount to; [Stuck] is a call that never
    returned, [Unstarted] the signal that found no process to go to. *)
Definition act_of (en : entry haE) : act :=
  match ecall en in haE X return option X -> act with
  | TemplateParse => fun r => match r with Some e => Parsed e | None => Stuck end
  | TemplateExecute d => fun r => match r with Some x => Executed d x | None => Stuck end
  | Warnf i _ _ _ => fun r => match r with Some _ => Warned i | None => Stuck end
  | Errorf msg => fun r => match r with Some _ => Logged msg | None => Stuck end
  | OpenFile name => fun r => match r with Some e => Opened name e | None => Stuck end
  | FileWrite name b => fun r => match r with Some e => Wrote name b e | None => Stuck end
  | FileClose name => fun r => match r with Some _ => Closed name | None => Stuck end
  | Signal_SIGHUP addr => fun r =>
      match r with
      | Some (SignalReturned e) => Signalled addr e
      | Some NoProcess => Unstarted addr
      | None => Stuck
      end
  | GoRun addr c => fun r => match r with Some _ => Spawned addr c | None => Stuck end
  | WithCancel parent => fun r => match r with Some c => Derived parent c | None => Stuck end
  | Cancel c => fun r => match r with Some _ => Cancelled c | None => Stuck end
  | MakeChan n => fun r => match r with Some c => Made n c | None => Stuck end
  | TrySend c msg => fun r => match r with Some b => Offered c msg b | None => Stuck end
  | Send c msg => fun r => match r with Some _ => Sent c msg | None => Stuck end
  end (eresp en).

Definition acts (tr : list (entry haE)) : list act := map act_of tr.

(** The context that [render] builds for the port at index [k]: the
    service address at that index, or the zero value left by [make] when
    there is none. *)
Definition context_at (h : HAProxyManager) (k : nat) (port : uint16) : templateContext :=
  match elems (serviceAddrs h) !! k with
  | Some dest => {| Port := port; Source := listenAddr h; Dest := dest |}
  | None => zero_templateContext
  end.

Definition contexts (h : HAProxyManager) (ports : slice uint16) : list templateContext :=
  imap (context_at h) (elems ports).

(** The warning of [render], given when the ports outnumber the service
    addresses. *)
Definition warnings (h : HAProxyManager) (ports : slice uint16) : list act :=
  if Nat.ltb (len (serviceAddrs h)) (len ports) then [Warned (len (serviceAddrs h))] else [].

(** The loop of [render] without its effects, on an index in range. *)
Fixpoint fill (h : HAProxyManager) (i : nat) (rest : list uint16)
    (d : list templateContext) : list templateContext :=
  match rest with
  | [] => d
  | port :: rest' =>
      if Nat.eqb i (len (serviceAddrs h)) then fill h (S i) rest' d
      else fill h (S i) rest' (<[i := context_at h i port]> d)
  end.

(** The calls of a [write] that succeeded. *)
Definition written (name : string) (b : bytes) : list act :=
  [Opened name None; Wrote name b None; Closed name].

Definition is_Signalled (a : act) : bool :=
  match a with
  | Signalled _ _ => true
  | _ => false
  end.

Definition is_Spawned (a : act) : bool :=
  match a with
  | Spawned _ _ => true
  | _ => false
  end.

Definition is_Cancelled (a : act) : bool :=
  match a with
  | Cancelled _ => true
  | _ => false
  end.

End HAProxyActs.

(** * What the runs of the HAProxy manager look like *)

Module HAProxyRuns.
Import HAProxy HAProxyActs.

(** A run that ended in a call that never returned. *)
Definition stuck (a : list act) : Prop := exists pre, a = pre ++ [Stuck].

(** The message that [sendError] builds from [err]. *)
Definition unroll_message (h : HAProxyManager) (err : error) : HAProxyError :=
  {| err_Error := "unable to unroll haproxy config. config on disk and config in memory may be out of sync. " +:+ err;
     err_Source := listenAddr h;
     err_Dest := serviceAddrs h;
     err_Ports := ports h |}.

(** The calls of a [write b] that returned the error [err]: the file could
    not be opened, or it was opened (and so truncated) and the write
    failed. *)
Inductive write_failed (h : HAProxyManager) (b : bytes) (err : error) : list act -> Prop :=
| wf_open : write_failed h b err [Opened (filename h) (Some err)]
| wf_write : write_failed h b err
    [Opened (filename h) None; Wrote (filename h) b (Some err); Closed (filename h)].

Inductive write_run (h : HAProxyManager) (b : bytes)
    : outcome (option error * HAProxyManager) -> list act -> Prop :=
| wr_ok : write_run h b (Returned (None, h)) (written (filename h) b)
| wr_failed err a : write_failed h b err a -> write_run h b (Returned (Some err, h)) a
| wr_stuck a : stuck a -> write_run h b Blocked a.

(** [unroll]: the previous bytes are written back; a failure of that write
    is offered to the error channel, and a full channel makes it panic. *)
Inductive unroll_run (h : HAProxyManager)
    : outcome (unit * HAProxyManager) -> list act -> Prop :=
| ur_restored : unroll_run h (Returned (tt, h)) (written (filename h) (rendered h))
| ur_reported err a :
    write_failed h (rendered h) err a ->
    unroll_run h (Returned (tt, h))
      (a ++ [Offered (errChan h) (unroll_message h err) true])
| ur_panicked err a :
    write_failed h (rendered h) err a ->
    unroll_run h (Panicked err)
      (a ++ [Offered (errChan h) (unroll_message h err) false])
| ur_stuck a : stuck a -> unroll_run h Blocked a.

(** The calls of [Reload] up to and including a successful write of the
    newly rendered bytes [b]. *)
Definition rendered_and_written (h : HAProxyManager) (p : slice uint16) (b : bytes)
    : list act :=
  warnings h p ++ Executed (contexts h p) (Ok b) :: written (filename h) b.

Inductive Reload_run (h : HAProxyManager) (p : slice uint16)
    : outcome (option error * HAProxyManager) -> list act -> Prop :=
| rl_same :
    p = ports h -> Reload_run h p (Returned (None, h)) []
| rl_render_failed err :
    p <> ports h ->
    Reload_run h p (Returned (Some ("error rendering configuration. " +:+ err), h))
      (warnings h p ++ [Executed (contexts h p) (Err err)])
| rl_render_panicked :
    p <> ports h -> len (serviceAddrs h) + 2 <= len p ->
    Reload_run h p (Panicked "runtime error: index out of range")
      [Warned (len (serviceAddrs h))]
| rl_write_failed b err a :
    p <> ports h -> write_failed h b err a ->
    Reload_run h p (Returned (Some ("error writing configuration. " +:+ err), h))
      (warnings h p ++ Executed (contexts h p) (Ok b) :: a)
| rl_no_process b :
    p <> ports h ->
    Reload_run h p (Panicked nil_dereference)
      (rendered_and_written h p b ++ [Unstarted (listenAddr h)])
| rl_done b :
    p <> ports h ->
    Reload_run h p (Returned (None, set_ports p (set_rendered b h)))
      (rendered_and_written h p b ++ [Signalled (listenAddr h) None])
| rl_unrolled b err ua :
    p <> ports h -> unroll_run h (Returned (tt, h)) ua ->
    Reload_run h p (Returned (Some ("unable to reload haproxy. " +:+ err), h))
      (rendered_and_written h p b ++ Signalled (listenAddr h) (Some err) :: ua)
| rl_unroll_panicked b err msg ua :
    p <> ports h -> unroll_run h (Panicked msg) ua ->
    Reload_run h p (Panicked msg)
      (rendered_and_written h p b ++ Signalled (listenAddr h) (Some err) :: ua)
| rl_stuck a : stuck a -> Reload_run h p Blocked a.

End HAProxyRuns.

(** * The runs of [NewHAProxy] and the instance's [run] goroutine *)

Module HAProxySetRuns.
Import HAProxy HAProxyActs HAProxyRuns.

(** The manager that [NewHAProxy] constructs: [rendered] is not among the
    fields of the struct literal, so it holds the zero value. *)
Definition fresh_manager (c : ctx) (binary configDir listenAddr : string)
    (serviceAddrs : slice string) (ports : slice uint16) (errChan : chan)
    : HAProxyManager :=
  {| binary := binary; configDir := configDir; listenAddr := listenAddr;
     serviceAddrs := serviceAddrs; ports := ports; rendered := [];
     errChan := errChan; hctx := c |}.

Inductive NewHAProxy_run (h0 : HAProxyManager)
    : outcome (result HAProxyManager) -> list act -> Prop :=
| nh_parse_failed err :
    NewHAProxy_run h0 (Returned (Err err)) [Parsed (Some err)]
| nh_render_failed err :
    NewHAProxy_run h0 (Returned (Err ("error rendering configuration. " +:+ err)))
      (Parsed None :: warnings h0 (ports h0) ++ [Executed (contexts h0 (ports h0)) (Err err)])
| nh_render_panicked :
    len (serviceAddrs h0) + 2 <= len (ports h0) ->
    NewHAProxy_run h0 (Panicked "runtime error: index out of range")
      [Parsed None; Warned (len (serviceAddrs h0))]
| nh_write_failed b err a :
    write_failed h0 b err a ->
    NewHAProxy_run h0 (Returned (Err ("error writing configuration. " +:+ err)))
      (Parsed None :: warnings h0 (ports h0) ++ Executed (contexts h0 (ports h0)) (Ok b) :: a)
| nh_started b :
    NewHAProxy_run h0 (Returned (Ok h0))
      (Parsed None :: rendered_and_written h0 (ports h0) b ++ [Spawned (listenAddr h0) (hctx h0)])
| nh_stuck a : stuck a -> NewHAProxy_run h0 Blocked a.

(** The body of the case [err := <-cmdErr] of the instance's [run] loop:
    [err] is what [cmd.Run] returned.  The other case of the [select],
    [<-h.ctx.Done()], has an empty body, so a cancelled context does not end
    the loop; the loop ends with this case only.  The informational log of a
    clean exit is left out. *)
Definition run_exited (err : option error) : M haE HAProxyManager unit :=
  match err with
  | None => ret tt
  | Some err =>
      let e2 := "haproxy exited with error. " +:+ err in
      call (Errorf ("wat. " +:+ e2)) ;;;
      sendError e2
  end.

(** Both maps of the set manager know the same listen addresses. *)
Definition maps_agree (s : HAProxySetManager) : Prop :=
  dom (sources s) = dom (cancelFuncs s).

End HAProxySetRuns.

Module MoreExamples.
Import HAProxy Examples.

(** A second VIP, not yet known to [example_set]. *)
Definition second_config (ps : list uint16) : VIPConfig :=
  {| Addr6 := "fd00::2"; ServiceAddrs := Slice ["10.96.0.11:80"];
     ListenPorts := Slice ps |}.

(** The first VIP again, with other service addresses. *)
Definition moved_config (ps : list uint16) : VIPConfig :=
  {| Addr6 := "fd00::1"; ServiceAddrs := Slice ["10.96.0.99:80"];
     ListenPorts := Slice ps |}.

(** The operating system while the command of an instance has not been
    started: [h.cmd.Process] is nil. *)
Definition unstarted_call (X : Type) (e : haE X) (w : os) : option X * os :=
  match e in haE X return option X * os -> option X * os with
  | Signal_SIGHUP _ => fun _ => (Some NoProcess, w)
  | _ => fun answer => answer
  end (os_call e w).

Definition unstarted_handler : handler haE os :=
  {| on_call := unstarted_call; elapse := fun w => (0, w) |}.

End MoreExamples.

Module DirectorExamples.
Import types bgp Examples.

(** A parity check that answered "different". *)
Definition parity_differs (en : entry dE) : bool :=
  match ecall en in dE X return option X -> bool with
  | CheckConfigParity _ _ _ _ =>
      fun r => match r with Some (Ok false) => true | _ => false end
  | _ => fun _ => false
  end (eresp en).

(** A worker whose last reconfigure is later than its last inbound update,
    with a configuration that has not been seen by a parity check. *)
Definition skipping_worker : bgpserver :=
  {| nodes := []; config := Some example_cluster; newConfig := true;
     lastInboundUpdate := 1; lastReconfigure := 3 |}.

Definition some_ticks : list event :=
  [TickBGP; TickQueueDepth; TickReconfigure; TickBGP].

End DirectorExamples.

(** * Reading the traces of the realserver *)

Module RealserverActs.
Import types realserver.

(** A call that only reports a metric. *)
Definition is_metric (en : entry rE) : bool :=
  match ecall en with
  | Metric_NodeUpdate _ | Metric_ConfigUpdate | Metric_Reconfigure _ | Metric_QueueDepth => true
  | _ => false
  end.

(** A call that changes the host: an address deleted or added, a rule set
    restored, a file written. *)
Definition changes_host (en : entry rE) : bool :=
  match ecall en with
  | LoDel _ | LoAdd _ | Restore _ | WriteFile _ _ => true
  | _ => false
  end.

(** The [Restore] calls that were answered with an error. *)
Definition restore_failure (en : entry rE) : option (gmap string Chain * error) :=
  match ecall en in rE X return option X -> option (gmap string Chain * error) with
  | Restore merged => fun r => match r with Some (Some err) => Some (merged, err) | _ => None end
  | _ => fun _ => None
  end (eresp en).

Definition restore_failures (tr : list (entry rE)) : list (gmap string Chain * error) :=
  omap restore_failure tr.

(** The files written, with what was written and the answer. *)
Definition file_write (en : entry rE) : option (string * bytes * option error) :=
  match ecall en in rE X return option X -> option (string * bytes * option error) with
  | WriteFile name data => fun r => match r with Some e => Some (name, data, e) | None => None end
  | _ => fun _ => None
  end (eresp en).

Definition file_writes (tr : list (entry rE)) : list (string * bytes * option error) :=
  omap file_write tr.

(** The rule sets serialized, with the bytes answered. *)
Definition dump_of (en : entry rE) : option (gmap string Chain * bytes) :=
  match ecall en in rE X return option X -> option (gmap string Chain * bytes) with
  | BytesFromRules merged => fun r => match r with Some b => Some (merged, b) | None => None end
  | _ => fun _ => None
  end (eresp en).

Definition dumps (tr : list (entry rE)) : list (gmap string Chain * bytes) :=
  omap dump_of tr.

(** The answers of [Merge]. *)
Definition merge_answer (en : entry rE) : option (gmap string Chain * Z * option error) :=
  match ecall en in rE X return option X -> option (gmap string Chain * Z * option error) with
  | Merge _ _ => fun r => r
  | _ => fun _ => None
  end (eresp en).

Definition merge_answers (tr : list (entry rE)) : list (gmap string Chain * Z * option error) :=
  omap merge_answer tr.

(** Any call but those [configure] makes from [Merge] on. *)
Definition before_merge (X : Type) (e : rE X) : Prop :=
  match e with
  | Merge _ _ | Restore _ | BytesFromRules _ | WriteFile _ _ => False
  | _ => True
  end.

(** What a failed [Restore] leaves behind, per returned run of [configure]
    with the worker unchanged. *)
Definition restore_report (res : option error * Z) (tr : list (entry rE)) : Prop :=
  match restore_failures tr with
  | [] => file_writes tr = [] /\ dumps tr = []
  | (merged, err) :: more =>
      more = [] /\ fst res = Some err /\
      merge_answers tr = [(merged, snd res, None)] /\
      exists dump werr,
        file_writes tr =
          [("/tmp/realserver-ruleset-err",
            list_byte_of_string ("ipvs restore error: " +:+ err +:+ newline) ++ dump,
            werr)] /\
        match werr with
        | None => dumps tr = [(merged, dump)]
        | Some _ => exists again, dumps tr = [(merged, dump); (merged, again)]
        end
  end.

End RealserverActs.

(** * Starting and stopping the workers

    [Start], [Stop], [setup] and [cleanup] of both workers.  The calls go to
    the interfaces the workers are built from ([system.IP] for the loopback
    and the primary device, [system.IPVS], [iptables.IPTables],
    [system.Watcher], [haproxy.HAProxySet]) and to the Go runtime; informational
    logging is left out.  Contexts are known by identity. *)

Module Lifecycle.

Inductive lE : Type -> Type :=
| StopAllHAProxy : lE unit
| LoTeardown (c : nat) : lE (option error)
| Flush : lE (option error)
| LoSetARP : lE (option error)
| LoSetRPFilter : lE (option error)
| PrimarySetARP : lE (option error)
| IPVSTeardown (c : nat) : lE (option error)
| PrimaryGet : lE (result (slice string))
| PrimaryDel (addr : string) : lE (option error)
| WithCancel (parent : nat) : lE nat
| WithTimeout : lE nat
| CancelCtx (c : nat) : lE unit
| WatchNodes (c : nat) (name : string) : lE unit
| WatchConfigMap (c : nat) (name : string) : lE unit
| GoPeriodic : lE unit
| GoWatches : lE unit
| AwaitDone : lE unit.

(** [fmt.Errorf("%v", errs)] on a slice of strings: the elements between
    brackets, separated by blanks. *)
Fixpoint join_blank (l : list string) : string :=
  match l with
  | [] => ""
  | [s] => s
  | s :: rest => s +:+ " " +:+ join_blank rest
  end.

Definition format_errs (errs : list string) : string := "[" +:+ join_blank errs +:+ "]".

Definition nil_call : string :=
  "runtime error: invalid memory address or nil pointer dereference".

(** A call that registers a watcher or starts a goroutine. *)
Definition starts_watching {X} (e : lE X) : bool :=
  match e with
  | WatchNodes _ _ | WatchConfigMap _ _ | GoPeriodic | GoWatches => true
  | _ => false
  end.

(** A call that sets ARP or reverse-path rules. *)
Definition sets_arp {X} (e : lE X) : bool :=
  match e with
  | LoSetARP | LoSetRPFilter | PrimarySetARP => true
  | _ => false
  end.

(** A call that was answered with an error. *)
Definition refused (en : entry lE) : bool :=
  match ecall en in lE X return option X -> bool with
  | LoTeardown _ | Flush | LoSetARP | LoSetRPFilter | PrimarySetARP
  | IPVSTeardown _ | PrimaryDel _ =>
      fun r => match r with Some (Some _) => true | _ => false end
  | PrimaryGet => fun r => match r with Some (Err _) => true | _ => false end
  | _ => fun _ => false
  end (eresp en).

(** The contexts cancelled, in order. *)
Definition cancelled_ctx (en : entry lE) : option nat :=
  match ecall en with
  | CancelCtx c => Some c
  | _ => None
  end.

Definition cancellations (tr : list (entry lE)) : list nat := omap cancelled_ctx tr.

(** Any call but the cancellation of a context. *)
Definition cancels_nothing (X : Type) (e : lE X) : Prop :=
  match e with
  | CancelCtx _ => False
  | _ => True
  end.

End Lifecycle.

Module RealserverLifecycle.
Import Lifecycle.

(** The fields of [realserver] that [Start] and [Stop] read or write;
    [cxlWatch] is [None] while the cancel function is nil. *)
Record realserver : Type := {
  ctx : nat;
  cxlWatch : option nat;
  reconfiguring : bool
}.

Definition setReconfiguring (v : bool) : M lE realserver unit :=
  modify (fun r => {| ctx := ctx r; cxlWatch := cxlWatch r; reconfiguring := v |}).

Definition cleanup (c : nat) : M lE realserver (option error) :=
  e1 <- call (LoTeardown c) ;;
  let errs1 := match e1 with
               | Some err => ["cleanup - failed to remove ip addresses - " +:+ err]
               | None => []
               end in
  e2 <- call Flush ;;
  let errs2 := match e2 with
               | Some err => errs1 ++ ["cleanup - failed to flush iptables - " +:+ err]
               | None => errs1
               end in
  match errs2 with
  | [] => ret None
  | _ => ret (Some (format_errs errs2))
  end.

(** [for _, addr := range addresses { if err := r.ipPrimary.Del(addr) ... }] *)
Fixpoint del_each (addrs : list string) : M lE realserver (option error) :=
  match addrs with
  | [] => ret None
  | addr :: rest =>
      e <- call (PrimaryDel addr) ;;
      match e with
      | Some err => ret (Some err)
      | None => del_each rest
      end
  end.

(** [err = f(); if err != nil { return err }] followed by [k]. *)
Definition or_return (f : M lE realserver (option error))
    (k : M lE realserver (option error)) : M lE realserver (option error) :=
  e <- f ;;
  match e with
  | Some err => ret (Some err)
  | None => k
  end.

Definition setup : M lE realserver (option error) :=
  r <- get ;;
  or_return (cleanup (ctx r))
  (or_return (call LoSetARP)
  (or_return (call LoSetRPFilter)
  (or_return (call PrimarySetARP)
  (or_return (call (IPVSTeardown (ctx r)))
  (g <- call PrimaryGet ;;
   match g with
   | Err err => ret (Some err)
   | Ok addresses =>
       or_return (del_each (elems addresses))
       (ctxWatch <- call (WithCancel (ctx r)) ;;
        modify (fun r => {| ctx := ctx r; cxlWatch := Some ctxWatch;
                            reconfiguring := reconfiguring r |}) ;;;
        call (WatchConfigMap ctxWatch "realserver") ;;;
        call (WatchNodes ctxWatch "director-nodes") ;;;
        ret None)
   end))))).

(** The deferred [setReconfiguring(false)] runs on every return. *)
Definition Start : M lE realserver (option error) :=
  r <- get ;;
  if reconfiguring r
  then ret (Some "unable to Start. reconfiguration already in progress.")
  else
    setReconfiguring true ;;;
    res <- (err <- setup ;;
            match err with
            | Some e => ret (Some e)
            | None => call GoPeriodic ;;; call GoWatches ;;; ret None
            end) ;;
    setReconfiguring false ;;;
    ret res.

Definition Stop : M lE realserver (option error) :=
  r <- get ;;
  if reconfiguring r
  then ret (Some "unable to Stop. reconfiguration already in progress.")
  else
    setReconfiguring true ;;;
    match cxlWatch r with
    | Some c => call (CancelCtx c)
    | None => ret tt
    end ;;;
    call AwaitDone ;;;
    ctxDestroy <- call WithTimeout ;;
    err <- cleanup ctxDestroy ;;
    call (CancelCtx ctxDestroy) ;;;
    setReconfiguring false ;;;
    ret err.

(** The realserver as [NewRealServer] leaves it, under context [c]. *)
Definition NewRealServer (c : nat) : realserver :=
  {| ctx := c; cxlWatch := None; reconfiguring := false |}.

Arguments cleanup : simpl never.
Arguments setup : simpl never.
Arguments Start : simpl never.
Arguments Stop : simpl never.

End RealserverLifecycle.

Module DirectorLifecycle.
Import Lifecycle.

(** The fields of [bgpserver] that [Start] and [Stop] read or write. *)
Record bgpserver : Type := {
  ctx : nat;
  cxlWatch : option nat
}.

Definition cleanup (c : nat) : M lE bgpserver (option error) :=
  call StopAllHAProxy ;;;
  e <- call (LoTeardown c) ;;
  match e with
  | Some err => ret (Some (format_errs ["cleanup - failed to remove ip addresses - " +:+ err]))
  | None => ret None
  end.

Definition setup : M lE bgpserver (option error) :=
  b <- get ;;
  err <- cleanup (ctx b) ;;
  match err with
  | Some e => ret (Some e)
  | None =>
      ctxWatch <- call (WithCancel (ctx b)) ;;
      put {| ctx := ctx b; cxlWatch := Some ctxWatch |} ;;;
      call (WatchNodes ctxWatch "bpg-nodes") ;;;
      call (WatchConfigMap ctxWatch "bgp-configmap") ;;;
      ret None
  end.

Definition Start : M lE bgpserver (option error) :=
  err <- setup ;;
  match err with
  | Some e => ret (Some e)
  | None => call GoWatches ;;; call GoPeriodic ;;; ret None
  end.

(** [b.cxlWatch()] is called without a nil check. *)
Definition Stop : M lE bgpserver (option error) :=
  b <- get ;;
  match cxlWatch b with
  | None => panic nil_call
  | Some c => call (CancelCtx c)
  end ;;;
  call AwaitDone ;;;
  ctxDestroy <- call WithTimeout ;;
  err <- cleanup ctxDestroy ;;
  call (CancelCtx ctxDestroy) ;;;
  ret err.

(** The director as [NewBGPWorker] leaves it, under context [c]. *)
Definition NewBGPWorker (c : nat) : bgpserver :=
  {| ctx := c; cxlWatch := None |}.

Arguments cleanup : simpl never.
Arguments setup : simpl never.
Arguments Start : simpl never.
Arguments Stop : simpl never.

End DirectorLifecycle.

Module LifecycleRuns.
Import Lifecycle.

Definition watching (en : entry lE) : bool := starts_watching (ecall en).
Definition arp (en : entry lE) : bool := sets_arp (ecall en).

Definition derives (en : entry lE) : bool :=
  match ecall en with
  | WithCancel _ => true
  | _ => false
  end.

(** The last call of the trace was refused, and no call before it. *)
Definition refused_last (tr : list (entry lE)) : Prop :=
  exists tr0 en, tr = tr0 ++ [en] /\ refused en = true /\ existsb refused tr0 = false.

(** [Del] called for each address, each answered nil. *)
Definition deleted (addrs : list string) : list (entry lE) :=
  map (fun a => Entry (PrimaryDel a) (Some None)) addrs.

(** The calls of a [cleanup] of the realserver. *)
Definition cleaned (c : nat) (e1 e2 : option error) : list (entry lE) :=
  [Entry (LoTeardown c) (Some e1); Entry Flush (Some e2)].

(** What [cleanup] of the realserver returns for the answers [e1] of
    [Teardown] and [e2] of [Flush]. *)
Definition cleanup_error (e1 e2 : option error) : option error :=
  match e1, e2 with
  | None, None => None
  | Some a, None => Some (format_errs ["cleanup - failed to remove ip addresses - " +:+ a])
  | None, Some b => Some (format_errs ["cleanup - failed to flush iptables - " +:+ b])
  | Some a, Some b =>
      Some (format_errs ["cleanup - failed to remove ip addresses - " +:+ a;
                         "cleanup - failed to flush iptables - " +:+ b])
  end.

(** The calls of a [setup] of the realserver that succeeded. *)
Definition set_up (c : nat) (addresses : slice string) (ctxWatch : nat) : list (entry lE) :=
  cleaned c None None ++
  [Entry LoSetARP (Some None); Entry LoSetRPFilter (Some None);
   Entry PrimarySetARP (Some None); Entry (IPVSTeardown c) (Some None);
   Entry PrimaryGet (Some (Ok addresses))] ++
  deleted (elems addresses) ++
  [Entry (WithCancel c) (Some ctxWatch);
   Entry (WatchConfigMap ctxWatch "realserver") (Some tt);
   Entry (WatchNodes ctxWatch "director-nodes") (Some tt)].

(** The calls of a [Stop] of the realserver after the cancellation of the
    watch context. *)
Definition stopped (ctxDestroy : nat) (e1 e2 : option error) : list (entry lE) :=
  [Entry AwaitDone (Some tt); Entry WithTimeout (Some ctxDestroy)] ++
  cleaned ctxDestroy e1 e2 ++ [Entry (CancelCtx ctxDestroy) (Some tt)].

(** The calls of a [Start] of the director that succeeded. *)
Definition director_started (c w : nat) : list (entry lE) :=
  [Entry StopAllHAProxy (Some tt); Entry (LoTeardown c) (Some None);
   Entry (WithCancel c) (Some w);
   Entry (WatchNodes w "bpg-nodes") (Some tt);
   Entry (WatchConfigMap w "bgp-configmap") (Some tt);
   Entry GoWatches (Some tt); Entry GoPeriodic (Some tt)].

End LifecycleRuns.

Module LifecycleExamples.
Import Lifecycle.

(** An environment in which every call succeeds: contexts are numbered in
    the order they are made, and the primary device holds one address. *)
Definition calm_call (X : Type) (e : lE X) (next : nat) : option X * nat :=
  match e in lE X return option X * nat with
  | StopAllHAProxy => (Some tt, next)
  | LoTeardown _ => (Some None, next)
  | Flush => (Some None, next)
  | LoSetARP => (Some None, next)
  | LoSetRPFilter => (Some None, next)
  | PrimarySetARP => (Some None, next)
  | IPVSTeardown _ => (Some None, next)
  | PrimaryGet => (Some (Ok (Slice ["10.0.0.9"])), next)
  | PrimaryDel _ => (Some None, next)
  | WithCancel _ => (Some next, S next)
  | WithTimeout => (Some next, S next)
  | CancelCtx _ => (Some tt, next)
  | WatchNodes _ _ => (Some tt, next)
  | WatchConfigMap _ _ => (Some tt, next)
  | GoPeriodic => (Some tt, next)
  | GoWatches => (Some tt, next)
  | AwaitDone => (Some tt, next)
  end.

Definition calm : handler lE nat :=
  {| on_call := calm_call; elapse := fun w => (0, w) |}.

End LifecycleExamples.

(** * The director's table of services

    [watchServiceUpdates] and [getClusterAddr].  The services come from
    [b.watcher.Services()], a map from service name to a pointer to a
    Kubernetes service, of which the code reads [Spec.ClusterIP] and
    [Spec.Ports] (a slice of ports with a [Name] and a [Port]).  A nil
    pointer in the map is [None].  [strconv.Itoa] is a parameter. *)

Module DirectorServices.

Record ServicePort : Type := {
  sp_Name : string;
  sp_Port : Z
}.

Record Service : Type := {
  ClusterIP : string;
  Ports : slice ServicePort
}.

Inductive svE : Type -> Type :=
| Services : svE (gmap string (option Service)).

Definition nil_dereference : string :=
  "runtime error: invalid memory address or nil pointer dereference".

Section Itoa.
Variable Itoa : Z -> string.

(** [identifier := svcName + ":" + port.Name] *)
Definition identifier (svcName : string) (port : ServicePort) : string :=
  svcName +:+ ":" +:+ sp_Name port.

(** [addr := svc.Spec.ClusterIP + ":" + strconv.Itoa(int(port.Port))] *)
Definition cluster_addr (svc : Service) (port : ServicePort) : string :=
  ClusterIP svc +:+ ":" +:+ Itoa (sp_Port port).

(** [for _, port := range svc.Spec.Ports { services[identifier] = addr }] *)
Definition port_loop (svcName : string) (svc : Service) (ports : list ServicePort)
    (services : gmap string string) : gmap string string :=
  fold_left (fun acc port => <[identifier svcName port := cluster_addr svc port]> acc)
            ports services.

(** The loop over the services, in the order of [map_to_list]; [None] is
    the dereference of a nil service pointer. *)
Fixpoint service_loop (entries : list (string * option Service))
    (services : gmap string string) : option (gmap string string) :=
  match entries with
  | [] => Some services
  | (_, None) :: _ => None
  | (svcName, Some svc) :: rest =>
      if String.eqb (ClusterIP svc) "" then service_loop rest services
      else
        match Ports svc with
        | NilSlice => service_loop rest services
        | Slice ports => service_loop rest (port_loop svcName svc ports services)
        end
  end.

(** One tick of [watchServiceUpdates]; the receiver's state is the field
    [b.services]. *)
Definition watchServiceUpdates_tick : M svE (gmap string string) unit :=
  all <- call Services ;;
  match service_loop (map_to_list all) ∅ with
  | None => panic nil_dereference
  | Some services => put services
  end.

Definition getClusterAddr (identity : string) : M svE (gmap string string) (result string) :=
  services <- get ;;
  match services !! identity with
  | Some ip => ret (Ok ip)
  | None => ret (Err "not found")
  end.

(** The entry that a port of a service with a cluster address puts in the
    table. *)
Definition serves (all : gmap string (option Service)) (id addr : string) : Prop :=
  exists svcName svc port,
    all !! svcName = Some (Some svc) /\ ClusterIP svc <> "" /\
    port ∈ elems (Ports svc) /\
    id = identifier svcName port /\ addr = cluster_addr svc port.

End Itoa.

Arguments getClusterAddr : simpl never.

End DirectorServices.

(** * The director's HAProxy configuration

    [configureHAProxy], with [getClusterAddr] inlined as the lookup in
    [b.services].  [b.haproxy] is the set manager that [NewBGPWorker] makes
    with [haproxy.NewHAProxySet]; its methods run on that field.
    [strconv.Atoi] is a parameter; its error is dropped by the code. *)

Module DirectorHAProxy.
Import HAProxy types.

(** The fields of [bgpserver] that [configureHAProxy] reads or writes. *)
Record bgpserver : Type := {
  services : gmap string string;
  config : option ClusterConfig;
  haproxy : HAProxySetManager
}.

Definition set_haproxy (s : HAProxySetManager) (b : bgpserver) : bgpserver :=
  {| services := services b; config := config b; haproxy := s |}.

(** A method of the set manager, called on the field [b.haproxy]. *)
Definition on_haproxy {A} (m : M haE HAProxySetManager A) : M haE bgpserver A :=
  fun b => pbind (m (haproxy b)) (fun r => Ret (fst r, set_haproxy (snd r) b)).

(** [uint16(p)]: the low 16 bits. *)
Definition to_uint16 (p : Z) : uint16 := (p mod 65536)%Z.

(** The zero [VIPConfig] that indexing [configSet] with a missing key gives. *)
Definition zero_VIPConfig : VIPConfig :=
  {| Addr6 := ""; ServiceAddrs := NilSlice; ListenPorts := NilSlice |}.

Definition nil_dereference : string :=
  "runtime error: invalid memory address or nil pointer dereference".

Section Atoi.
Variable Atoi : string -> Z.

(** [identity := cfg.Namespace + "/" + cfg.Service + ":" + cfg.PortName] *)
Definition identity (cfg : ServiceRef) : string :=
  Namespace cfg +:+ "/" +:+ Service cfg +:+ ":" +:+ PortName cfg.

(** [for port, cfg := range portMap]: a port whose service has no cluster
    address is logged and skipped, address and listen port alike. *)
Fixpoint port_map_loop (entries : list (string * ServiceRef))
    (serviceAddrs : slice string) (listenPorts : slice uint16)
    : M haE bgpserver (slice string * slice uint16) :=
  match entries with
  | [] => ret (serviceAddrs, listenPorts)
  | (port, cfg) :: rest =>
      b <- get ;;
      match services b !! identity cfg with
      | None =>
          call (Errorf ("unable to configure haproxy v6 for " +:+ identity cfg +:+
                        ". not found")) ;;;
          port_map_loop rest serviceAddrs listenPorts
      | Some addr4 =>
          port_map_loop rest (append serviceAddrs addr4)
                        (append listenPorts (to_uint16 (Atoi port)))
      end
  end.

(** [for ip, portMap := range b.config.Config] *)
Fixpoint vip_loop (entries : list (string * gmap string ServiceRef)) (c : ClusterConfig)
    (addrs : slice string) (configSet : gmap string VIPConfig)
    : M haE bgpserver (slice string * gmap string VIPConfig) :=
  match entries with
  | [] => ret (addrs, configSet)
  | (ip, portMap) :: rest =>
      let addr6 := default "" (IPV6 c !! ip) in
      sl <- port_map_loop (map_to_list portMap) (Slice []) (Slice []) ;;
      vip_loop rest c (append addrs addr6)
        (<[addr6 := {| Addr6 := addr6; ServiceAddrs := fst sl; ListenPorts := snd sl |}]>
           configSet)
  end.

(** [for _, removal := range removals { b.haproxy.StopOne(removal) }] *)
Fixpoint stop_each (removals : list string) : M haE bgpserver unit :=
  match removals with
  | [] => ret tt
  | removal :: rest => on_haproxy (StopOne removal) ;;; stop_each rest
  end.

(** [for _, addition := range addrs { if err := b.haproxy.Configure(...) }] *)
Fixpoint configure_each (addrs : list string) (configSet : gmap string VIPConfig)
    : M haE bgpserver (option error) :=
  match addrs with
  | [] => ret None
  | addition :: rest =>
      e <- on_haproxy (Configure (default zero_VIPConfig (configSet !! addition))) ;;
      match e with
      | Some err => ret (Some err)
      | None => configure_each rest configSet
      end
  end.

Definition configureHAProxy : M haE bgpserver (option error) :=
  b <- get ;;
  match config b with
  | None => panic nil_dereference
  | Some c =>
      ac <- vip_loop (map_to_list (Config c)) c (Slice []) ∅ ;;
      removals <- on_haproxy (GetRemovals (fst ac)) ;;
      stop_each (elems removals) ;;;
      configure_each (elems (fst ac)) (snd ac)
  end.

End Atoi.

(** Every configuration of the set is filed under its own address and
    pairs each listen port with a service address. *)
Definition aligned (configSet : gmap string VIPConfig) : Prop :=
  forall k v, configSet !! k = Some v ->
    Addr6 v = k /\ len (ServiceAddrs v) = len (ListenPorts v).

(** The instances of [s] under addresses that [s0] did not know are those
    of [configSet]. *)
Definition created_from (configSet : gmap string VIPConfig) (s0 s : HAProxySetManager)
    : Prop :=
  forall k inst, sources s !! k = Some inst -> sources s0 !! k = None ->
    exists v, configSet !! k = Some v /\
              listenAddr inst = k /\
              serviceAddrs inst = ServiceAddrs v /\ ports inst = ListenPorts v.

Arguments on_haproxy : simpl never.
Arguments configureHAProxy : simpl never.

End DirectorHAProxy.

Module DirectorHAProxyExamples.
Import HAProxy types DirectorHAProxy Examples.

(** One IPv4 VIP with two listen ports, of which only the first names a
    service that is known, and its IPv6 address. *)
Definition v6_cluster : ClusterConfig :=
  {| Config :=
       {[ "10.10.0.1" :=
            {[ "80" := {| Namespace := "s"; Service := "web"; PortName := "http" |};
               "443" := {| Namespace := "s"; Service := "gone"; PortName := "https" |} ]} ]};
     Config6 := ∅;
     IPV6 := {[ "10.10.0.1" := "fd00::1" ]} |}.

Definition empty_set : HAProxySetManager :=
  {| sources := ∅; cancelFuncs := ∅; set_errChan := 0;
     set_binary := "/usr/sbin/haproxy"; set_configDir := "/etc/ravel";
     set_ctx := 0; parentCtx := 0 |}.

Definition v6_director : bgpserver :=
  {| services := {[ "s/web:http" := "10.96.0.10:80" ]};
     config := Some v6_cluster;
     haproxy := empty_set |}.

(** A stand-in for [strconv.Atoi] on the two port names in use. *)
Definition example_Atoi (s : string) : Z :=
  if String.eqb s "80" then 80%Z else if String.eqb s "443" then 443%Z else 0%Z.

End DirectorHAProxyExamples.

(** * Goroutines over one receiver

    [watches] and [periodic] run as two goroutines on the same worker
    ([go b.watches(); go b.periodic()]).  Here the body of a [select] case
    is a program whose steps are the single things a goroutine does: it
    locks or unlocks the worker's mutex, reads a field, assigns a field,
    reads the clock, or calls out.  A run is a schedule: which goroutine
    takes its next step, or which message or tick an idle goroutine takes
    from its [select]. *)

Declare Scope code_scope.
Delimit Scope code_scope with code.
Notation "x <- m ;; k" := (pbind m (fun x => k))
  (at level 63, m at next level, right associativity) : code_scope.
Notation "m ;;; k" := (pbind m (fun _ => k))
  (at level 63, right associativity) : code_scope.

Module Goroutines.

Inductive goroutine : Type := watches | periodic.

Section Shared.
Context {R : Type} {E : Type -> Type}.

(** [Fetch f] reads the field [f] of the receiver, [Assign s] is the
    assignment that takes the receiver [r] to [s r], [Ask e] is a call to
    a collaborator. *)
Inductive op : Type -> Type :=
| Lock : op unit
| Unlock : op unit
| Fetch {X : Type} (f : R -> X) : op X
| Assign (s : R -> R) : op unit
| Ask {X : Type} (e : E X) : op X.

Definition code (A : Type) : Type := prog op A.

Definition lock : code unit := Vis Lock Ret.
Definition unlock : code unit := Vis Unlock Ret.
Definition fetch {X} (f : R -> X) : code X := Vis (Fetch f) Ret.
Definition assign (s : R -> R) : code unit := Vis (Assign s) Ret.
Definition ask {X} (e : E X) : code X := Vis (Ask e) Ret.
Definition clock_now : code time := Now Ret.
Definition done : code unit := Ret tt.

(** The worker and its two goroutines: the fields, who holds the mutex,
    and what each goroutine has still to do of the case it is in ([Ret]:
    it is back at its [select]). *)
Record machine : Type := {
  mem : R;
  mutex : option goroutine;
  in_watches : code unit;
  in_periodic : code unit
}.

Definition rest_of (g : goroutine) (m : machine) : code unit :=
  match g with
  | watches => in_watches m
  | periodic => in_periodic m
  end.

Definition resume (g : goroutine) (p : code unit) (m : machine) : machine :=
  match g with
  | watches => {| mem := mem m; mutex := mutex m; in_watches := p;
                  in_periodic := in_periodic m |}
  | periodic => {| mem := mem m; mutex := mutex m; in_watches := in_watches m;
                   in_periodic := p |}
  end.

Definition with_mem (r : R) (m : machine) : machine :=
  {| mem := r; mutex := mutex m; in_watches := in_watches m;
     in_periodic := in_periodic m |}.

Definition with_mutex (h : option goroutine) (m : machine) : machine :=
  {| mem := mem m; mutex := h; in_watches := in_watches m;
     in_periodic := in_periodic m |}.

(** One step of goroutine [g].  [Lock] waits while the mutex is held; a
    panic of a goroutine ends the program. *)
Definition advance (g : goroutine) (m : machine) : prog E machine :=
  match rest_of g m with
  | Ret _ => Ret m
  | Panic msg => Panic msg
  | Now k => Now (fun t => Ret (resume g (k t) m))
  | Vis o k =>
      match o in op X return (X -> code unit) -> prog E machine with
      | Lock => fun k =>
          match mutex m with
          | None => Ret (resume g (k tt) (with_mutex (Some g) m))
          | Some _ => Ret m
          end
      | Unlock => fun k => Ret (resume g (k tt) (with_mutex None m))
      | Fetch f => fun k => Ret (resume g (k (f (mem m))) m)
      | Assign s => fun k => Ret (resume g (k tt) (with_mem (s (mem m)) m))
      | Ask e => fun k => Vis e (fun x => Ret (resume g (k x) m))
      end k
  end.

Section Schedule.
Variable event : Type.

(** [handles ev]: the goroutine whose [select] has the case of [ev], and
    the body of that case. *)
Variable handles : event -> goroutine * code unit.

Inductive move : Type :=
| Take (ev : event)
| Step (g : goroutine).

Definition mover (mv : move) : goroutine :=
  match mv with
  | Take ev => fst (handles ev)
  | Step g => g
  end.

(** A goroutine takes a message or a tick only when it is at its
    [select]. *)
Definition make (mv : move) (m : machine) : prog E machine :=
  match mv with
  | Take ev =>
      match rest_of (fst (handles ev)) m with
      | Ret _ => Ret (resume (fst (handles ev)) (snd (handles ev)) m)
      | _ => Ret m
      end
  | Step g => advance g m
  end.

Fixpoint moves (sch : list move) (m : machine) : prog E machine :=
  match sch with
  | [] => Ret m
  | mv :: rest => pbind (make mv m) (moves rest)
  end.

End Schedule.

(** Both goroutines at their [select], the mutex free. *)
Definition idle (r : R) : machine :=
  {| mem := r; mutex := None; in_watches := done; in_periodic := done |}.

(** The machine at the end of a run that returned ([m0] otherwise). *)
Definition machine_of {W} (m0 : machine) (f : final E machine W) : machine :=
  match out f with
  | Returned m => m
  | _ => m0
  end.

(** A goroutine run on its own: its steps in order on the receiver. *)
Fixpoint alone {A} (p : code A) (r : R) : prog E (A * R) :=
  match p with
  | Ret a => Ret (a, r)
  | Panic msg => Panic msg
  | Now k => Now (fun t => alone (k t) r)
  | Vis o k =>
      match o in op X return (X -> code A) -> prog E (A * R) with
      | Lock => fun k => alone (k tt) r
      | Unlock => fun k => alone (k tt) r
      | Fetch f => fun k => alone (k (f r)) r
      | Assign s => fun k => alone (k tt) (s r)
      | Ask e => fun k => Vis e (fun x => alone (k x) r)
      end k
  end.

(** Two programs that no environment tells apart. *)
Definition same_runs {A} (p q : prog E A) : Prop :=
  forall (W : Type) (hd : handler E W) (w : W) (clk : time),
    run p hd w clk = run q hd w clk.

(** [timely J clk p]: whatever [p] still assigns keeps [J], however much
    time passes before it does. *)
Fixpoint timely {A} (J : time -> R -> Prop) (clk : time) (p : code A) : Prop :=
  match p with
  | Ret _ => True
  | Panic _ => True
  | Now k => forall t, clk <= t -> timely J t (k t)
  | Vis o k =>
      match o with
      | Assign s => forall c r, clk <= c -> J c r -> J c (s r)
      | _ => True
      end /\ forall x, timely J clk (k x)
  end.

(** The fields keep [J], and so does all that the goroutines have still
    to assign. *)
Definition in_time (J : time -> R -> Prop) (clk : time) (m : machine) : Prop :=
  J clk (mem m) /\ timely J clk (in_watches m) /\ timely J clk (in_periodic m).

(** Is the goroutine about to evaluate the [time.Now()] of an assignment
    [field = time.Now()]? *)
Definition reads_clock_for (set : time -> R -> R) (p : code unit) : Prop :=
  exists k, p = Now k /\ forall t, exists k', k t = Vis (Assign (set t)) k'.

End Shared.

Arguments Step {event} g.
Arguments op R E : clear implicits.
Arguments code R E A : clear implicits.
Arguments machine R E : clear implicits.

End Goroutines.

(** * The director's goroutines

    The cases of [watches] and [periodic] step by step.  A field is read
    where the source reads it; reads that only feed the logger are left
    out. *)

Module DirectorGoroutines.
Import types bgp Goroutines.
Local Open Scope code_scope.

Definition set_nodes (ns : list Node) (b : bgpserver) : bgpserver :=
  {| nodes := ns; config := config b; newConfig := newConfig b;
     lastInboundUpdate := lastInboundUpdate b; lastReconfigure := lastReconfigure b |}.

Definition set_config (c : option ClusterConfig) (b : bgpserver) : bgpserver :=
  {| nodes := nodes b; config := c; newConfig := newConfig b;
     lastInboundUpdate := lastInboundUpdate b; lastReconfigure := lastReconfigure b |}.

Definition set_lastInboundUpdate (t : time) (b : bgpserver) : bgpserver :=
  {| nodes := nodes b; config := config b; newConfig := newConfig b;
     lastInboundUpdate := t; lastReconfigure := lastReconfigure b |}.

(** [case nodes := <-b.nodeChan] *)
Definition recv_nodes (ns : list Node) : code bgpserver dE unit :=
  cur <- fetch nodes ;;
  same <- ask (NodesEqual cur ns) ;;
  if same : bool then ask (Metric_NodeUpdate "noop")
  else
    ask (Metric_NodeUpdate "updated") ;;;
    lock ;;;
    assign (set_nodes ns) ;;;
    t <- clock_now ;;
    assign (set_lastInboundUpdate t) ;;;
    unlock.

(** [case configs := <-b.configChan] *)
Definition recv_config (c : option ClusterConfig) : code bgpserver dE unit :=
  lock ;;;
  assign (set_config c) ;;;
  assign (set_newConfig true) ;;;
  t <- clock_now ;;
  assign (set_lastInboundUpdate t) ;;;
  unlock ;;;
  ask Metric_ConfigUpdate.

Fixpoint each_until_error (f : string -> dE (option error)) (addrs : list string)
    : code bgpserver dE (option error) :=
  match addrs with
  | [] => Ret None
  | addr :: rest =>
      e <- ask (f addr) ;;
      match e with
      | Some err => Ret (Some err)
      | None => each_until_error f rest
      end
  end.

Definition setAddresses : code bgpserver dE (option error) :=
  g <- ask LoGet ;;
  match g with
  | Err err => Ret (Some err)
  | Ok configured =>
      c <- fetch config ;;
      match c with
      | None => Panic nil_dereference
      | Some c =>
          ra <- ask (LoCompare configured (vips c)) ;;
          e <- each_until_error LoDel (fst ra) ;;
          match e with
          | Some err => Ret (Some err)
          | None => each_until_error LoAdd (snd ra)
          end
      end
  end.

Definition configure : code bgpserver dE (option error) :=
  e <- setAddresses ;;
  match e with
  | Some err => Ret (Some err)
  | None =>
      c <- fetch config ;;
      match c with
      | None => Panic nil_dereference
      | Some c =>
          e <- ask (BgpSet (vips c)) ;;
          match e with
          | Some err => Ret (Some err)
          | None =>
              ns <- fetch nodes ;;
              c' <- fetch config ;;
              e <- ask (SetIPVS ns c') ;;
              match e with
              | Some err => Ret (Some ("unable to configure ipvs with error " +:+ err))
              | None =>
                  t <- clock_now ;;
                  assign (set_lastReconfigure t) ;;;
                  Ret None
              end
          end
      end
  end.

Definition configReady : code bgpserver dE bool :=
  lock ;;;
  ready <- fetch newConfig ;;
  (if ready : bool then assign (set_newConfig false) else done) ;;;
  unlock ;;;
  Ret ready.

(** [b.lastReconfigure.Sub(b.lastInboundUpdate) > 0] *)
Definition noUpdatesReady : code bgpserver dE bool :=
  lr <- fetch lastReconfigure ;;
  li <- fetch lastInboundUpdate ;;
  Ret (Nat.ltb li lr).

(** The arguments [b.nodes] and [b.config] of [CheckConfigParity] are read
    before [b.configReady()] is called; Go leaves that order open. *)
Definition performReconfigure : code bgpserver dE unit :=
  skip <- noUpdatesReady ;;
  if skip : bool then done
  else
    start <- clock_now ;;
    g <- ask LoGet ;;
    match g with
    | Err err => clock_now ;;; ask (Metric_Reconfigure "error")
    | Ok addresses =>
        ns <- fetch nodes ;;
        c <- fetch config ;;
        ready <- configReady ;;
        p <- ask (CheckConfigParity ns c addresses ready) ;;
        match p with
        | Err err => clock_now ;;; ask (Metric_Reconfigure "error")
        | Ok true => clock_now ;;; ask (Metric_Reconfigure "noop")
        | Ok false =>
            e <- configure ;;
            match e with
            | Some err => clock_now ;;; ask (Metric_Reconfigure "critical")
            | None => clock_now ;;; ask (Metric_Reconfigure "complete")
            end
        end
    end.

(** [case <-reconfigureTicker.C] *)
Definition tick_reconfigure : code bgpserver dE unit :=
  start <- clock_now ;;
  e <- configure ;;
  match e with
  | Some err => clock_now ;;; ask (Metric_Reconfigure "critical")
  | None => done
  end.

(** Which goroutine has the case of an event, and the body of the case. *)
Definition handles (ev : event) : goroutine * code bgpserver dE unit :=
  match ev with
  | RecvNodes ns => (watches, recv_nodes ns)
  | RecvConfig c => (watches, recv_config c)
  | TickQueueDepth => (periodic, ask Metric_QueueDepth)
  | TickReconfigure => (periodic, tick_reconfigure)
  | TickBGP => (periodic, performReconfigure)
  end.

(** The director as [Start] leaves it: both goroutines at their [select]. *)
Definition started : machine bgpserver dE := idle NewBGPWorker.

Arguments setAddresses : simpl never.
Arguments configure : simpl never.

End DirectorGoroutines.

(** * The realserver's goroutines *)

Module RealserverGoroutines.
Import types realserver Goroutines.
Local Open Scope code_scope.

Definition set_node (n : Node) (r : realserver) : realserver :=
  {| nodeName := nodeName r; config := config r; node := n;
     lastInboundUpdate := lastInboundUpdate r; lastReconfigure := lastReconfigure r;
     forcedReconfigure := forcedReconfigure r |}.

Definition set_config (c : option ClusterConfig) (r : realserver) : realserver :=
  {| nodeName := nodeName r; config := c; node := node r;
     lastInboundUpdate := lastInboundUpdate r; lastReconfigure := lastReconfigure r;
     forcedReconfigure := forcedReconfigure r |}.

Definition set_lastInboundUpdate (t : time) (r : realserver) : realserver :=
  {| nodeName := nodeName r; config := config r; node := node r;
     lastInboundUpdate := t; lastReconfigure := lastReconfigure r;
     forcedReconfigure := forcedReconfigure r |}.

(** [case nodes := <-r.nodeChan] *)
Definition recv_nodes (ns : list Node) : code realserver rE unit :=
  name <- fetch nodeName ;;
  match find_node name ns with
  | None => done
  | Some n =>
      cur <- fetch node ;;
      same <- ask (NodeEqual cur n) ;;
      if same : bool then ask (Metric_NodeUpdate "noop")
      else
        ask (Metric_NodeUpdate "updated") ;;;
        lock ;;;
        assign (set_node n) ;;;
        t <- clock_now ;;
        assign (set_lastInboundUpdate t) ;;;
        unlock
  end.

(** [case config := <-r.configChan] *)
Definition recv_config (c : option ClusterConfig) : code realserver rE unit :=
  lock ;;;
  assign (set_config c) ;;;
  t <- clock_now ;;
  assign (set_lastInboundUpdate t) ;;;
  unlock ;;;
  ask Metric_ConfigUpdate.

Definition checkConfigParity : code realserver rE (bool * option error) :=
  c0 <- fetch config ;;
  match c0 with
  | None => Ret (true, None)
  | Some _ =>
      g <- ask LoGet ;;
      match g with
      | Err err => Ret (false, Some err)
      | Ok addresses =>
          c1 <- fetch config ;;
          match c1 with
          | None => Panic nil_dereference
          | Some c =>
              let vips := sort_strings (vips c) in
              s <- ask Save ;;
              match s with
              | Err err => Ret (false, Some err)
              | Ok existing =>
                  base <- ask BaseChain ;;
                  let existingRules :=
                    match existing !! base with
                    | Some k => sort_strings (Rules k)
                    | None => Slice []
                    end in
                  c2 <- fetch config ;;
                  gen <- ask (GenerateRules c2) ;;
                  match gen with
                  | Err err => Ret (false, Some err)
                  | Ok generated =>
                      base' <- ask BaseChain ;;
                      let generatedRules :=
                        sort_strings (Rules (default zero_Chain (generated !! base'))) in
                      Ret (DeepEqual string_eqb vips addresses &&
                           DeepEqual string_eqb existingRules generatedRules, None)
                  end
              end
          end
      end
  end.

Fixpoint each_until_error (f : string -> rE (option error)) (addrs : list string)
    : code realserver rE (option error) :=
  match addrs with
  | [] => Ret None
  | addr :: rest =>
      e <- ask (f addr) ;;
      match e with
      | Some err => Ret (Some err)
      | None => each_until_error f rest
      end
  end.

Definition setAddresses : code realserver rE (option error) :=
  g <- ask LoGet ;;
  match g with
  | Err err => Ret (Some err)
  | Ok configured =>
      c <- fetch config ;;
      match c with
      | None => Panic nil_dereference
      | Some c =>
          ra <- ask (LoCompare configured (vips c)) ;;
          e <- each_until_error LoDel (fst ra) ;;
          match e with
          | Some err => Ret (Some err)
          | None => each_until_error LoAdd (snd ra)
          end
      end
  end.

Definition configure (force : bool) : code realserver rE (option error * Z) :=
  let apply : code realserver rE (option error * Z) :=
    e <- setAddresses ;;
    match e with
    | Some err => Ret (Some err, 0%Z)
    | None =>
        s <- ask Save ;;
        match s with
        | Err err => Ret (Some err, 0%Z)
        | Ok existing =>
            n <- fetch node ;;
            c <- fetch config ;;
            g <- ask (GenerateRulesForNodes n c false) ;;
            match g with
            | Err err => Ret (Some err, 0%Z)
            | Ok generated =>
                m <- ask (Merge generated existing) ;;
                match snd m with
                | Some err => Ret (Some err, snd (fst m))
                | None =>
                    e <- ask (Restore (fst (fst m))) ;;
                    match e with
                    | Some err =>
                        dump <- ask (BytesFromRules (fst (fst m))) ;;
                        werr <- ask (WriteFile "/tmp/realserver-ruleset-err"
                                       (createErrorLog (Some err) dump)) ;;
                        match werr with
                        | Some _ =>
                            ask (BytesFromRules (fst (fst m))) ;;;
                            Ret (Some err, snd (fst m))
                        | None => Ret (Some err, snd (fst m))
                        end
                    | None => Ret (None, snd (fst m))
                    end
                end
            end
        end
    end in
  if force then apply
  else
    p <- checkConfigParity ;;
    match p with
    | (_, Some err) => Ret (Some err, 0%Z)
    | (true, None) => Ret (None, 0%Z)
    | (false, None) => apply
    end.

(** [case <-forceReconfigure.C] *)
Definition tick_forced : code realserver rE unit :=
  forced <- fetch forcedReconfigure ;;
  if forced : bool then
    start <- clock_now ;;
    res <- configure true ;;
    match fst res with
    | Some err => clock_now ;;; ask (Metric_Reconfigure "error")
    | None => done
    end
  else done.

(** [case <-t.C] *)
Definition tick_slow : code realserver rE unit :=
  start <- clock_now ;;
  res <- configure false ;;
  match fst res with
  | Some err => clock_now ;;; ask (Metric_Reconfigure "error")
  | None => done
  end.

(** [case <-checkTicker.C]; [r.node.Name] is read only when [r.config] is
    not nil. *)
Definition tick_check : code realserver rE unit :=
  start <- clock_now ;;
  lr <- fetch lastReconfigure ;;
  li <- fetch lastInboundUpdate ;;
  if Nat.ltb li lr then done
  else
    ask Metric_QueueDepth ;;;
    c <- fetch config ;;
    let noop : code realserver rE unit :=
      clock_now ;;; ask (Metric_Reconfigure "noop") in
    match c with
    | None => noop
    | Some _ =>
        n <- fetch node ;;
        if String.eqb (Name n) "" then noop
        else
          res <- configure false ;;
          match fst res with
          | Some err => clock_now ;;; ask (Metric_Reconfigure "error")
          | None =>
              clock_now ;;;
              assign (set_lastReconfigure start) ;;;
              clock_now ;;;
              ask (Metric_Reconfigure "complete")
          end
    end.

Definition handles (ev : event) : goroutine * code realserver rE unit :=
  match ev with
  | RecvNodes ns => (watches, recv_nodes ns)
  | RecvConfig c => (watches, recv_config c)
  | TickForced => (periodic, tick_forced)
  | TickSlow => (periodic, tick_slow)
  | TickCheck => (periodic, tick_check)
  end.

(** The realserver as [Start] leaves it. *)
Definition started (name : string) (forced : bool) : machine realserver rE :=
  idle (NewRealServer name forced).

Arguments checkConfigParity : simpl never.
Arguments setAddresses : simpl never.
Arguments configure : simpl never.

End RealserverGoroutines.

(** * Properties *)

(** ** The program logic *)

Section ProgFacts.
Context {E : Type -> Type}.
Implicit Types clk : time.

Lemma always_ret {A} clk (a : A) (Q : outcome A -> time -> list (entry E) -> Prop) :
  Q (Returned a) clk [] -> always clk (Ret a) Q.
Proof. intros HQ W hd w. exact HQ. Qed.

Lemma always_panic {A} clk msg (Q : outcome A -> time -> list (entry E) -> Prop) :
  Q (Panicked msg) clk [] -> always clk (Panic msg) Q.
Proof. intros HQ W hd w. exact HQ. Qed.

Lemma always_now {A} clk (k : time -> prog E A) Q :
  (forall d, always (clk + d) (k (clk + d)) Q) -> always clk (Now k) Q.
Proof. intros Hk W hd w. cbn. apply Hk. Qed.

Lemma always_vis {A X} clk (e : E X) (k : X -> prog E A) Q :
  Q Blocked clk [Entry e None] ->
  (forall x, always clk (k x) (fun o c tr => Q o c (Entry e (Some x) :: tr))) ->
  always clk (Vis e k) Q.
Proof.
  intros Hb Hk W hd w. cbn.
  destruct (on_call hd e w) as [[x|] w']; cbn; [apply Hk | exact Hb].
Qed.

Lemma always_mono {A} clk (p : prog E A) (Q Q' : outcome A -> time -> list (entry E) -> Prop) :
  always clk p Q -> (forall o c tr, Q o c tr -> Q' o c tr) -> always clk p Q'.
Proof. intros Hp HQ W hd w. apply HQ, Hp. Qed.

Lemma run_pbind {A B W} (p : prog E A) (f : A -> prog E B) (hd : handler E W) w clk :
  run (pbind p f) hd w clk =
  match out (run p hd w clk) with
  | Returned a =>
      let f2 := run (f a) hd (world (run p hd w clk)) (clock (run p hd w clk)) in
      {| out := out f2; world := world f2; clock := clock f2;
         trace := trace (run p hd w clk) ++ trace f2 |}
  | Panicked msg =>
      {| out := Panicked msg; world := world (run p hd w clk);
         clock := clock (run p hd w clk); trace := trace (run p hd w clk) |}
  | Blocked =>
      {| out := Blocked; world := world (run p hd w clk);
         clock := clock (run p hd w clk); trace := trace (run p hd w clk) |}
  end.
Proof.
  revert w clk. induction p as [a|msg|k IH|X e k IH]; intros w clk; cbn.
  - destruct (run (f a) hd w clk); reflexivity.
  - reflexivity.
  - apply IH.
  - destruct (on_call hd e w) as [[x|] w']; cbn; [|reflexivity].
    rewrite IH. destruct (out (run (k x) hd w' clk)); reflexivity.
Qed.

Lemma always_bind {A B} clk (p : prog E A) (f : A -> prog E B) Q :
  always clk p (fun o c tr =>
    match o with
    | Returned a => always c (f a) (fun o' c' tr' => Q o' c' (tr ++ tr'))
    | Panicked msg => Q (Panicked msg) c tr
    | Blocked => Q Blocked c tr
    end) ->
  always clk (pbind p f) Q.
Proof.
  intros Hp W hd w. specialize (Hp W hd w). rewrite run_pbind.
  destruct (out (run p hd w clk)) as [a|msg|]; cbn; [|exact Hp|exact Hp].
  apply (Hp W hd).
Qed.

Lemma always_and {A} clk (p : prog E A) (Q1 Q2 : outcome A -> time -> list (entry E) -> Prop) :
  always clk p Q1 -> always clk p Q2 ->
  always clk p (fun o c tr => Q1 o c tr /\ Q2 o c tr).
Proof. intros H1 H2 W hd w. split; [apply H1 | apply H2]. Qed.

Lemma only_calls_pbind {A B} (P : forall X, E X -> Prop) (p : prog E A) (f : A -> prog E B) :
  only_calls P p -> (forall a, only_calls P (f a)) -> only_calls P (pbind p f).
Proof.
  intros Hp Hf. induction p as [a|msg|k IH|X e k IH]; cbn in *.
  - apply Hf.
  - exact I.
  - intros t. apply IH, Hp.
  - destruct Hp as [He Hk]. split; [exact He|]. intros x. apply IH, Hk.
Qed.

Lemma only_calls_trace {A} (P : forall X, E X -> Prop) clk (p : prog E A) :
  only_calls P p ->
  always clk p (fun _ _ tr => Forall (fun en => P _ (ecall en)) tr).
Proof.
  revert clk. induction p as [a|msg|k IH|X e k IH]; intros clk Hp; cbn in Hp.
  - apply always_ret. constructor.
  - apply always_panic. constructor.
  - apply always_now. intros d. apply IH, Hp.
  - destruct Hp as [He Hk]. apply always_vis.
    + constructor; [exact He | constructor].
    + intros x. eapply always_mono; [apply IH, Hk|].
      cbn. intros _ _ tr Htr. constructor; [exact He | exact Htr].
Qed.

Lemma keeps_ret {R A} (a : A) : keeps_state (E := E) (R := R) (ret a).
Proof. intros r clk. apply always_ret. intros a' r' [= _ <-]. reflexivity. Qed.

Lemma keeps_panic {R A} msg : keeps_state (E := E) (R := R) (A := A) (panic msg).
Proof. intros r clk. apply always_panic. intros a' r'; discriminate. Qed.

Lemma keeps_get {R} : keeps_state (E := E) (R := R) get.
Proof. intros r clk. apply always_ret. intros a' r' [= _ <-]. reflexivity. Qed.

Lemma keeps_call {R X} (e : E X) : keeps_state (R := R) (call e).
Proof.
  intros r clk. apply always_vis; [intros a' r'; discriminate|].
  intros x. apply always_ret. intros a' r' [= _ <-]. reflexivity.
Qed.

Lemma keeps_now {R} : keeps_state (E := E) (R := R) now.
Proof.
  intros r clk. apply always_now. intros d.
  apply always_ret. intros a' r' [= _ <-]. reflexivity.
Qed.

Lemma keeps_bind {R A B} (m : M E R A) (f : A -> M E R B) :
  keeps_state m -> (forall a, keeps_state (f a)) -> keeps_state (bind m f).
Proof.
  intros Hm Hf r clk. unfold bind. apply always_bind.
  eapply always_mono; [apply Hm|]. cbn.
  intros [[a r1]| |] c tr H; [|intros ? ?; discriminate|intros ? ?; discriminate].
  rewrite (H a r1 eq_refl). cbn.
  eapply always_mono; [apply Hf|]. cbn. intros o ? ? Ho. exact Ho.
Qed.

(** The clock never runs backwards. *)
Lemma always_clock_mono {A} clk (p : prog E A) :
  always clk p (fun _ c _ => clk <= c).
Proof.
  revert clk. induction p as [a|msg|k IH|X e k IH]; intros clk.
  - apply always_ret. lia.
  - apply always_panic. lia.
  - apply always_now. intros d. eapply always_mono; [apply IH|].
    cbn. intros _ c _ Hc. lia.
  - apply always_vis; [lia|]. intros x. apply IH.
Qed.

End ProgFacts.

(** ** Slices and [reflect.DeepEqual] *)

Lemma list_eqb_eq {A} (eqb : A -> A -> bool) (l1 l2 : list A) :
  (forall x y, eqb x y = true <-> x = y) ->
  list_eqb eqb l1 l2 = true <-> l1 = l2.
Proof.
  intros Heq. revert l2. induction l1 as [|x l1 IH]; intros [|y l2]; cbn; try easy.
  rewrite andb_true_iff, Heq, IH. split; [intros [-> ->]; reflexivity | intros [= -> ->]; auto].
Qed.

Lemma DeepEqual_eq {A} (eqb : A -> A -> bool) (s t : slice A) :
  (forall x y, eqb x y = true <-> x = y) ->
  DeepEqual eqb s t = true <-> s = t.
Proof.
  intros Heq. destruct s as [|l1], t as [|l2]; cbn; try easy.
  rewrite (list_eqb_eq _ _ _ Heq). split; [intros ->; reflexivity | intros [= ->]; reflexivity].
Qed.

(** ** HAProxy: [GetRemovals] *)

Section HAProxyFacts.
Import HAProxy.

Lemma match_loop_elem_of (i : string) (v6addrs : list string) :
  match_loop i v6addrs = true <-> i ∈ v6addrs.
Proof.
  induction v6addrs as [|j rest IH]; cbn.
  - split; [discriminate | intros H; inversion H].
  - destruct (String.eqb_spec i j) as [->|Hne].
    + split; [intros _; left | reflexivity].
    + rewrite IH. split; [intros H; right; exact H | intros H].
      inversion H; subst; [contradiction | assumption].
Qed.

Lemma removals_loop_elems (configured v6addrs : list string) (removals : slice string) :
  elems (removals_loop configured v6addrs removals) =
  elems removals ++ List.filter (fun i => negb (match_loop i v6addrs)) configured.
Proof.
  revert removals. induction configured as [|i rest IH]; intros removals; cbn.
  - rewrite app_nil_r. reflexivity.
  - destruct (match_loop i v6addrs); cbn; rewrite IH; [reflexivity|].
    cbn. rewrite <- app_assoc. reflexivity.
Qed.

Lemma fold_left_append_elems {A} (l : list A) (s : slice A) :
  fold_left append l s = match l with [] => s | _ => Slice (elems s ++ l) end.
Proof.
  revert s. induction l as [|x l IH]; intros s; cbn; [reflexivity|].
  rewrite IH. destruct l; cbn; [reflexivity|]. rewrite <- app_assoc. reflexivity.
Qed.

Lemma configured_elems (m : gmap string HAProxyManager) :
  elems (fold_left append (map fst (map_to_list m)) (Slice [])) = map fst (map_to_list m).
Proof. rewrite fold_left_append_elems. destruct (map fst (map_to_list m)); reflexivity. Qed.

(** C8. [GetRemovals(desired)] returns, without touching the set manager
    and without calling out, exactly the configured addresses that are not
    in [desired]: each one once, and an address is in the result iff it is
    a key of [sources] and not an element of [desired]. *)
Theorem GetRemovals_is_set_difference (h : HAProxySetManager) (desired : slice string) :
  exists removals : slice string,
    GetRemovals desired h = Ret (removals, h) /\
    NoDup (elems removals) /\
    forall addr : string,
      addr ∈ elems removals <-> (is_Some (sources h !! addr) /\ addr ∉ elems desired).
Proof.
  unfold GetRemovals, bind, get, ret. cbn [pbind fst snd].
  eexists. split; [reflexivity|].
  rewrite removals_loop_elems, configured_elems. cbn [elems app].
  split.
  - apply NoDup_ListNoDup, List.NoDup_filter, NoDup_ListNoDup, NoDup_fst_map_to_list.
  - intros addr. rewrite list_elem_of_In, List.filter_In, <- list_elem_of_In.
    rewrite negb_true_iff, <- not_true_iff_false, match_loop_elem_of.
    assert (Hk : addr ∈ map fst (map_to_list (sources h)) <-> is_Some (sources h !! addr)).
    { change (map fst (map_to_list (sources h))) with ((map_to_list (sources h)).*1).
      rewrite list_elem_of_fmap. split.
      - intros [[k v] [-> Hin]]. apply elem_of_map_to_list in Hin. cbn. eauto.
      - intros [v Hv]. exists (addr, v). split; [reflexivity|].
        apply elem_of_map_to_list. exact Hv. }
    rewrite Hk. reflexivity.
Qed.

End HAProxyFacts.

(** ** HAProxy: [render] *)

Section RenderFacts.
Import HAProxy.

Lemma render_loop_beyond (rest : list uint16) i all d (h : HAProxyManager) clk :
  len (serviceAddrs h) < i -> rest <> [] ->
  always clk (render_loop i rest all d h)
    (fun o _ _ => o = Panicked "runtime error: index out of range").
Proof.
  intros Hi Hrest. destruct rest as [|port rest']; [congruence|].
  cbn. unfold bind, get. cbn.
  destruct (Nat.eqb_spec i (len (serviceAddrs h))) as [->|_]; [lia|].
  rewrite (proj2 (lookup_ge_None (elems (serviceAddrs h)) i)) by (unfold len in Hi; lia).
  apply always_panic. reflexivity.
Qed.

Lemma render_loop_excess (rest : list uint16) i all d (h : HAProxyManager) clk :
  i <= len (serviceAddrs h) -> len (serviceAddrs h) + 2 <= i + length rest ->
  always clk (render_loop i rest all d h) (fun o _ _ => forall a, o <> Returned a).
Proof.
  revert i d. induction rest as [|port rest' IH]; intros i d Hi Hlen; cbn in Hlen; [lia|].
  cbn. unfold bind, get. cbn.
  destruct (Nat.eqb_spec i (len (serviceAddrs h))) as [->|Hne].
  - unfold call. cbn. apply always_vis; [intros a; discriminate|]. intros [].
    eapply always_mono.
    + apply render_loop_beyond with (i := S (len (serviceAddrs h))); [lia|].
      destruct rest'; cbn in Hlen; [lia | discriminate].
    + cbn. intros o ? ? -> a. discriminate.
  - destruct (lookup_lt_is_Some_2 (elems (serviceAddrs h)) i) as [dest Hd];
      [unfold len in *; lia|].
    rewrite Hd. apply IH; lia.
Qed.

(** With two or more ports beyond the service addresses, [render] never
    returns: after the warning for index [len(h.serviceAddrs)] the next
    index is read out of range. *)
Lemma render_excess_never_returns (h : HAProxyManager) (ports' : slice uint16) clk :
  len (serviceAddrs h) + 2 <= len ports' ->
  always clk (render ports' h) (fun o _ _ => forall a, o <> Returned a).
Proof.
  intros Hlen. unfold render, bind. apply always_bind.
  eapply always_mono; [apply render_loop_excess; unfold len in *; lia|].
  cbn. intros [a| |] c tr H; [destruct (H a); reflexivity | discriminate | discriminate].
Qed.

(** When no port lies beyond the service addresses, the loop of [render]
    neither warns nor faults. *)
Lemma render_loop_within (rest : list uint16) i all d (h : HAProxyManager) :
  i + length rest <= len (serviceAddrs h) ->
  exists d', render_loop i rest all d h = Ret (d', h) /\ length d' = length d.
Proof.
  revert i d. induction rest as [|port rest' IH]; intros i d Hlen; cbn in *.
  - exists d. split; reflexivity.
  - unfold bind, get. cbn.
    destruct (Nat.eqb_spec i (len (serviceAddrs h))) as [->|Hne]; [lia|].
    destruct (lookup_lt_is_Some_2 (elems (serviceAddrs h)) i) as [dest Hd];
      [unfold len in *; lia|].
    rewrite Hd. destruct (IH (S i) (<[i:={| Port := port; Source := listenAddr h; Dest := dest |}]> d))
      as (d' & Hd' & Hl); [lia|].
    exists d'. split; [exact Hd'|]. rewrite Hl. apply length_insert.
Qed.

(** C2. The instance for fd00::1 has one service address; rendering three
    ports warns about index 1 and then faults at index 2 with an index out
    of range: [render] does not return. *)
Theorem render_two_excess_ports_panics :
  let f := run (render (Slice [80; 443; 8080]%Z) Examples.example_manager)
               os_handler (Examples.example_os []) 0 in
  out f = Panicked "runtime error: index out of range" /\
  trace f = [Entry (Warnf 1 1 (Slice [80; 443; 8080]%Z) (Slice ["10.96.0.10:80"])) (Some tt)].
Proof. split; reflexivity. Qed.

End RenderFacts.

(** ** HAProxy: [sendError] and the error channel *)

Section SendErrorFacts.
Import HAProxy.

Lemma NewHAProxySet_errChan (w : os) (c : ctx) (binary configDir : string) clk :
  let f := run (NewHAProxySet c binary configDir) os_handler w clk in
  exists s, out f = Returned s /\
    chans (world f) !! set_errChan s = Some {| capacity := 100; buffer := [] |}.
Proof.
  cbn. eexists. split; [reflexivity|]. cbn. apply lookup_insert_eq.
Qed.

(** The plain send statement, in contrast, blocks on a full buffer. *)
Lemma Send_blocks_when_full (w : os) (c : chan) (msg : HAProxyError) clk :
  has_room w c = false ->
  out (run (Vis (Send c msg) Ret) os_handler w clk) = Blocked.
Proof. intros H. cbn. rewrite H. reflexivity. Qed.

(** C9. The supervisor's error channel is made with capacity 100, and on
    such a channel [sendError] never blocks: with room in the buffer the
    message is queued and [sendError] returns; with a full buffer it
    panics with the error it was given and queues nothing. *)
Theorem sendError_nonblocking :
  (forall (w : os) (c : ctx) (binary configDir : string) clk,
     let f := run (NewHAProxySet c binary configDir) os_handler w clk in
     exists s, out f = Returned s /\
       chans (world f) !! set_errChan s = Some {| capacity := 100; buffer := [] |}) /\
  (forall (w : os) (h : HAProxyManager) (err : error) (st : chan_state) clk,
     chans w !! errChan h = Some st -> capacity st = 100 ->
     let f := run (sendError err h) os_handler w clk in
     out f <> Blocked /\
     (length (buffer st) < 100 ->
        out f = Returned (tt, h) /\
        exists msg, err_Source msg = listenAddr h /\ err_Ports msg = ports h /\
          chans (world f) !! errChan h =
            Some {| capacity := 100; buffer := buffer st ++ [msg] |}) /\
     (100 <= length (buffer st) -> out f = Panicked err /\ world f = w)).
Proof.
  split; [apply NewHAProxySet_errChan|].
  intros w h err st clk Hst Hcap. unfold sendError, bind, get, call, ret, panic. cbn.
  unfold has_room, enqueue. rewrite Hst, Hcap.
  destruct (Nat.ltb_spec (length (buffer st)) 100) as [Hlt|Hge]; cbn.
  - split; [discriminate|]. split; [|lia]. intros _. split; [reflexivity|].
    eexists. split; [|split]; [| |apply lookup_insert_eq]; reflexivity.
  - split; [discriminate|]. split; [lia|]. intros _. split; reflexivity.
Qed.

Lemma sendError_nonblocking_witness :
  out (run (sendError "disk full" Examples.example_manager) os_handler
         (set_chan 0 {| capacity := 100; buffer := [] |} (Examples.example_os [])) 0)
  = Returned (tt, Examples.example_manager).
Proof.
  refine (proj1 (proj1 (proj2 (proj2 sendError_nonblocking
            (set_chan 0 {| capacity := 100; buffer := [] |} (Examples.example_os []))
            Examples.example_manager "disk full"
            {| capacity := 100; buffer := [] |} 0 eq_refl eq_refl)) _)).
  cbn. lia.
Defined.

End SendErrorFacts.

(** ** HAProxy: [Reload], [unroll], [NewHAProxy] *)

Section ReloadFacts.
Import HAProxy.

Lemma render_loop_keeps (rest : list uint16) i all d (h : HAProxyManager) clk :
  always clk (render_loop i rest all d h) (fun o _ _ => keeps h o).
Proof.
  revert i d. induction rest as [|port rest' IH]; intros i d; cbn.
  - apply always_ret. intros a h' [= _ <-]. reflexivity.
  - unfold bind, get, call, panic. cbn.
    destruct (Nat.eqb i (len (serviceAddrs h))).
    + apply always_vis; [intros a h'; discriminate|]. intros []. cbn. apply IH.
    + destruct (elems (serviceAddrs h) !! i); [apply IH|].
      apply always_panic. intros a h'; discriminate.
Qed.

Lemma render_keeps (p : slice uint16) (h : HAProxyManager) clk :
  always clk (render p h) (fun o _ _ => keeps h o).
Proof.
  unfold render, bind. apply always_bind.
  eapply always_mono; [apply render_loop_keeps|].
  intros [[d h']| |] c tr Hk; cbn; [|intros ? ?; discriminate|intros ? ?; discriminate].
  rewrite (Hk _ _ eq_refl). unfold call. cbn.
  apply always_vis; [intros a h''; discriminate|].
  intros [b|e]; cbn; apply always_ret; intros a h'' [= _ <-]; reflexivity.
Qed.

Lemma write_keeps (b : bytes) (h : HAProxyManager) clk :
  always clk (write b h) (fun o _ _ => keeps h o).
Proof.
  unfold write, bind, get, call, ret. cbn.
  apply always_vis; [intros a h'; discriminate|].
  intros [e|]; cbn.
  - apply always_ret. intros a h' [= _ <-]. reflexivity.
  - apply always_vis; [intros a h'; discriminate|]. intros werr. cbn.
    apply always_vis; [intros a h'; discriminate|]. intros []. cbn.
    apply always_ret. intros a h' [= _ <-]. reflexivity.
Qed.

Lemma sendError_keeps (err : error) (h : HAProxyManager) clk :
  always clk (sendError err h) (fun o _ _ => keeps h o).
Proof.
  unfold sendError, bind, get, call, ret, panic. cbn.
  apply always_vis; [intros a h'; discriminate|].
  intros [|]; cbn; [apply always_ret | apply always_panic].
  - intros a h' [= _ <-]. reflexivity.
  - intros a h'; discriminate.
Qed.

Lemma unroll_keeps (h : HAProxyManager) clk :
  always clk (unroll h) (fun o _ _ => keeps h o).
Proof.
  unfold unroll, bind, get. cbn. apply always_bind.
  eapply always_mono; [apply write_keeps|].
  intros [[werr h']| |] c tr Hk; cbn; [|intros ? ?; discriminate|intros ? ?; discriminate].
  rewrite (Hk _ _ eq_refl). destruct werr as [err|].
  - eapply always_mono; [apply sendError_keeps|]. intros o ? ? Ho. exact Ho.
  - apply always_ret. intros a h'' [= _ <-]. reflexivity.
Qed.

Lemma uint16_eqb_eq (x y : uint16) : uint16_eqb x y = true <-> x = y.
Proof. apply Z.eqb_eq. Qed.

(** What [Reload] assigns: nothing when it returns an error; on success the
    ports are the requested ones and only [ports] and [rendered] can have
    changed. *)
Lemma Reload_assigns (p : slice uint16) (h : HAProxyManager) clk :
  always clk (Reload p h) (fun o _ _ =>
    forall e h', o = Returned (e, h') ->
      match e with
      | Some _ => h' = h
      | None => h' = set_ports p (set_rendered (rendered h') h)
      end).
Proof.
  unfold Reload, bind, get. cbn.
  destruct (DeepEqual uint16_eqb p (ports h)) eqn:Heq.
  - apply DeepEqual_eq in Heq; [|apply uint16_eqb_eq]. subst p.
    apply always_ret. intros e h' [= <- <-]. destruct h; reflexivity.
  - apply always_bind. eapply always_mono; [apply render_keeps|].
    intros [[r h1]| |] c tr Hk; cbn; [|intros ? ?; discriminate|intros ? ?; discriminate].
    rewrite (Hk _ _ eq_refl). clear Hk h1. destruct r as [b|err]; cbn.
    2:{ apply always_ret. intros e h' [= <- <-]. reflexivity. }
    apply always_bind. eapply always_mono; [apply write_keeps|].
    intros [[werr h1]| |] c1 tr1 Hk; cbn; [|intros ? ?; discriminate|intros ? ?; discriminate].
    rewrite (Hk _ _ eq_refl). clear Hk h1. destruct werr as [err|]; cbn.
    { apply always_ret. intros e h' [= <- <-]. reflexivity. }
    unfold reload, bind, get, call, panic. cbn.
    apply always_vis; [intros ? ?; discriminate|]. intros [|[err|]]; cbn.
    + apply always_panic. intros ? ?; discriminate.
    + apply always_bind. eapply always_mono; [apply unroll_keeps|].
      intros [[[] h1]| |] c2 tr2 Hk; cbn; [|intros ? ?; discriminate|intros ? ?; discriminate].
      rewrite (Hk _ _ eq_refl). apply always_ret. intros e h' [= <- <-]. reflexivity.
    + apply always_ret. intros e h' [= <- <-]. reflexivity.
Qed.

(** In every run the in-memory [ports] and [rendered] change only when
    [Reload] returns nil. *)
Lemma Reload_error_keeps_fields (p : slice uint16) (h : HAProxyManager) clk :
  always clk (Reload p h) (fun o _ _ =>
    forall err h', o = Returned (Some err, h') ->
      ports h' = ports h /\ rendered h' = rendered h).
Proof.
  eapply always_mono; [apply Reload_assigns|].
  intros o ? ? H err h' Ho. rewrite (H _ _ Ho). split; reflexivity.
Qed.

(** A manager fresh from [NewHAProxy] holds the ports it was given and no
    rendered bytes, although its configuration file has been written. *)
Lemma NewHAProxy_fields c bin dir addr (sa : slice string) (p : slice uint16) ch clk :
  always clk (NewHAProxy c bin dir addr sa p ch) (fun o _ _ =>
    forall h, o = Returned (Ok h) ->
      ports h = p /\ rendered h = [] /\ listenAddr h = addr /\ serviceAddrs h = sa).
Proof.
  unfold NewHAProxy. cbn.
  apply always_vis; [intros ?; discriminate|]. intros [err|]; cbn.
  { apply always_ret. intros h; discriminate. }
  apply always_bind. eapply always_mono; [apply render_keeps|].
  intros [[r h1]| |] c1 tr1 Hk; cbn; [|intros ?; discriminate|intros ?; discriminate].
  rewrite (Hk _ _ eq_refl). clear Hk h1. destruct r as [b|err]; cbn.
  2:{ apply always_ret. intros h; discriminate. }
  apply always_bind. eapply always_mono; [apply write_keeps|].
  intros [[werr h1]| |] c2 tr2 Hk; cbn; [|intros ?; discriminate|intros ?; discriminate].
  rewrite (Hk _ _ eq_refl). clear Hk h1. destruct werr as [err|]; cbn.
  { apply always_ret. intros h; discriminate. }
  apply always_vis; [intros ?; discriminate|]. intros []. cbn.
  apply always_ret. intros h [= <-]. cbn. auto.
Qed.

End ReloadFacts.

Section UnrollFacts.
Import HAProxy Examples.

(** C3. An instance is created for ports [80]: its file holds the rendered
    bytes, its [rendered] field holds none.  A reload to ports [443] whose
    SIGHUP fails returns the error and leaves [ports] and [rendered] as
    they were, but [unroll] writes the empty [rendered] field: the file
    ends up empty instead of holding the previous configuration. *)
Theorem Reload_unroll_after_NewHAProxy_empties_file :
  let created :=
    run (NewHAProxy 0 "/usr/sbin/haproxy" "/etc/ravel" "fd00::1"
           (Slice ["10.96.0.10:80"]) (Slice [80%Z]) 0)
        os_handler (example_os []) 0 in
  out created = Returned (Ok example_manager) /\
  files (world created) !! filename example_manager = Some [Byte.x50] /\
  let reloaded :=
    run (Reload (Slice [443%Z]) example_manager) os_handler
        (set_faults [None; None; None; Some "os: process already finished"]
                    (world created)) 0 in
  out reloaded =
    Returned (Some "unable to reload haproxy. os: process already finished",
              example_manager) /\
  files (world reloaded) !! filename example_manager = Some [].
Proof. vm_compute. repeat split; reflexivity. Qed.

(** Once a reload has succeeded, [rendered] holds what is on disk and a
    later failed reload does restore it. *)
Lemma Reload_unroll_after_Reload_restores_file :
  let first := run (Reload (Slice [443%Z]) example_manager) os_handler (example_os []) 0 in
  exists h1, out first = Returned (None, h1) /\
    files (world first) !! filename h1 = Some [Byte.xbb] /\
    let second :=
      run (Reload (Slice [8080%Z]) h1) os_handler
          (set_faults [None; None; None; Some "os: process already finished"]
                      (world first)) 0 in
    out second =
      Returned (Some "unable to reload haproxy. os: process already finished", h1) /\
    files (world second) !! filename h1 = Some [Byte.xbb].
Proof. vm_compute. eexists. repeat split; reflexivity. Qed.

End UnrollFacts.

(** ** HAProxy: [Reload] with unchanged ports, [Configure] twice *)

Section ConfigureFacts.
Import HAProxy Examples.

Lemma DeepEqual_ports_refl (p : slice uint16) : DeepEqual uint16_eqb p p = true.
Proof. apply DeepEqual_eq; [apply uint16_eqb_eq | reflexivity]. Qed.

Lemma Reload_same_ports (h : HAProxyManager) : Reload (ports h) h = Ret (None, h).
Proof. unfold Reload, bind, get, ret. cbn. rewrite DeepEqual_ports_refl. reflexivity. Qed.

Lemma with_maps_id (s : HAProxySetManager) : with_maps (sources s) (cancelFuncs s) s = s.
Proof. destruct s; reflexivity. Qed.

Lemma Reload_in_set_same_ports (s : HAProxySetManager) addr inst :
  sources s !! addr = Some inst ->
  Reload_in_set addr (ports inst) s = Ret (None, s).
Proof.
  intros Hl. unfold Reload_in_set. rewrite Hl, Reload_same_ports. cbn.
  rewrite insert_id by exact Hl. rewrite with_maps_id. reflexivity.
Qed.

Lemma Reload_in_set_success addr (p : slice uint16) (s : HAProxySetManager) clk :
  always clk (Reload_in_set addr p s) (fun o _ _ =>
    forall s', o = Returned (None, s') ->
      exists inst, sources s' !! addr = Some inst /\ ports inst = p).
Proof.
  unfold Reload_in_set. destruct (sources s !! addr) as [inst|].
  2:{ apply always_panic. intros s'; discriminate. }
  apply always_bind. eapply always_mono; [apply Reload_assigns|].
  intros [[e inst']| |] c tr H; cbn; [|intros ?; discriminate|intros ?; discriminate].
  apply always_ret. intros s' [= -> <-]. specialize (H _ _ eq_refl). cbn in H.
  exists inst'. split; [apply lookup_insert_eq|]. rewrite H. reflexivity.
Qed.

Lemma Configure_success (v : VIPConfig) (s : HAProxySetManager) clk :
  always clk (Configure v s) (fun o _ _ =>
    forall s', o = Returned (None, s') ->
      exists inst, sources s' !! Addr6 v = Some inst /\ ports inst = ListenPorts v).
Proof.
  unfold Configure, bind, get, call, ret, modify. cbn.
  destruct (sources s !! Addr6 v) as [inst|] eqn:Hl.
  { apply Reload_in_set_success. }
  apply always_vis; [intros ?; discriminate|]. intros c2. cbn.
  apply always_bind. apply always_bind. eapply always_mono; [apply NewHAProxy_fields|].
  intros [r| |] c tr H; cbn; [|intros ?; discriminate|intros ?; discriminate].
  apply always_ret. cbn.
  destruct r as [instance|err]; cbn.
  - eapply always_mono; [apply Reload_in_set_success|]. intros o ? ? Ho. exact Ho.
  - apply always_vis; [intros ?; discriminate|]. intros []. cbn.
    apply always_vis; [intros ?; discriminate|]. intros []. cbn.
    apply always_ret. intros s'; discriminate.
Qed.

(** C4, as amended.  [Reload] with the instance's current ports returns nil
    without any call: nothing is rendered, written or signalled.  After a
    [Configure(v)] that returned nil, a second [Configure(v)] is likewise a
    plain return that leaves the set manager as it is. *)
Theorem Reload_same_ports_is_noop :
  (forall (h : HAProxyManager) (p : slice uint16),
     p = ports h -> Reload p h = Ret (None, h)) /\
  (forall (W : Type) (hd : handler haE W) (w : W) clk
          (s s' : HAProxySetManager) (v : VIPConfig),
     out (run (Configure v s) hd w clk) = Returned (None, s') ->
     Configure v s' = Ret (None, s')).
Proof.
  split.
  - intros h p ->. apply Reload_same_ports.
  - intros W hd w clk s s' v Hrun.
    pose proof (Configure_success v s clk hd w) as H. cbn beta in H.
    destruct (H s' Hrun) as (inst & Hl & Hp).
    unfold Configure, bind, get. cbn. rewrite Hl, <- Hp.
    apply Reload_in_set_same_ports. exact Hl.
Qed.

Lemma Reload_same_ports_is_noop_witness :
  Configure (example_config [80%Z]) example_set = Ret (None, example_set).
Proof.
  apply (proj2 Reload_same_ports_is_noop os (os_handler) (example_os []) 0
           example_set example_set (example_config [80%Z])).
  vm_compute. reflexivity.
Defined.

(** C4 as stated fails when the first [Configure] fails: the instance keeps
    its old ports, and the second [Configure(v)] renders, writes and sends
    SIGHUP again. *)
Lemma Configure_again_after_failure_sends_SIGHUP :
  let first :=
    run (Configure (example_config [443%Z]) example_set) os_handler
        (example_os [None; None; None; Some "os: process already finished"]) 0 in
  out first =
    Returned (Some "unable to reload haproxy. os: process already finished",
              example_set) /\
  let second :=
    run (Configure (example_config [443%Z]) example_set) os_handler (world first) 0 in
  sends_SIGHUP (trace second) = true /\ writes_file (trace second) = true.
Proof. vm_compute. repeat split; reflexivity. Qed.

End ConfigureFacts.

(** ** The director: [configure] *)

Section ConfigureRuns.
Import types bgp.

Lemma existsb_failed_ok_calls (f : string -> dE (option error)) (l : list string) :
  (forall addr, failed (Entry (f addr) (Some None)) = false) ->
  existsb failed (ok_calls f l) = false.
Proof.
  intros Hf. induction l as [|a l IH]; cbn; [reflexivity|].
  rewrite Hf. exact IH.
Qed.

Lemma each_until_error_run (f : string -> dE (option error)) (l : list string)
    (b : bgpserver) clk :
  (forall addr r, failed (Entry (f addr) r) = true -> exists err, r = Some (Some err)) ->
  always clk (each_until_error f l b) (fun o c tr =>
    c = clk /\
    match o with
    | Returned (None, b') => b' = b /\ tr = ok_calls f l
    | Returned (Some err, b') =>
        b' = b /\ exists l1 addr l2,
          l = l1 ++ addr :: l2 /\
          tr = ok_calls f l1 ++ [Entry (f addr) (Some (Some err))]
    | _ => existsb failed tr = false
    end).
Proof.
  intros Hf.
  assert (Hok : forall addr, failed (Entry (f addr) (Some None)) = false).
  { intros addr. destruct (failed (Entry (f addr) (Some None))) eqn:E; [|reflexivity].
    destruct (Hf _ _ E) as [err [=]]. }
  assert (Hbl : forall addr, failed (Entry (f addr) None) = false).
  { intros addr. destruct (failed (Entry (f addr) None)) eqn:E; [|reflexivity].
    destruct (Hf _ _ E) as [err [=]]. }
  induction l as [|a l IH]; cbn.
  - apply always_ret. auto.
  - unfold bind, call. cbn. apply always_vis.
    + split; [reflexivity|]. cbn. rewrite Hbl. reflexivity.
    + intros [err|]; cbn.
      * apply always_ret. split; [reflexivity|]. split; [reflexivity|].
        exists [], a, l. split; reflexivity.
      * eapply always_mono; [apply IH|]. cbn.
        intros [[[err|] b']| |] c tr [-> H]; (split; [reflexivity|]); cbn.
        -- destruct H as [-> (l1 & addr & l2 & -> & ->)]. split; [reflexivity|].
           exists (a :: l1), addr, l2. split; reflexivity.
        -- destruct H as [-> ->]. split; reflexivity.
        -- rewrite Hok. exact H.
        -- rewrite Hok. exact H.
Qed.

Lemma failed_LoDel addr r : failed (Entry (LoDel addr) r) = true -> exists err, r = Some (Some err).
Proof. destruct r as [[err|]|]; cbn; [eauto|discriminate|discriminate]. Qed.

Lemma failed_LoAdd addr r : failed (Entry (LoAdd addr) r) = true -> exists err, r = Some (Some err).
Proof. destruct r as [[err|]|]; cbn; [eauto|discriminate|discriminate]. Qed.

Lemma existsb_failed_addresses_set c configured removals additions :
  existsb failed (addresses_set c configured removals additions) = false.
Proof.
  unfold addresses_set. cbn. rewrite existsb_app.
  rewrite !existsb_failed_ok_calls; reflexivity.
Qed.

Lemma setAddresses_runs (b : bgpserver) clk :
  always clk (setAddresses b) (fun o c tr => c = clk /\ setAddresses_run b o tr).
Proof.
  unfold setAddresses, bind, call, get. cbn.
  apply always_vis.
  { split; [reflexivity|]. apply sa_stopped; [discriminate|reflexivity]. }
  intros [configured|err]; cbn.
  2:{ apply always_ret. split; [reflexivity|]. apply sa_get_failed. }
  destruct (config b) as [c|] eqn:Hc.
  2:{ apply always_panic. split; [reflexivity|]. apply sa_stopped; [discriminate|reflexivity]. }
  cbn. apply always_vis.
  { split; [reflexivity|]. apply sa_stopped; [discriminate|reflexivity]. }
  intros [removals additions]. cbn.
  apply always_bind. eapply always_mono; [apply each_until_error_run, failed_LoDel|].
  cbn. intros [[[err|] b']| |] c1 tr1 [-> H].
  - destruct H as [-> (l1 & addr & l2 & -> & ->)]. cbn. apply always_ret.
    split; [reflexivity|]. rewrite app_nil_r. apply sa_del_failed. exact Hc.
  - destruct H as [-> ->]. cbn.
    eapply always_mono; [apply each_until_error_run, failed_LoAdd|].
    cbn. intros [[[err|] b']| |] c2 tr2 [-> H]; (split; [reflexivity|]).
    + destruct H as [-> (l1 & addr & l2 & -> & ->)].
      apply sa_add_failed. exact Hc.
    + destruct H as [-> ->]. apply sa_done. exact Hc.
    + apply sa_stopped; [discriminate|]. cbn. rewrite existsb_app.
      rewrite existsb_failed_ok_calls by reflexivity. exact H.
    + apply sa_stopped; [discriminate|]. cbn. rewrite existsb_app.
      rewrite existsb_failed_ok_calls by reflexivity. exact H.
  - split; [reflexivity|]. apply sa_stopped; [discriminate|]. cbn. exact H.
  - split; [reflexivity|]. apply sa_stopped; [discriminate|]. cbn. exact H.
Qed.

Lemma configure_runs (b : bgpserver) clk :
  always clk (configure b) (configure_run b clk).
Proof.
  unfold configure, bind. apply always_bind.
  eapply always_mono; [apply setAddresses_runs|].
  cbn. intros o c tr [-> H].
  inversion H as [err|c0 configured l1 addr l2 additions err Hc|
                  c0 configured removals l1 addr l2 err Hc|
                  c0 configured removals additions Hc|o' tr' Ho Htr]; subst; cbn.
  - apply always_ret. apply cf_addresses_failed. exact H.
  - apply always_ret. rewrite app_nil_r. apply cf_addresses_failed. exact H.
  - apply always_ret. rewrite app_nil_r. apply cf_addresses_failed. exact H.
  - unfold get, call, now, modify, ret. cbn. rewrite Hc. cbn.
    apply always_vis.
    { apply cf_stopped; [discriminate|].
      change (existsb failed (addresses_set c0 configured removals additions ++
                [Entry (BgpSet (vips c0)) None]) = false).
      rewrite existsb_app, existsb_failed_addresses_set. reflexivity. }
    intros [err|]; cbn.
    { apply always_ret.
      exact (cf_bgp_failed b clk configured removals additions err Hc). }
    apply always_vis.
    { apply cf_stopped; [discriminate|].
      change (existsb failed (addresses_set c0 configured removals additions ++
                [Entry (BgpSet (vips c0)) (Some None);
                 Entry (SetIPVS (nodes b) (Some c0)) None]) = false).
      rewrite existsb_app, existsb_failed_addresses_set. reflexivity. }
    intros [err|]; cbn.
    { apply always_ret.
      exact (cf_ipvs_failed b clk configured removals additions err Hc). }
    apply always_now. intros d. apply always_ret.
    exact (cf_done b clk configured removals additions d Hc).
  - destruct o as [x| |]; [destruct (Ho x); reflexivity| |];
      apply cf_stopped; try discriminate; exact Htr.
Qed.

Lemma existsb_bgp_failed_ok_calls (f : string -> dE (option error)) (l : list string) :
  (forall addr, bgp_failed (Entry (f addr) (Some None)) = false) ->
  existsb bgp_failed (ok_calls f l) = false.
Proof.
  intros Hf. induction l as [|a l IH]; cbn; [reflexivity|].
  rewrite Hf. exact IH.
Qed.

Lemma existsb_bgp_failed_addresses_set c configured removals additions :
  existsb bgp_failed (addresses_set c configured removals additions) = false.
Proof.
  unfold addresses_set. cbn. rewrite existsb_app.
  rewrite !existsb_bgp_failed_ok_calls; reflexivity.
Qed.

Lemma bgp_failed_failed (tr : list (entry dE)) :
  existsb failed tr = false -> existsb bgp_failed tr = false.
Proof.
  induction tr as [|[X e r] tr IH]; cbn; [reflexivity|].
  intros H. apply orb_false_iff in H as [H1 H2]. rewrite (IH H2), orb_false_r.
  destruct e; try reflexivity. exact H1.
Qed.

Lemma setAddresses_run_error (b : bgpserver) err b' tr :
  setAddresses_run b (Returned (Some err, b')) tr ->
  failed_last tr /\ existsb bgp_failed tr = false.
Proof.
  intros H. inversion H as [err0|c0 configured l1 addr l2 additions err0 Hc|
                            c0 configured removals l1 addr l2 err0 Hc| |o' tr' Ho Htr]; subst.
  - split; [exists [], (Entry LoGet (Some (Err err))); repeat split |]; reflexivity.
  - split.
    + eexists (_ :: _ :: ok_calls LoDel l1), _. split; [reflexivity|]. split; [reflexivity|].
      cbn. apply existsb_failed_ok_calls. reflexivity.
    + cbn. rewrite existsb_app, existsb_bgp_failed_ok_calls; reflexivity.
  - split.
    + eexists (_ :: _ :: ok_calls LoDel removals ++ ok_calls LoAdd l1), _.
      split; [cbn; rewrite <- app_assoc; reflexivity|]. split; [reflexivity|].
      cbn. rewrite existsb_app, !existsb_failed_ok_calls; reflexivity.
    + cbn. rewrite !existsb_app, !existsb_bgp_failed_ok_calls; reflexivity.
  - destruct (Ho (Some err, b')). reflexivity.
Qed.

(** C7. In the director's [configure]:
    - a return with an error leaves the worker as it was, so
      [lastReconfigure] is not advanced (and a nil return does set it, to
      the time read at the end);
    - a call answered with an error ([ipLoopback.Get], [Del], [Add],
      [bgp.Set], [ipvs.SetIPVS]) is the last call made, and [configure]
      returns an error;
    - when it is [bgp.Set] that failed, the calls before it are the read of
      the loopback addresses, the comparison, and every deletion and every
      addition, each answered nil: the additions are applied, and nothing
      is called after the failure to take them back. *)
Theorem configure_error_aborts (b : bgpserver) clk :
  always clk (configure b) (fun o c tr =>
    (forall err b', o = Returned (Some err, b') ->
       b' = b /\ lastReconfigure b' = lastReconfigure b /\ failed_last tr) /\
    (forall b', o = Returned (None, b') ->
       b' = set_lastReconfigure c b /\ clk <= c /\ existsb failed tr = false) /\
    (existsb failed tr = true ->
       failed_last tr /\ exists err, o = Returned (Some err, b)) /\
    (existsb bgp_failed tr = true ->
       exists cfg configured removals additions err,
         config b = Some cfg /\
         o = Returned (Some err, b) /\
         tr = addresses_set cfg configured removals additions ++
              [Entry (BgpSet (vips cfg)) (Some (Some err))])).
Proof.
  eapply always_mono; [apply configure_runs|].
  intros o c tr H.
  inversion H as [err tr0 Hsa|c0 configured removals additions err Hc|
                  c0 configured removals additions err Hc|
                  c0 configured removals additions d Hc|o' tr' Ho Htr]; subst.
  - destruct (setAddresses_run_error Hsa) as [Hlast Hbgp].
    assert (Hf : existsb failed tr = true).
    { destruct Hlast as (tr0 & en & -> & Hen & _). rewrite existsb_app. cbn.
      rewrite Hen. rewrite orb_true_r. reflexivity. }
    refine (conj _ (conj _ (conj _ _))).
    + intros err' b' [= <- <-]. auto.
    + intros b'; discriminate.
    + intros _. split; [exact Hlast | eauto].
    + rewrite Hbgp. discriminate.
  - assert (Hlast : failed_last (addresses_set c0 configured removals additions ++
                                 [Entry (BgpSet (vips c0)) (Some (Some err))])).
    { eexists _, _. split; [reflexivity|]. split; [reflexivity|].
      apply existsb_failed_addresses_set. }
    refine (conj _ (conj _ (conj _ _))).
    + intros err' b' [= <- <-]. auto.
    + intros b'; discriminate.
    + intros _. split; [exact Hlast | eauto].
    + intros _. exists c0, configured, removals, additions, err. auto.
  - assert (Hlast : failed_last (addresses_set c0 configured removals additions ++
                                 [Entry (BgpSet (vips c0)) (Some None);
                                  Entry (SetIPVS (nodes b) (Some c0)) (Some (Some err))])).
    { eexists (addresses_set c0 configured removals additions ++
               [Entry (BgpSet (vips c0)) (Some None)]), _.
      split; [rewrite <- app_assoc; reflexivity|]. split; [reflexivity|].
      rewrite existsb_app, existsb_failed_addresses_set. reflexivity. }
    refine (conj _ (conj _ (conj _ _))).
    + intros err' b' [= <- <-]. auto.
    + intros b'; discriminate.
    + intros _. split; [exact Hlast | eauto].
    + rewrite existsb_app, existsb_bgp_failed_addresses_set. cbn. discriminate.
  - assert (Hclean : existsb failed (addresses_set c0 configured removals additions ++
                                     [Entry (BgpSet (vips c0)) (Some None);
                                      Entry (SetIPVS (nodes b) (Some c0)) (Some None)]) = false).
    { rewrite existsb_app, existsb_failed_addresses_set. reflexivity. }
    refine (conj _ (conj _ (conj _ _))).
    + intros err' b'; discriminate.
    + intros b' [= <-]. split; [reflexivity|]. split; [lia | exact Hclean].
    + rewrite Hclean. discriminate.
    + rewrite (bgp_failed_failed _ Hclean). discriminate.
  - refine (conj _ (conj _ (conj _ _))).
    + intros err b' ->. destruct (Ho (Some err, b')). reflexivity.
    + intros b' ->. destruct (Ho (None, b')). reflexivity.
    + rewrite Htr. discriminate.
    + rewrite (bgp_failed_failed _ Htr). discriminate.
Qed.

(** An instance: the loopback device is empty, the configuration asks for
    one VIP, and [bgp.Set] fails.  [configure] returns the error,
    [lastReconfigure] keeps its value, and the VIP that was added stays on
    the loopback device. *)
Lemma configure_bgp_failure_example :
  let b := {| nodes := Examples.example_nodes; config := Some Examples.example_cluster;
              newConfig := true; lastInboundUpdate := 7; lastReconfigure := 3 |} in
  let f := run (configure b) kernel_handler
               (Examples.example_kernel [None; None; Some "bgp: session down"]) 9 in
  out f = Returned (Some "bgp: session down", b) /\
  lo (world f) = ["10.10.0.1"] /\
  existsb bgp_failed (trace f) = true /\
  length (trace f) = 4.
Proof. vm_compute. repeat split; reflexivity. Qed.

End ConfigureRuns.

(** ** The director: effects of the steps *)

Section DirectorSteps.
Import types bgp.

Lemma parity_flags_app (tr1 tr2 : list (entry dE)) :
  parity_flags (tr1 ++ tr2) = parity_flags tr1 ++ parity_flags tr2.
Proof. unfold parity_flags. apply omap_app. Qed.

Lemma parity_flags_nil (tr : list (entry dE)) :
  Forall (fun en => not_parity (ecall en)) tr -> parity_flags tr = [].
Proof.
  induction 1 as [|[X e r] tr He _ IH]; [reflexivity|].
  cbn in *. destruct e; cbn in *; try exact IH. destruct He.
Qed.

Lemma each_until_error_calls (f : string -> dE (option error)) l (b : bgpserver) :
  (forall addr, not_parity (f addr)) -> only_calls not_parity (each_until_error f l b).
Proof.
  intros Hf. induction l as [|a l IH]; cbn; [exact I|].
  split; [apply Hf|]. intros [err|]; cbn; [exact I | exact IH].
Qed.

Lemma setAddresses_calls (b : bgpserver) : only_calls not_parity (setAddresses b).
Proof.
  unfold setAddresses, bind, call, get. cbn. split; [exact I|].
  intros [configured|err]; cbn; [|exact I].
  destruct (config b); cbn; [|exact I]. split; [exact I|]. intros [removals additions]. cbn.
  apply only_calls_pbind; [apply each_until_error_calls; intros; exact I|].
  intros [[err|] b']; cbn; [exact I|]. apply each_until_error_calls. intros; exact I.
Qed.

Lemma configure_calls (b : bgpserver) : only_calls not_parity (configure b).
Proof.
  unfold configure, bind. apply only_calls_pbind; [apply setAddresses_calls|].
  intros [[err|] b']; cbn; [exact I|]. unfold get. cbn.
  destruct (config b'); cbn; [|exact I]. split; [exact I|].
  intros [err|]; cbn; [exact I|]. split; [exact I|].
  intros [err|]; cbn; [exact I|]. intros t. exact I.
Qed.

(** What [configure] does to the worker: nothing, or it sets
    [lastReconfigure] to the time at which it returns. *)
Lemma configure_effect (b : bgpserver) clk :
  always clk (configure b) (fun o c tr =>
    clk <= c /\ parity_flags tr = [] /\
    forall e b', o = Returned (e, b') -> b' = b \/ b' = set_lastReconfigure c b).
Proof.
  eapply always_mono.
  - apply always_and; [apply always_clock_mono|].
    apply always_and; [apply (only_calls_trace not_parity), configure_calls|].
    apply configure_runs.
  - cbn. intros o c tr (Hc & Hcalls & Hrun).
    split; [exact Hc|]. split; [apply parity_flags_nil, Hcalls|].
    intros e b' ->. inversion Hrun; subst; auto.
    exfalso. eapply H; reflexivity.
Qed.

Lemma configReady_eq (b : bgpserver) :
  configReady b = Ret (newConfig b, set_newConfig false b).
Proof.
  unfold configReady, bind, get, modify, ret. cbn.
  destruct b as [ns c [|] t1 t2]; reflexivity.
Qed.

Lemma performReconfigure_effect (b : bgpserver) clk :
  always clk (performReconfigure b) (fun o c tr =>
    clk <= c /\
    (parity_flags tr = [] \/ parity_flags tr = [newConfig b]) /\
    forall b', o = Returned (tt, b') ->
      same_inputs b b' /\ reconfigure_stamp clk c b b' /\
      newConfig b' = match parity_flags tr with [] => newConfig b | _ => false end).
Proof.
  unfold performReconfigure, bind, get, ret, now, call. cbn.
  destruct (noUpdatesReady b).
  { apply always_ret. split; [lia|]. split; [left; reflexivity|].
    intros b' [= <-]. unfold same_inputs, reconfigure_stamp. auto. }
  apply always_now. intros d0. cbn. apply always_vis.
  { split; [lia|]. split; [left; reflexivity|]. intros b'; discriminate. }
  intros [addresses|err]; cbn.
  { rewrite configReady_eq. cbn. apply always_vis.
    { split; [lia|]. split; [right; reflexivity|]. intros b'; discriminate. }
    intros [[|]|err]; cbn.
    - apply always_now. intros d1. cbn. apply always_vis.
      { split; [lia|]. split; [right; reflexivity|]. intros b'; discriminate. }
      intros []. cbn. apply always_ret. split; [lia|]. split; [right; reflexivity|].
      intros b' [= <-]. unfold same_inputs, reconfigure_stamp. cbn. auto.
    - apply always_bind. eapply always_mono; [apply configure_effect|]. cbn.
      intros [[e b1]| |] c1 tr1 (Hc1 & Hfl & Hb1); unfold parity_flags in Hfl; cbn.
      + assert (Hstamp : same_inputs b b1 /\ reconfigure_stamp clk c1 b b1 /\ newConfig b1 = false).
        { destruct (Hb1 _ _ eq_refl) as [-> | ->];
            unfold same_inputs, reconfigure_stamp; cbn; repeat split; auto.
          right. lia. }
        destruct Hstamp as (Hin & Hst & Hnc).
        assert (Hfinal : forall c2, c1 <= c2 ->
                  same_inputs b b1 /\ reconfigure_stamp clk c2 b b1 /\ newConfig b1 = false).
        { intros c2 Hc2. split; [exact Hin|]. split; [|exact Hnc].
          destruct Hst as [Hst|Hst]; [left; exact Hst | right; lia]. }
        destruct e as [err|]; cbn.
        * apply always_now. intros d1. cbn. apply always_vis.
          { split; [lia|]. split; [right; rewrite omap_app, Hfl; reflexivity|].
            intros b'; discriminate. }
          intros []. cbn. apply always_ret. split; [lia|].
          split; [right; rewrite omap_app, Hfl; reflexivity|].
          intros b' [= <-]. apply Hfinal. lia.
        * apply always_now. intros d1. cbn. apply always_vis.
          { split; [lia|]. split; [right; rewrite omap_app, Hfl; reflexivity|].
            intros b'; discriminate. }
          intros []. cbn. apply always_ret. split; [lia|].
          split; [right; rewrite omap_app, Hfl; reflexivity|].
          intros b' [= <-]. apply Hfinal. lia.
      + split; [lia|]. split; [right; rewrite Hfl; reflexivity|]. intros b'; discriminate.
      + split; [lia|]. split; [right; rewrite Hfl; reflexivity|]. intros b'; discriminate.
    - apply always_now. intros d1. cbn. apply always_vis.
      { split; [lia|]. split; [right; reflexivity|]. intros b'; discriminate. }
      intros []. cbn. apply always_ret. split; [lia|]. split; [right; reflexivity|].
      intros b' [= <-]. unfold same_inputs, reconfigure_stamp. cbn. auto. }
  apply always_now. intros d1. cbn. apply always_vis.
  { split; [lia|]. split; [left; reflexivity|]. intros b'; discriminate. }
  intros []. cbn. apply always_ret. split; [lia|]. split; [left; reflexivity|].
  intros b' [= <-]. unfold same_inputs, reconfigure_stamp. auto.
Qed.

Lemma watches_config_effect cfg (b : bgpserver) clk :
  always clk (watches_config cfg b) (fun o c tr =>
    clk <= c /\ parity_flags tr = [] /\
    forall b', o = Returned (tt, b') ->
      newConfig b' = true /\ config b' = cfg /\ nodes b' = nodes b /\
      lastInboundUpdate b' = c /\ lastReconfigure b' = lastReconfigure b).
Proof.
  unfold watches_config, bind, now, modify, call. cbn.
  apply always_now. intros d. cbn. apply always_vis.
  { split; [lia|]. split; [reflexivity|]. intros b'; discriminate. }
  intros []. cbn. apply always_ret. split; [lia|]. split; [reflexivity|].
  intros b' [= <-]. cbn. auto.
Qed.

Lemma watches_nodes_effect ns (b : bgpserver) clk :
  always clk (watches_nodes ns b) (fun o c tr =>
    clk <= c /\ parity_flags tr = [] /\
    forall b', o = Returned (tt, b') ->
      newConfig b' = newConfig b /\ lastReconfigure b' = lastReconfigure b /\
      if node_update_accepted tr
      then lastInboundUpdate b' = c /\ nodes b' = ns /\ config b' = config b
      else b' = b).
Proof.
  unfold watches_nodes, bind, get, now, modify, call. cbn.
  apply always_vis.
  { split; [lia|]. split; [reflexivity|]. intros b'; discriminate. }
  intros [|]; cbn.
  - apply always_vis.
    { split; [lia|]. split; [reflexivity|]. intros b'; discriminate. }
    intros []. cbn. apply always_ret. split; [lia|]. split; [reflexivity|].
    intros b' [= <-]. cbn. auto.
  - apply always_vis.
    { split; [lia|]. split; [reflexivity|]. intros b'; discriminate. }
    intros []. cbn. apply always_now. intros d. cbn. apply always_ret.
    split; [lia|]. split; [reflexivity|]. intros b' [= <-]. cbn. auto.
Qed.

Lemma periodic_reconfigure_effect (b : bgpserver) clk :
  always clk (periodic_reconfigure b) (fun o c tr =>
    clk <= c /\ parity_flags tr = [] /\
    forall b', o = Returned (tt, b') ->
      same_inputs b b' /\ newConfig b' = newConfig b /\ reconfigure_stamp clk c b b').
Proof.
  unfold periodic_reconfigure, bind, now, call, ret. cbn.
  apply always_now. intros d0. cbn. apply always_bind.
  eapply always_mono; [apply configure_effect|]. cbn.
  intros [[e b1]| |] c1 tr1 (Hc1 & Hfl & Hb1); unfold parity_flags in Hfl; cbn.
  - assert (Hfinal : forall c2, c1 <= c2 ->
              same_inputs b b1 /\ newConfig b1 = newConfig b /\ reconfigure_stamp clk c2 b b1).
    { intros c2 Hc2. destruct (Hb1 _ _ eq_refl) as [-> | ->];
        unfold same_inputs, reconfigure_stamp; cbn; repeat split; auto.
      right. lia. }
    destruct e as [err|]; cbn.
    + apply always_now. intros d1. cbn. apply always_vis.
      { split; [lia|]. split; [unfold parity_flags; rewrite omap_app, Hfl; reflexivity|]. intros b'; discriminate. }
      intros []. cbn. apply always_ret. split; [lia|].
      split; [unfold parity_flags; rewrite omap_app, Hfl; reflexivity|].
      intros b' [= <-]. apply Hfinal. lia.
    + apply always_ret. split; [lia|]. split; [unfold parity_flags; rewrite omap_app, Hfl; reflexivity|].
      intros b' [= <-]. apply Hfinal. lia.
  - split; [lia|]. split; [exact Hfl|]. intros b'; discriminate.
  - split; [lia|]. split; [exact Hfl|]. intros b'; discriminate.
Qed.

Lemma step_stamps ev (b : bgpserver) clk :
  stamps_in_past clk b ->
  always clk (step ev b) (fun o c _ =>
    forall b', o = Returned (tt, b') -> stamps_in_past c b').
Proof.
  intros [Hr Hi]. destruct ev as [ns|cfg| | |]; cbn.
  - eapply always_mono; [apply watches_nodes_effect|]. cbn.
    intros o c tr (Hc & _ & H) b' Ho. destruct (H b' Ho) as (_ & Hlr & Hacc).
    unfold stamps_in_past. rewrite Hlr.
    destruct (node_update_accepted tr); [destruct Hacc as (-> & _)|subst b']; lia.
  - eapply always_mono; [apply watches_config_effect|]. cbn.
    intros o c tr (Hc & _ & H) b' Ho. destruct (H b' Ho) as (_ & _ & _ & Hli & Hlr).
    unfold stamps_in_past. lia.
  - unfold call. apply always_vis; [intros b'; discriminate|]. intros [].
    apply always_ret. intros b' [= <-]. split; assumption.
  - eapply always_mono; [apply periodic_reconfigure_effect|]. cbn.
    intros o c tr (Hc & _ & H) b' Ho. destruct (H b' Ho) as ((_ & _ & Hli) & _ & Hst).
    unfold stamps_in_past. destruct Hst as [Hst|Hst]; lia.
  - eapply always_mono; [apply performReconfigure_effect|]. cbn.
    intros o c tr (Hc & _ & H) b' Ho. destruct (H b' Ho) as ((_ & _ & Hli) & Hst & _).
    unfold stamps_in_past. destruct Hst as [Hst|Hst]; lia.
Qed.

Lemma steps_stamps evs (b : bgpserver) clk :
  stamps_in_past clk b ->
  always clk (steps evs b) (fun o c _ =>
    forall b', o = Returned (tt, b') -> stamps_in_past c b').
Proof.
  revert b clk. induction evs as [|ev evs IH]; intros b clk Hinv; cbn.
  - apply always_ret. intros b' [= <-]. exact Hinv.
  - unfold bind. apply always_bind. eapply always_mono; [apply step_stamps, Hinv|]. cbn.
    intros [[[] b1]| |] c tr H; [|intros b'; discriminate|intros b'; discriminate].
    cbn. eapply always_mono; [apply IH, H; reflexivity|]. cbn. intros o c' _ Ho. exact Ho.
Qed.



End DirectorSteps.


(** ** The director: the [newConfig] flag *)

Section NewConfigFacts.
Import types bgp Examples.




(** X13.  Once the skip-condition holds, the tickers alone never get as far as
    the parity check: the flag waits for the next inbound update. *)
Lemma ticks_never_check evs (b : bgpserver) clk :
  noUpdatesReady b = true -> stamps_in_past clk b -> forallb is_tick evs = true ->
  always clk (steps evs b) (fun o _ tr =>
    parity_flags tr = [] /\
    forall b', o = Returned (tt, b') ->
      newConfig b' = newConfig b /\ noUpdatesReady b' = true).
Proof.
  revert b clk. induction evs as [|ev evs IH]; intros b clk Hskip Hinv Hevs; cbn.
  - apply always_ret. split; [reflexivity|]. intros b' [= <-]. auto.
  - cbn in Hevs. apply andb_true_iff in Hevs as [Hev Hevs].
    unfold bind. apply always_bind.
    assert (Hstep : always clk (step ev b) (fun o c tr =>
              parity_flags tr = [] /\
              forall b1, o = Returned (tt, b1) ->
                newConfig b1 = newConfig b /\ noUpdatesReady b1 = true /\
                stamps_in_past c b1)).
    { eapply always_mono; [apply always_and; [apply step_stamps, Hinv|]|].
      - instantiate (1 := fun o c tr =>
          parity_flags tr = [] /\
          forall b1, o = Returned (tt, b1) ->
            newConfig b1 = newConfig b /\ noUpdatesReady b1 = true).
        destruct ev as [ns|cfg| | |]; cbn in Hev; try discriminate; cbn.
        + unfold call. apply always_vis.
          { split; [reflexivity|]. intros b1; discriminate. }
          intros []. apply always_ret. split; [reflexivity|]. intros b1 [= <-]. auto.
        + eapply always_mono; [apply periodic_reconfigure_effect|]. cbn.
          intros o c tr (Hc & Hfl & H). split; [exact Hfl|].
          intros b1 Ho. destruct (H b1 Ho) as ((_ & _ & Hli) & Hnc & Hst).
          split; [exact Hnc|]. unfold noUpdatesReady in *.
          apply Nat.ltb_lt in Hskip. apply Nat.ltb_lt. destruct Hinv as [Hr _].
          destruct Hst as [Hst|Hst]; lia.
        + unfold performReconfigure, bind, get, ret. cbn. rewrite Hskip.
          apply always_ret. split; [reflexivity|]. intros b1 [= <-]. auto.
      - cbn. intros o c tr (Hst & Hfl & H). split; [exact Hfl|].
        intros b1 Ho. destruct (H b1 Ho). auto. }
    eapply always_mono; [exact Hstep|]. cbn.
    intros [[[] b1]| |] c tr [Hfl H]; [|split; [exact Hfl | intros ?; discriminate]..].
    destruct (H b1 eq_refl) as (Hnc & Hskip1 & Hinv1). cbn.
    eapply always_mono; [apply (IH b1 c Hskip1 Hinv1 Hevs)|]. cbn.
    intros o c' tr' [Hfl' H']. split; [rewrite parity_flags_app, Hfl, Hfl'; reflexivity|].
    intros b' Ho. destruct (H' b' Ho) as [H1 H2]. split; [congruence | exact H2].
Qed.

End NewConfigFacts.

(** ** The realserver: [configure] and the tickers *)

Section RealserverSteps.
Import types realserver.

Ltac keeps :=
  repeat match goal with
    | |- keeps_state (ret _) => apply keeps_ret
    | |- keeps_state (panic _) => apply keeps_panic
    | |- keeps_state get => apply keeps_get
    | |- keeps_state (call _) => apply keeps_call
    | |- keeps_state now => apply keeps_now
    | |- keeps_state (bind _ _) => apply keeps_bind; [|intros ?]
    | |- keeps_state (match ?x with _ => _ end) => destruct x
    | |- keeps_state (if ?x then _ else _) => destruct x
    end.

Lemma each_until_error_keeps (f : string -> rE (option error)) l :
  keeps_state (each_until_error f l).
Proof. induction l as [|a l IH]; cbn; keeps. exact IH. Qed.

Lemma checkConfigParity_keeps : keeps_state checkConfigParity.
Proof. unfold checkConfigParity. keeps. Qed.

Lemma setAddresses_keeps : keeps_state setAddresses.
Proof. unfold setAddresses. keeps; apply each_until_error_keeps. Qed.

Lemma configure_keeps force : keeps_state (configure force).
Proof.
  unfold configure. cbv zeta.
  keeps; first [apply setAddresses_keeps | apply checkConfigParity_keeps].
Qed.

Lemma periodic_forced_keeps : keeps_state periodic_forced.
Proof. unfold periodic_forced. keeps. apply configure_keeps. Qed.

Lemma periodic_slow_keeps : keeps_state periodic_slow.
Proof. unfold periodic_slow. keeps. apply configure_keeps. Qed.

Lemma rs_watches_config_effect cfg (r : realserver) clk :
  always clk (watches_config cfg r) (fun o c tr =>
    clk <= c /\
    forall r', o = Returned (tt, r') ->
      config r' = cfg /\ lastInboundUpdate r' = c /\
      lastReconfigure r' = lastReconfigure r).
Proof.
  unfold watches_config, bind, now, modify, call. cbn.
  apply always_now. intros d. cbn. apply always_vis.
  { split; [lia|]. intros r'; discriminate. }
  intros []. cbn. apply always_ret. split; [lia|].
  intros r' [= <-]. cbn. auto.
Qed.

Lemma rs_watches_nodes_effect ns (r : realserver) clk :
  always clk (watches_nodes ns r) (fun o c tr =>
    clk <= c /\
    forall r', o = Returned (tt, r') ->
      lastReconfigure r' = lastReconfigure r /\
      if node_update_accepted tr
      then lastInboundUpdate r' = c /\ find_node (nodeName r) ns = Some (node r')
      else r' = r).
Proof.
  unfold watches_nodes, bind, get, now, modify, call, ret. cbn.
  destruct (find_node (nodeName r) ns) as [n|]; cbn.
  2:{ apply always_ret. split; [lia|]. intros r' [= <-]. cbn. auto. }
  apply always_vis.
  { split; [lia|]. intros r'; discriminate. }
  intros [|]; cbn.
  - apply always_vis.
    { split; [lia|]. intros r'; discriminate. }
    intros []. cbn. apply always_ret. split; [lia|].
    intros r' [= <-]. cbn. auto.
  - apply always_vis.
    { split; [lia|]. intros r'; discriminate. }
    intros []. cbn. apply always_now. intros d. cbn. apply always_ret.
    split; [lia|]. intros r' [= <-]. cbn. auto.
Qed.

(** The 100 ms tick leaves the worker as it was or sets [lastReconfigure]
    to a time read during the tick. *)
Lemma periodic_check_effect (r : realserver) clk :
  always clk (periodic_check r) (fun o c tr =>
    clk <= c /\
    forall r', o = Returned (tt, r') ->
      r' = r \/ exists t, clk <= t /\ t <= c /\ r' = set_lastReconfigure t r).
Proof.
  unfold periodic_check, bind, get, now, modify, call, ret. cbn.
  apply always_now. intros d0. cbn.
  destruct (skip_condition r).
  { apply always_ret. split; [lia|]. intros r' [= <-]. auto. }
  apply always_vis.
  { split; [lia|]. intros r'; discriminate. }
  intros []. cbn.
  destruct (match config r with Some _ => false | None => true end
            || String.eqb (Name (node r)) ""); cbn.
  { apply always_now. intros d1. cbn. apply always_vis.
    { split; [lia|]. intros r'; discriminate. }
    intros []. cbn. apply always_ret. split; [lia|]. intros r' [= <-]. auto. }
  apply always_bind. eapply always_mono.
  { apply always_and; [apply always_clock_mono | apply configure_keeps]. }
  cbn. intros [[[e x] r1]| |] c1 tr1 [Hc1 Hk];
    [|split; [lia|]; intros r'; discriminate|split; [lia|]; intros r'; discriminate].
  rewrite (Hk _ _ eq_refl). cbn. destruct e as [err|]; cbn.
  - apply always_now. intros d1. cbn. apply always_vis.
    { split; [lia|]. intros r'; discriminate. }
    intros []. cbn. apply always_ret. split; [lia|]. intros r' [= <-]. auto.
  - apply always_now. intros d1. cbn. apply always_now. intros d2. cbn.
    apply always_vis.
    { split; [lia|]. intros r'; discriminate. }
    intros []. cbn. apply always_ret. split; [lia|]. intros r' [= <-].
    right. exists (clk + d0). repeat split; lia.
Qed.

Lemma keeps_state_stamps {A} (m : M rE realserver A) (r : realserver) clk :
  keeps_state m -> rs_stamps_in_past clk r ->
  always clk (m r) (fun o c _ => forall a r', o = Returned (a, r') -> rs_stamps_in_past c r').
Proof.
  intros Hm [Hr Hi]. eapply always_mono.
  { apply always_and; [apply always_clock_mono | apply Hm]. }
  cbn. intros o c tr [Hc Hk] a r' Ho. rewrite (Hk _ _ Ho). split; lia.
Qed.

Lemma rs_step_stamps ev (r : realserver) clk :
  rs_stamps_in_past clk r ->
  always clk (step ev r) (fun o c _ =>
    forall r', o = Returned (tt, r') -> rs_stamps_in_past c r').
Proof.
  intros Hinv. pose proof Hinv as [Hr Hi]. destruct ev as [ns|cfg| | |]; cbn.
  - eapply always_mono; [apply rs_watches_nodes_effect|]. cbn.
    intros o c tr (Hc & H) r' Ho. destruct (H r' Ho) as (Hlr & Hacc).
    unfold rs_stamps_in_past. rewrite Hlr.
    destruct (node_update_accepted tr); [destruct Hacc as (-> & _)|subst r']; lia.
  - eapply always_mono; [apply rs_watches_config_effect|]. cbn.
    intros o c tr (Hc & H) r' Ho. destruct (H r' Ho) as (_ & Hli & Hlr).
    unfold rs_stamps_in_past. lia.
  - eapply always_mono; [apply (keeps_state_stamps periodic_forced_keeps Hinv)|].
    cbn. intros o c tr H r' Ho. apply (H tt r' Ho).
  - eapply always_mono; [apply (keeps_state_stamps periodic_slow_keeps Hinv)|].
    cbn. intros o c tr H r' Ho. apply (H tt r' Ho).
  - eapply always_mono; [apply periodic_check_effect|]. cbn.
    intros o c tr (Hc & H) r' Ho. unfold rs_stamps_in_past.
    destruct (H r' Ho) as [->|(t & Ht1 & Ht2 & ->)]; cbn; lia.
Qed.

Lemma rs_steps_stamps evs (r : realserver) clk :
  rs_stamps_in_past clk r ->
  always clk (steps evs r) (fun o c _ =>
    forall r', o = Returned (tt, r') -> rs_stamps_in_past c r').
Proof.
  revert r clk. induction evs as [|ev evs IH]; intros r clk Hinv; cbn.
  - apply always_ret. intros r' [= <-]. exact Hinv.
  - unfold bind. apply always_bind. eapply always_mono; [apply rs_step_stamps, Hinv|]. cbn.
    intros [[[] r1]| |] c tr H; [|intros r'; discriminate|intros r'; discriminate].
    cbn. eapply always_mono; [apply IH, H; reflexivity|]. cbn. intros o c' ? Ho. exact Ho.
Qed.

End RealserverSteps.

(** ** The byte-wise order of strings and sorting *)

Lemma ascii_compare_spec (a b : ascii) :
  CompareSpec (a = b) (N_of_ascii a < N_of_ascii b)%N (N_of_ascii b < N_of_ascii a)%N
    (Ascii.compare a b).
Proof.
  unfold Ascii.compare. destruct (N.compare_spec (N_of_ascii a) (N_of_ascii b)) as [H|H|H];
    constructor; try assumption.
  rewrite <- (ascii_N_embedding a), <- (ascii_N_embedding b), H. reflexivity.
Qed.

Lemma string_compare_le_trans (s1 s2 s3 : string) :
  String.compare s1 s2 <> Gt -> String.compare s2 s3 <> Gt -> String.compare s1 s3 <> Gt.
Proof.
  revert s2 s3. induction s1 as [|a s1 IH]; intros s2 s3.
  - destruct s3; cbn; intros _ _; discriminate.
  - destruct s2 as [|b s2]; cbn; [intros H; destruct H; reflexivity|].
    destruct s3 as [|c s3]; cbn; [intros _ H; destruct H; reflexivity|].
    destruct (ascii_compare_spec a b) as [Hab|Hab|Hab];
      destruct (ascii_compare_spec b c) as [Hbc|Hbc|Hbc];
      destruct (ascii_compare_spec a c) as [Hac|Hac|Hac];
      subst; try lia; try (intros H1 H2; first [destruct H1; reflexivity
                                                | destruct H2; reflexivity
                                                | discriminate]).
    apply IH.
Qed.

Lemma string_le_compare (s t : string) : string_le s t <-> String.compare s t <> Gt.
Proof.
  unfold string_le, String.leb. destruct (String.compare s t); cbn; intuition congruence.
Qed.

#[global] Instance string_le_trans : Transitive string_le.
Proof.
  intros s1 s2 s3. rewrite !string_le_compare. apply string_compare_le_trans.
Qed.

#[global] Instance string_le_total : Total string_le.
Proof.
  intros s t. unfold string_le.
  destruct (String.leb_total s t) as [H|H]; rewrite H; [left | right]; exact I.
Qed.

#[global] Instance string_le_antisym : AntiSymm eq string_le.
Proof.
  intros s t Hst Hts. apply String.leb_antisym; apply Is_true_true; assumption.
Qed.

(** Two lists sort to the same list exactly when one is a rearrangement of
    the other. *)
Lemma merge_sort_eq_iff (l1 l2 : list string) :
  merge_sort string_le l1 = merge_sort string_le l2 <-> l1 ≡ₚ l2.
Proof.
  split.
  - intros H. rewrite <- (merge_sort_Permutation string_le l1), H.
    apply merge_sort_Permutation.
  - intros H. apply (Sorted_unique string_le).
    + apply Sorted_merge_sort, _.
    + apply Sorted_merge_sort, _.
    + rewrite !merge_sort_Permutation. exact H.
Qed.

(** A list is the sorted form of [l] exactly when it is sorted and a
    rearrangement of [l]. *)
Lemma merge_sort_is_iff (l l' : list string) :
  merge_sort string_le l = l' <-> Sorted string_le l' /\ l' ≡ₚ l.
Proof.
  split.
  - intros <-. split; [apply Sorted_merge_sort, _ | apply merge_sort_Permutation].
  - intros [Hs Hp]. apply (Sorted_unique string_le).
    + apply Sorted_merge_sort, _.
    + exact Hs.
    + rewrite merge_sort_Permutation. symmetry. exact Hp.
Qed.

(** ** The realserver: [checkConfigParity] *)

Section ParityFacts.
Import types realserver Examples.

Lemma string_eqb_eq (x y : string) : string_eqb x y = true <-> x = y.
Proof. apply String.eqb_eq. Qed.

Lemma vips_eq (c : ClusterConfig) : vips c = Slice (map fst (map_to_list (Config c))).
Proof.
  unfold vips. rewrite fold_left_append_elems.
  destruct (map fst (map_to_list (Config c))); reflexivity.
Qed.

Lemma DeepEqual_sorted_vips (c : ClusterConfig) (addresses : slice string) :
  DeepEqual string_eqb (sort_strings (vips c)) addresses = true <->
  addresses_are_sorted_vips c addresses.
Proof.
  rewrite (DeepEqual_eq _ _ _ string_eqb_eq), vips_eq. cbn.
  unfold addresses_are_sorted_vips. split.
  - intros <-. eexists. split; [reflexivity|].
    apply (merge_sort_is_iff _ _). reflexivity.
  - intros (l & -> & Hs & Hp). f_equal. apply merge_sort_is_iff. auto.
Qed.

Lemma DeepEqual_rules (existing generated : gmap string Chain) (base base' : string) :
  DeepEqual string_eqb
    match existing !! base with
    | Some k => sort_strings (Rules k)
    | None => Slice []
    end
    (sort_strings (Rules (default zero_Chain (generated !! base')))) = true <->
  rules_agree (existing_rules existing base) (generated_rules generated base').
Proof.
  rewrite (DeepEqual_eq _ _ _ string_eqb_eq).
  unfold existing_rules, generated_rules, rules_agree.
  destruct (existing !! base) as [[[|l1]]|];
    destruct (Rules (default zero_Chain (generated !! base'))) as [|l2]; cbn;
    try (split; [discriminate | contradiction]); try tauto.
  - rewrite <- merge_sort_eq_iff. split; [intros [= ->]; reflexivity | intros ->; reflexivity].
  - rewrite <- merge_sort_eq_iff. split; [intros [= <-]; reflexivity|].
    intros <-. reflexivity.
Qed.

(** What [checkConfigParity] compares.  With a nil configuration it returns
    true at once.  Otherwise it leaves the worker untouched; it returns
    false together with the error when reading the addresses, saving the
    rules or generating the rules fails; and when all three succeed it
    returns true exactly when
    - the addresses, in the order [ipLoopback.Get] returned them, are the
      sorted list of the desired VIPs, and
    - the existing and the generated rules of the base chain, both sorted,
      are equal. *)
Lemma checkConfigParity_compares (r : realserver) clk :
  always clk (checkConfigParity r) (fun o _ tr =>
    match config r with
    | None => o = Returned ((true, None), r) /\ tr = []
    | Some c =>
        forall same err r', o = Returned ((same, err), r') ->
          r' = r /\
          match err with
          | Some _ => same = false
          | None =>
              exists addresses existing base generated base',
                tr = [Entry LoGet (Some (Ok addresses));
                      Entry Save (Some (Ok existing));
                      Entry BaseChain (Some base);
                      Entry (GenerateRules (Some c)) (Some (Ok generated));
                      Entry BaseChain (Some base')] /\
                (same = true <->
                   addresses_are_sorted_vips c addresses /\
                   rules_agree (existing_rules existing base)
                               (generated_rules generated base'))
          end
    end).
Proof.
  unfold checkConfigParity, bind, get, call, ret. cbn.
  destruct (config r) as [c|] eqn:Hc; cbn.
  2:{ apply always_ret. split; reflexivity. }
  apply always_vis; [intros ? ? ?; discriminate|]. intros [addresses|e]; cbn.
  2:{ apply always_ret. intros same err r' [= <- <- <-]. split; reflexivity. }
  apply always_vis; [intros ? ? ?; discriminate|]. intros [existing|e]; cbn.
  2:{ apply always_ret. intros same err r' [= <- <- <-]. split; reflexivity. }
  apply always_vis; [intros ? ? ?; discriminate|]. intros base; cbn.
  apply always_vis; [intros ? ? ?; discriminate|]. intros [generated|e]; cbn.
  2:{ apply always_ret. intros same err r' [= <- <- <-]. split; reflexivity. }
  apply always_vis; [intros ? ? ?; discriminate|]. intros base'; cbn.
  apply always_ret. intros same err r' [= <- <- <-]. split; [reflexivity|].
  exists addresses, existing, base, generated, base'. split; [reflexivity|].
  rewrite andb_true_iff, DeepEqual_sorted_vips, DeepEqual_rules. reflexivity.
Qed.

(** C1.  [checkConfigParity] sorts [vips], [existingRules] and
    [generatedRules] before it compares them, but not [addresses]: the
    result of [ipLoopback.Get] is compared in the order it was returned.
    On a host whose loopback device reports the two desired VIPs as
    10.10.0.2, 10.10.0.1 and whose rules agree, [checkConfigParity] returns
    false, although the sorted addresses equal the sorted VIPs and the
    sorted rules are equal, which is parity as C1 defines it. *)
Theorem checkConfigParity_unsorted_addresses :
  let f := run (checkConfigParity (example_realserver (Some example_cluster2)))
               host_handler (example_host ["10.10.0.2"; "10.10.0.1"]) 0 in
  out f = Returned ((false, None), example_realserver (Some example_cluster2)) /\
  parity_as_specified ["10.10.0.2"; "10.10.0.1"] (elems (vips example_cluster2))
    (elems (existing_rules example_rules "RAVEL"))
    (elems (generated_rules example_rules "RAVEL")) = true.
Proof. vm_compute. split; reflexivity. Qed.

(** With the addresses reported in sorted order the same host has parity. *)
Lemma checkConfigParity_sorted_addresses_example :
  out (run (checkConfigParity (example_realserver (Some example_cluster2)))
         host_handler (example_host ["10.10.0.1"; "10.10.0.2"]) 0) =
  Returned ((true, None), example_realserver (Some example_cluster2)).
Proof. vm_compute. reflexivity. Qed.

End ParityFacts.

(** ** The realserver: who sets [lastReconfigure] *)

Section LastReconfigureFacts.
Import types realserver Examples.

(** C10.  In the realserver
    - [configure], forced or not, never assigns a field of the worker;
    - receiving nodes or a configuration, the 60 s tick and the 10 min
      forced tick leave [lastReconfigure] as it was, whatever [configure]
      returned;
    - the 100 ms tick either leaves the worker as it was or, after its
      [configure(false)] returned nil, sets [lastReconfigure] to the time
      read at the start of the tick. *)
Theorem lastReconfigure_set_only_by_check_tick :
  (forall force, keeps_state (configure force)) /\
  (forall ev (r : realserver) clk,
     ev <> TickCheck ->
     always clk (step ev r) (fun o _ _ =>
       forall r', o = Returned (tt, r') -> lastReconfigure r' = lastReconfigure r)) /\
  (forall (r r' : realserver) clk (W : Type) (hd : handler rE W) (w : W),
     out (run (periodic_check r) hd w clk) = Returned (tt, r') ->
     r' = r \/
     exists w1 removals,
       out (run (configure false r) hd w1 (clk + fst (elapse hd w))) =
         Returned ((None, removals), r) /\
       r' = set_lastReconfigure (clk + fst (elapse hd w)) r).
Proof.
  split; [exact configure_keeps|]. split.
  - intros ev r clk Hev. destruct ev as [ns|cfg| | |]; cbn; [| | | |congruence].
    + eapply always_mono; [apply rs_watches_nodes_effect|]. cbn.
      intros o c tr (_ & H) r' Ho. apply (H r' Ho).
    + eapply always_mono; [apply rs_watches_config_effect|]. cbn.
      intros o c tr (_ & H) r' Ho. apply (H r' Ho).
    + eapply always_mono; [apply periodic_forced_keeps|]. cbn.
      intros o c tr H r' Ho. rewrite (H _ _ Ho). reflexivity.
    + eapply always_mono; [apply periodic_slow_keeps|]. cbn.
      intros o c tr H r' Ho. rewrite (H _ _ Ho). reflexivity.
  - intros r r' clk W hd w.
    unfold periodic_check, bind, get, now, modify, call, ret. cbn.
    set (start := clk + fst (elapse hd w)). set (w0 := snd (elapse hd w)).
    destruct (skip_condition r); cbn.
    { intros [= <-]. left. reflexivity. }
    destruct (on_call hd Metric_QueueDepth w0) as [[[]|] w1]; cbn; [|discriminate].
    destruct (match config r with Some _ => false | None => true end
              || String.eqb (Name (node r)) ""); cbn.
    { destruct (on_call hd (Metric_Reconfigure "noop") _) as [[[]|] w2]; cbn; [|discriminate].
      intros [= <-]. left. reflexivity. }
    rewrite run_pbind.
    pose proof (configure_keeps false r start hd w1) as Hk. cbn beta in Hk.
    destruct (out (run (configure false r) hd w1 start)) as [[[e x] r1]| |] eqn:Hc;
      cbn; [|discriminate|discriminate].
    rewrite (Hk _ _ eq_refl) in *. clear Hk. destruct e as [err|]; cbn.
    + destruct (on_call hd (Metric_Reconfigure "error") _) as [[[]|] w2]; cbn; [|discriminate].
      intros [= <-]. left. reflexivity.
    + destruct (on_call hd (Metric_Reconfigure "complete") _) as [[[]|] w2]; cbn; [|discriminate].
      intros [= <-]. right. exists w1, x. split; [exact Hc | reflexivity].
Qed.

Lemma lastReconfigure_set_only_by_check_tick_witness :
  set_lastReconfigure 1 (example_realserver (Some example_cluster2)) =
    example_realserver (Some example_cluster2) \/
  exists w1 removals,
    out (run (configure false (example_realserver (Some example_cluster2)))
           host_handler w1 (0 + fst (elapse host_handler (example_host ["10.10.0.2"])))) =
      Returned ((None, removals), example_realserver (Some example_cluster2)) /\
    set_lastReconfigure 1 (example_realserver (Some example_cluster2)) =
      set_lastReconfigure (0 + fst (elapse host_handler (example_host ["10.10.0.2"])))
        (example_realserver (Some example_cluster2)).
Proof.
  apply (proj2 (proj2 lastReconfigure_set_only_by_check_tick)
           (example_realserver (Some example_cluster2))
           (set_lastReconfigure 1 (example_realserver (Some example_cluster2)))
           0 host host_handler (example_host ["10.10.0.2"])).
  vm_compute. reflexivity.
Defined.

End LastReconfigureFacts.

(** ** Goroutines: what every schedule keeps *)

Section GoroutineFacts.
Import Goroutines.
Context {R : Type} {E : Type -> Type}.
Variable J : time -> R -> Prop.
Hypothesis J_later : forall clk c r, clk <= c -> J clk r -> J c r.
Variable event : Type.
Variable handles : event -> goroutine * code R E unit.
Hypothesis handles_timely : forall ev clk, timely J clk (snd (handles ev)).

Lemma timely_later {A} clk c (p : code R E A) : clk <= c -> timely J clk p -> timely J c p.
Proof.
  revert clk c. induction p as [a|msg|k IH|X o k IH]; intros clk c Hc; cbn.
  - trivial.
  - trivial.
  - intros H t Ht. apply H. lia.
  - intros [Ho Hk]. split.
    + destruct o; try exact Logic.I. intros c' r Hc'. apply Ho. lia.
    + intros x. eapply IH; [exact Hc|apply Hk].
Qed.

Lemma timely_pbind {A B} clk (p : code R E A) (f : A -> code R E B) :
  timely J clk p -> (forall a c, clk <= c -> timely J c (f a)) ->
  timely J clk (pbind p f).
Proof.
  revert clk. induction p as [a|msg|k IH|X o k IH]; intros clk Hp Hf; cbn in *.
  - apply Hf. lia.
  - exact Logic.I.
  - intros t Ht. apply IH; [apply Hp, Ht|]. intros a c Hc. apply Hf. lia.
  - destruct Hp as [Ho Hk]. split; [exact Ho|]. intros x. apply IH; [apply Hk|exact Hf].
Qed.

Lemma in_time_later clk c (m : machine R E) :
  clk <= c -> in_time J clk m -> in_time J c m.
Proof using J_later.
  intros Hc (Hm & Hw & Hp). split; [|split].
  - eapply J_later; eassumption.
  - eapply timely_later; eassumption.
  - eapply timely_later; eassumption.
Qed.

Lemma in_time_resume clk g p (m : machine R E) :
  in_time J clk m -> timely J clk p -> in_time J clk (resume g p m).
Proof. intros (Hm & Hw & Hp) Ht. destruct g; cbn; repeat split; assumption. Qed.

Lemma in_time_rest clk g (m : machine R E) : in_time J clk m -> timely J clk (rest_of g m).
Proof. intros (Hm & Hw & Hp). destruct g; assumption. Qed.

Lemma advance_in_time g (m : machine R E) clk :
  in_time J clk m ->
  always clk (advance g m) (fun o c _ => forall m', o = Returned m' -> in_time J c m').
Proof using J_later.
  intros Hin. pose proof (in_time_rest g Hin) as Hrest. unfold advance.
  destruct (rest_of g m) as [a|msg|k|X o k]; cbn in Hrest.
  - apply always_ret. intros m' [= <-]. exact Hin.
  - apply always_panic. intros m'; discriminate.
  - apply always_now. intros d. apply always_ret. intros m' [= <-].
    apply in_time_resume; [|apply Hrest; lia].
    eapply in_time_later; [|exact Hin]. lia.
  - destruct Hrest as [Ho Hk]. destruct o as [| |X f|s|X e].
    + destruct (mutex m).
      * apply always_ret. intros m' [= <-]. exact Hin.
      * apply always_ret. intros m' [= <-]. apply in_time_resume; [|apply Hk].
        destruct Hin as (? & ? & ?). repeat split; assumption.
    + apply always_ret. intros m' [= <-]. apply in_time_resume; [|apply Hk].
      destruct Hin as (? & ? & ?). repeat split; assumption.
    + apply always_ret. intros m' [= <-]. apply in_time_resume; [exact Hin|apply Hk].
    + apply always_ret. intros m' [= <-]. apply in_time_resume; [|apply Hk].
      destruct Hin as (Hm & ? & ?). repeat split; try assumption.
      cbn. apply Ho; [lia|exact Hm].
    + apply always_vis; [intros m'; discriminate|]. intros x.
      apply always_ret. intros m' [= <-]. apply in_time_resume; [exact Hin|apply Hk].
Qed.

Lemma make_in_time mv (m : machine R E) clk :
  in_time J clk m ->
  always clk (make handles mv m) (fun o c _ => forall m', o = Returned m' -> in_time J c m').
Proof using J_later handles_timely.
  intros Hin. destruct mv as [ev|g]; cbn.
  - destruct (rest_of (fst (handles ev)) m);
      apply always_ret; intros m' [= <-]; try exact Hin.
    apply in_time_resume; [exact Hin|apply handles_timely].
  - apply advance_in_time, Hin.
Qed.

(** Whatever the schedule, the fields keep [J]. *)
Lemma moves_in_time sch (m : machine R E) clk :
  in_time J clk m ->
  always clk (moves handles sch m) (fun o c _ => forall m', o = Returned m' -> in_time J c m').
Proof using J_later handles_timely.
  revert m clk. induction sch as [|mv sch IH]; intros m clk Hin; cbn.
  - apply always_ret. intros m' [= <-]. exact Hin.
  - apply always_bind. eapply always_mono; [apply make_in_time, Hin|]. cbn.
    intros [m1| |] c tr H; [|intros ?; discriminate|intros ?; discriminate].
    eapply always_mono; [apply IH, H; reflexivity|]. cbn. intros o c' tr' H' m' Ho.
    apply H', Ho.
Qed.

Lemma idle_in_time clk (r : R) : J clk r -> in_time (E := E) J clk (idle r).
Proof. intros Hr. repeat split; assumption. Qed.

(** The steps of [periodic] leave [watches] where it is. *)
Lemma make_periodic_keeps_watches mv (m : machine R E) clk :
  mover handles mv = periodic ->
  always clk (make handles mv m) (fun o _ _ =>
    forall m', o = Returned m' -> in_watches m' = in_watches m).
Proof.
  intros Hmv. destruct mv as [ev|g]; cbn in *.
  - rewrite Hmv. destruct (rest_of periodic m);
      apply always_ret; intros m' [= <-]; reflexivity.
  - subst g. unfold advance. destruct (rest_of periodic m) as [a|msg|k|X o k].
    + apply always_ret. intros m' [= <-]. reflexivity.
    + apply always_panic. intros m'; discriminate.
    + apply always_now. intros d. apply always_ret. intros m' [= <-]. reflexivity.
    + destruct o as [| |X f|s|X e].
      * destruct (mutex m); apply always_ret; intros m' [= <-]; reflexivity.
      * apply always_ret. intros m' [= <-]. reflexivity.
      * apply always_ret. intros m' [= <-]. reflexivity.
      * apply always_ret. intros m' [= <-]. reflexivity.
      * apply always_vis; [intros m'; discriminate|]. intros x.
        apply always_ret. intros m' [= <-]. reflexivity.
Qed.

Lemma moves_periodic_keep_watches sch (m : machine R E) clk :
  Forall (fun mv => mover handles mv = periodic) sch ->
  always clk (moves handles sch m) (fun o _ _ =>
    forall m', o = Returned m' -> in_watches m' = in_watches m).
Proof.
  intros Hsch. revert m clk. induction Hsch as [|mv sch Hmv _ IH]; intros m clk; cbn.
  - apply always_ret. intros m' [= <-]. reflexivity.
  - apply always_bind. eapply always_mono; [apply make_periodic_keeps_watches, Hmv|]. cbn.
    intros [m1| |] c tr H; [|intros ?; discriminate|intros ?; discriminate].
    eapply always_mono; [apply IH|]. cbn. intros o c' tr' H' m' Ho.
    rewrite (H' _ Ho). apply H. reflexivity.
Qed.

(** [watches] evaluates [time.Now()] and then assigns it: the reading is
    not before the clock at the step, and the assignment that follows,
    whatever [periodic] did in between, leaves it in the field. *)
Lemma reading_then_assignment
    (set : time -> R -> R) (W : Type) (hd : handler E W) (w : W) (clk : time)
    (mid : list (move event)) (m1 m2 m3 m4 : machine R E) :
  reads_clock_for set (in_watches m1) ->
  let f2 := run (advance watches m1) hd w clk in
  out f2 = Returned m2 ->
  Forall (fun mv => mover handles mv = periodic) mid ->
  let f3 := run (moves handles mid m2) hd (world f2) (clock f2) in
  out f3 = Returned m3 ->
  out (run (advance watches m3) hd (world f3) (clock f3)) = Returned m4 ->
  clk <= clock f2 /\ mem m4 = set (clock f2) (mem m3).
Proof.
  intros (k & Hk & Hset) f2 H2 Hmid f3 H3 H4.
  assert (Hc : clk <= clock f2) by apply (always_clock_mono clk (advance watches m1) hd w).
  split; [exact Hc|].
  assert (Hw2 : in_watches m2 = k (clock f2)).
  { subst f2. unfold advance in *. cbn [rest_of] in *. rewrite Hk in *. cbn in *.
    injection H2 as <-. reflexivity. }
  pose proof (moves_periodic_keep_watches m2 (clock f2) Hmid) as Hw3.
  specialize (Hw3 W hd (world f2) m3 H3).
  rewrite Hw2 in Hw3. destruct (Hset (clock f2)) as [k' Hk'].
  rewrite Hk' in Hw3. unfold advance in H4. cbn [rest_of] in H4. rewrite Hw3 in H4.
  cbn in H4. injection H4 as <-. reflexivity.
Qed.

End GoroutineFacts.

(** Walks through a body: a reading of the clock gives a later time, an
    assignment has to keep the stamps in the past. *)
Ltac timely_steps :=
  repeat first
    [ exact Logic.I
    | progress (cbn [Goroutines.timely pbind Goroutines.lock Goroutines.unlock Goroutines.fetch
                     Goroutines.assign Goroutines.ask Goroutines.clock_now
                     Goroutines.done])
    | match goal with
      | |- _ /\ _ => split
      | |- forall _, _ => intro
      | |- Goroutines.timely _ _ (match ?x with _ => _ end) => destruct x
      | |- Goroutines.timely _ _ (if ?x then _ else _) => destruct x
      | |- Goroutines.timely _ _ (pbind _ _) => apply timely_pbind
      end ].

(** ** The director's goroutines *)

Section DirectorGoroutineFacts.
Import types bgp Goroutines DirectorGoroutines.

Lemma stamps_later clk c (b : bgpserver) :
  clk <= c -> stamps_in_past clk b -> stamps_in_past c b.
Proof. unfold stamps_in_past. lia. Qed.

Lemma each_until_error_timely f addrs clk :
  timely stamps_in_past clk (DirectorGoroutines.each_until_error f addrs).
Proof.
  induction addrs as [|addr rest IH]; cbn [DirectorGoroutines.each_until_error];
    timely_steps.
  exact IH.
Qed.

Lemma setAddresses_timely clk : timely stamps_in_past clk DirectorGoroutines.setAddresses.
Proof.
  unfold DirectorGoroutines.setAddresses. timely_steps;
    try apply each_until_error_timely.
Qed.

Lemma configure_timely clk : timely stamps_in_past clk DirectorGoroutines.configure.
Proof.
  unfold DirectorGoroutines.configure. timely_steps;
    try apply setAddresses_timely.
  all: unfold stamps_in_past in *; cbn; lia.
Qed.

Lemma director_handles_timely ev clk : timely stamps_in_past clk (snd (handles ev)).
Proof.
  destruct ev as [ns|c| | |]; cbn [handles snd].
  - unfold recv_nodes. timely_steps; unfold stamps_in_past in *; cbn; lia.
  - unfold recv_config. timely_steps; unfold stamps_in_past in *; cbn; lia.
  - timely_steps.
  - unfold tick_reconfigure. timely_steps; try apply configure_timely.
  - unfold performReconfigure, DirectorGoroutines.noUpdatesReady,
      DirectorGoroutines.configReady.
    timely_steps; try apply configure_timely; unfold stamps_in_past in *; cbn; lia.
Qed.

(** Whatever the schedule, the stamps of the director do not lie in the
    future. *)
Lemma director_stamps (sch : list (move event)) clk0 :
  always clk0 (moves handles sch started) (fun o c _ =>
    forall m, o = Returned m -> stamps_in_past c (mem m)).
Proof.
  eapply always_mono.
  - apply (moves_in_time stamps_later handles director_handles_timely).
    apply idle_in_time. unfold stamps_in_past. cbn. lia.
  - cbn. intros o c tr H m Ho. apply (H m Ho).
Qed.

(** The configuration case gets to the reading of the clock: [watches],
    at its [select] with the mutex free, takes a configuration, locks, and
    assigns [config] and [newConfig]. *)
Lemma recv_config_reads_clock c (m : machine bgpserver dE) clk :
  in_watches m = Ret tt -> mutex m = None ->
  always clk (moves handles [Take (RecvConfig c); Step watches; Step watches;
                             Step watches] m)
    (fun o _ tr => exists m1,
       o = Returned m1 /\ tr = [] /\
       mem m1 = set_newConfig true (set_config c (mem m)) /\
       reads_clock_for set_lastInboundUpdate (in_watches m1)).
Proof.
  destruct m as [b mu pw pp]. cbn. intros -> ->. cbn.
  apply always_ret. eexists. split; [reflexivity|]. split; [reflexivity|].
  split; [reflexivity|]. cbn. eexists. split; [reflexivity|].
  intros t. eexists. reflexivity.
Qed.

(** So does the node case, when the guard lets the update through; when it
    does not, [watches] is back at its [select] and no field has changed. *)
Lemma recv_nodes_reads_clock ns (m : machine bgpserver dE) clk :
  in_watches m = Ret tt -> mutex m = None ->
  always clk (moves handles (Take (RecvNodes ns) :: replicate 5 (Step watches)) m)
    (fun o _ tr => forall m1, o = Returned m1 ->
       if node_update_accepted tr
       then mem m1 = set_nodes ns (mem m) /\
            reads_clock_for set_lastInboundUpdate (in_watches m1)
       else mem m1 = mem m /\ in_watches m1 = Ret tt).
Proof.
  destruct m as [b mu pw pp]. cbn. intros -> ->. cbn.
  apply always_vis; [intros ?; discriminate|]. intros [|]; cbn.
  - apply always_vis; [intros ?; discriminate|]. intros []. cbn.
    apply always_ret. intros m1 [= <-]. split; reflexivity.
  - apply always_vis; [intros ?; discriminate|]. intros []. cbn.
    apply always_ret. intros m1 [= <-]. split; [reflexivity|]. cbn.
    eexists. split; [reflexivity|]. intros t. eexists. reflexivity.
Qed.

End DirectorGoroutineFacts.

(** ** The realserver's goroutines *)

Section RealserverGoroutineFacts.
Import types realserver Goroutines RealserverGoroutines.

Lemma rs_stamps_later clk c (r : realserver) :
  clk <= c -> rs_stamps_in_past clk r -> rs_stamps_in_past c r.
Proof. unfold rs_stamps_in_past. lia. Qed.

Lemma rs_each_until_error_timely f addrs clk :
  timely rs_stamps_in_past clk (RealserverGoroutines.each_until_error f addrs).
Proof.
  induction addrs as [|addr rest IH]; cbn [RealserverGoroutines.each_until_error];
    timely_steps.
  exact IH.
Qed.

Lemma rs_setAddresses_timely clk :
  timely rs_stamps_in_past clk RealserverGoroutines.setAddresses.
Proof.
  unfold RealserverGoroutines.setAddresses. timely_steps;
    try apply rs_each_until_error_timely.
Qed.

Lemma rs_checkConfigParity_timely clk :
  timely rs_stamps_in_past clk RealserverGoroutines.checkConfigParity.
Proof. unfold RealserverGoroutines.checkConfigParity. timely_steps. Qed.

Lemma rs_configure_timely force clk :
  timely rs_stamps_in_past clk (RealserverGoroutines.configure force).
Proof.
  unfold RealserverGoroutines.configure. destruct force.
  - timely_steps; try apply rs_setAddresses_timely.
  - timely_steps; try apply rs_checkConfigParity_timely;
      try apply rs_setAddresses_timely.
Qed.

Lemma rs_handles_timely ev clk : timely rs_stamps_in_past clk (snd (handles ev)).
Proof.
  destruct ev as [ns|c| | |]; cbn [handles snd].
  - unfold recv_nodes. timely_steps; unfold rs_stamps_in_past in *; cbn; lia.
  - unfold recv_config. timely_steps; unfold rs_stamps_in_past in *; cbn; lia.
  - unfold tick_forced. timely_steps; try apply rs_configure_timely.
  - unfold tick_slow. timely_steps; try apply rs_configure_timely.
  - unfold tick_check. timely_steps; try apply rs_configure_timely;
      unfold rs_stamps_in_past in *; cbn; lia.
Qed.

Lemma realserver_stamps name forced (sch : list (move event)) clk0 :
  always clk0 (moves handles sch (started name forced)) (fun o c _ =>
    forall m, o = Returned m -> rs_stamps_in_past c (mem m)).
Proof.
  eapply always_mono.
  - apply (moves_in_time rs_stamps_later handles rs_handles_timely).
    apply idle_in_time. unfold rs_stamps_in_past. cbn. lia.
  - cbn. intros o c tr H m Ho. apply (H m Ho).
Qed.

Lemma rs_recv_config_reads_clock c (m : machine realserver rE) clk :
  in_watches m = Ret tt -> mutex m = None ->
  always clk (moves handles [Take (RecvConfig c); Step watches; Step watches] m)
    (fun o _ tr => exists m1,
       o = Returned m1 /\ tr = [] /\
       mem m1 = set_config c (mem m) /\
       reads_clock_for set_lastInboundUpdate (in_watches m1)).
Proof.
  destruct m as [r mu pw pp]. cbn. intros -> ->. cbn.
  apply always_ret. eexists. split; [reflexivity|]. split; [reflexivity|].
  split; [reflexivity|]. cbn. eexists. split; [reflexivity|].
  intros t. eexists. reflexivity.
Qed.

Lemma rs_recv_nodes_reads_clock ns (m : machine realserver rE) clk :
  in_watches m = Ret tt -> mutex m = None ->
  always clk (moves handles (Take (RecvNodes ns) :: replicate 6 (Step watches)) m)
    (fun o _ tr => forall m1, o = Returned m1 ->
       if node_update_accepted tr
       then (exists n, find_node (nodeName (mem m)) ns = Some n /\
                       mem m1 = set_node n (mem m)) /\
            reads_clock_for set_lastInboundUpdate (in_watches m1)
       else mem m1 = mem m /\ in_watches m1 = Ret tt).
Proof.
  destruct m as [r mu pw pp]. cbn. intros -> ->. cbn.
  destruct (find_node (nodeName r) ns) as [n|]; cbn.
  2:{ apply always_ret. intros m1 [= <-]. split; reflexivity. }
  apply always_vis; [intros ?; discriminate|]. intros [|]; cbn.
  - apply always_vis; [intros ?; discriminate|]. intros []. cbn.
    apply always_ret. intros m1 [= <-]. split; reflexivity.
  - apply always_vis; [intros ?; discriminate|]. intros []. cbn.
    apply always_ret. intros m1 [= <-]. split.
    + exists n. split; reflexivity.
    + cbn. eexists. split; [reflexivity|]. intros t. eexists. reflexivity.
Qed.

End RealserverGoroutineFacts.

(** ** A goroutine on its own

    Run without the other goroutine, the body of a case is the method of
    the sequential model. *)

Section AloneFacts.
Import Goroutines.
Context {R : Type} {E : Type -> Type}.

Lemma same_runs_refl {A} (p : prog E A) : same_runs p p.
Proof. intros W hd w clk. reflexivity. Qed.

Lemma same_runs_vis {A X} (e : E X) (k k' : X -> prog E A) :
  (forall x, same_runs (k x) (k' x)) -> same_runs (Vis e k) (Vis e k').
Proof.
  intros H W hd w clk. cbn. destruct (on_call hd e w) as [[x|] w']; cbn; [|reflexivity].
  rewrite (H x). reflexivity.
Qed.

Lemma same_runs_now {A} (k k' : time -> prog E A) :
  (forall t, same_runs (k t) (k' t)) -> same_runs (Now k) (Now k').
Proof. intros H W hd w clk. cbn. apply H. Qed.

Lemma same_runs_pbind {A B} (p q : prog E A) (f g : A -> prog E B) :
  same_runs p q -> (forall a, same_runs (f a) (g a)) ->
  same_runs (pbind p f) (pbind q g).
Proof.
  intros Hp Hf W hd w clk. rewrite !run_pbind, (Hp W hd w clk).
  destruct (out (run q hd w clk)); [|reflexivity|reflexivity].
  cbn. rewrite (Hf a). reflexivity.
Qed.

Lemma alone_pbind {A B} (p : code R E A) (f : A -> code R E B) (r : R) :
  same_runs (alone (pbind p f) r)
            (pbind (alone p r) (fun ar => alone (f (fst ar)) (snd ar))).
Proof.
  revert r. induction p as [a|msg|k IH|X o k IH]; intros r; cbn.
  - apply same_runs_refl.
  - apply same_runs_refl.
  - apply same_runs_now. intros t. apply IH.
  - destruct o as [| |Y h|s|Y e]; cbn; try apply IH.
    apply same_runs_vis. intros x. apply IH.
Qed.

Lemma alone_pbind_same {A B} (p : code R E A) (f : A -> code R E B) (r : R)
    (q : prog E (A * R)) (g : A * R -> prog E (B * R)) :
  same_runs (alone p r) q ->
  (forall a r', same_runs (alone (f a) r') (g (a, r'))) ->
  same_runs (alone (pbind p f) r) (pbind q g).
Proof.
  intros Hp Hf W hd w clk. rewrite (alone_pbind p f r hd w clk).
  apply same_runs_pbind; [exact Hp|]. intros [a r']. apply Hf.
Qed.

Lemma alone_bind {A B} (p : code R E A) (f : A -> code R E B) (r : R)
    (m : M E R A) (g : A -> M E R B) :
  same_runs (alone p r) (m r) ->
  (forall a r', same_runs (alone (f a) r') (g a r')) ->
  same_runs (alone (pbind p f) r) (bind m g r).
Proof.
  intros Hp Hf W hd w clk. rewrite (alone_pbind p f r hd w clk). unfold bind.
  apply same_runs_pbind; [exact Hp|]. intros [a r']. apply Hf.
Qed.

End AloneFacts.

(** Steps through two programs side by side. *)
Ltac same_steps :=
  repeat first
    [ apply same_runs_refl
    | apply same_runs_vis; intros ?
    | apply same_runs_now; intros ?
    | progress cbn
    | match goal with
      | H : ?t = _ |- context [?t] => rewrite H
      | |- context [match ?x with _ => _ end] => destruct x eqn:?
      end ].

Section DirectorAlone.
Import types bgp Goroutines.

Lemma each_until_error_alone f addrs (b : bgpserver) :
  same_runs (alone (DirectorGoroutines.each_until_error f addrs) b)
            (bgp.each_until_error f addrs b).
Proof.
  induction addrs as [|addr rest IH]; cbn; [apply same_runs_refl|].
  unfold bind, call, ret. cbn. apply same_runs_vis. intros [err|]; cbn.
  - apply same_runs_refl.
  - exact IH.
Qed.

Lemma setAddresses_alone (b : bgpserver) :
  same_runs (alone DirectorGoroutines.setAddresses b) (bgp.setAddresses b).
Proof.
  unfold DirectorGoroutines.setAddresses, bgp.setAddresses, bind, call, get, ret, panic.
  cbn. apply same_runs_vis. intros [configured|err]; cbn; [|apply same_runs_refl].
  destruct (config b) as [c|]; cbn; [|apply same_runs_refl].
  apply same_runs_vis. intros ra. cbn.
  apply (@alone_bind _ _ _ _ _ _ _ (bgp.each_until_error LoDel (fst ra))
           (fun e => match e with
                     | Some err => ret (Some err)
                     | None => bgp.each_until_error LoAdd (snd ra)
                     end)).
  - apply each_until_error_alone.
  - intros [err|] b'; cbn; [apply same_runs_refl|apply each_until_error_alone].
Qed.

Lemma configure_alone (b : bgpserver) :
  same_runs (alone DirectorGoroutines.configure b) (bgp.configure b).
Proof.
  unfold DirectorGoroutines.configure, bgp.configure.
  apply alone_bind; [apply setAddresses_alone|].
  intros [err|] b'; unfold bind, call, get, ret, panic, now, modify; same_steps.
Qed.

(** Each case of the director, run with no step of the other goroutine in
    between, makes the calls and leaves the fields that [bgp.step] does. *)
Lemma director_handles_alone ev (b : bgpserver) :
  same_runs (alone (snd (DirectorGoroutines.handles ev)) b) (bgp.step ev b).
Proof.
  destruct ev as [ns|c| | |]; cbn [DirectorGoroutines.handles snd bgp.step].
  - unfold DirectorGoroutines.recv_nodes, bgp.watches_nodes,
      bind, call, get, ret, now, modify. same_steps.
  - unfold DirectorGoroutines.recv_config, bgp.watches_config,
      bind, call, get, ret, now, modify. same_steps.
  - unfold call. same_steps.
  - unfold DirectorGoroutines.tick_reconfigure, bgp.periodic_reconfigure.
    unfold bind at 1, now. cbn. apply same_runs_now. intros t.
    eapply alone_pbind_same; [apply configure_alone|].
    intros [err|] b'; unfold bind, call, get, ret, now; same_steps.
  - unfold DirectorGoroutines.performReconfigure, bgp.performReconfigure,
      DirectorGoroutines.noUpdatesReady, DirectorGoroutines.configReady,
      bgp.configReady, bgp.noUpdatesReady.
    unfold bind, call, get, ret, now, modify. cbn -[Nat.ltb].
    destruct (Nat.ltb (lastInboundUpdate b) (lastReconfigure b)); cbn; [apply same_runs_refl|].
    apply same_runs_now. intros t. apply same_runs_vis. intros [addresses|err]; cbn.
    2:{ same_steps. }
    destruct (newConfig b); cbn.
    + apply same_runs_vis. intros [[|]|err]; cbn; try solve [same_steps].
      eapply alone_pbind_same; [apply configure_alone|].
      intros [err|] b'; same_steps.
    + apply same_runs_vis. intros [[|]|err]; cbn; try solve [same_steps].
      eapply alone_pbind_same; [apply configure_alone|].
      intros [err|] b'; same_steps.
Qed.

End DirectorAlone.

Section RealserverAlone.
Import types realserver Goroutines.

Lemma rs_each_until_error_alone f addrs (r : realserver) :
  same_runs (alone (RealserverGoroutines.each_until_error f addrs) r)
            (realserver.each_until_error f addrs r).
Proof.
  induction addrs as [|addr rest IH]; cbn; [apply same_runs_refl|].
  unfold bind, call, ret. cbn. apply same_runs_vis. intros [err|]; cbn.
  - apply same_runs_refl.
  - exact IH.
Qed.

Lemma rs_setAddresses_alone (r : realserver) :
  same_runs (alone RealserverGoroutines.setAddresses r) (realserver.setAddresses r).
Proof.
  unfold RealserverGoroutines.setAddresses, realserver.setAddresses,
    bind, call, get, ret, panic.
  cbn. apply same_runs_vis. intros [configured|err]; cbn; [|apply same_runs_refl].
  destruct (config r) as [c|]; cbn; [|apply same_runs_refl].
  apply same_runs_vis. intros ra. cbn.
  apply (@alone_bind _ _ _ _ _ _ _ (realserver.each_until_error LoDel (fst ra))
           (fun e => match e with
                     | Some err => ret (Some err)
                     | None => realserver.each_until_error LoAdd (snd ra)
                     end)).
  - apply rs_each_until_error_alone.
  - intros [err|] r'; cbn; [apply same_runs_refl|apply rs_each_until_error_alone].
Qed.

Lemma rs_checkConfigParity_alone (r : realserver) :
  same_runs (alone RealserverGoroutines.checkConfigParity r)
            (realserver.checkConfigParity r).
Proof.
  unfold RealserverGoroutines.checkConfigParity, realserver.checkConfigParity,
    bind, call, get, ret, panic.
  cbn. destruct (config r) as [c|] eqn:Hc; cbn; [|apply same_runs_refl].
  apply same_runs_vis. intros [addresses|err]; cbn; [|apply same_runs_refl].
  rewrite Hc. cbn.
  apply same_runs_vis. intros [existing|err]; cbn; [|apply same_runs_refl].
  apply same_runs_vis. intros base. cbn. rewrite Hc.
  apply same_runs_vis. intros [generated|err]; cbn; [|apply same_runs_refl].
  apply same_runs_vis. intros base'. apply same_runs_refl.
Qed.

Lemma rs_configure_forced_alone (r : realserver) :
  same_runs (alone (RealserverGoroutines.configure true) r)
            (realserver.configure true r).
Proof.
  unfold RealserverGoroutines.configure, realserver.configure.
  apply alone_bind; [apply rs_setAddresses_alone|].
  intros [err|] r'; unfold bind, call, get, ret, panic; same_steps.
Qed.

Lemma rs_configure_alone force (r : realserver) :
  same_runs (alone (RealserverGoroutines.configure force) r)
            (realserver.configure force r).
Proof.
  destruct force; [apply rs_configure_forced_alone|].
  unfold RealserverGoroutines.configure, realserver.configure.
  apply alone_bind; [apply rs_checkConfigParity_alone|].
  intros [[|] [err|]] r'; try apply same_runs_refl.
  apply rs_configure_forced_alone.
Qed.

(** Each case of the realserver, run with no step of the other goroutine
    in between, makes the calls and leaves the fields that
    [realserver.step] does. *)
Lemma rs_handles_alone ev (r : realserver) :
  same_runs (alone (snd (RealserverGoroutines.handles ev)) r) (realserver.step ev r).
Proof.
  destruct ev as [ns|c| | |]; cbn [RealserverGoroutines.handles snd realserver.step].
  - unfold RealserverGoroutines.recv_nodes, realserver.watches_nodes,
      bind, call, get, ret, now, modify. cbn.
    destruct (find_node (nodeName r) ns) as [n|]; same_steps.
  - unfold RealserverGoroutines.recv_config, realserver.watches_config,
      bind, call, get, ret, now, modify. same_steps.
  - unfold RealserverGoroutines.tick_forced, realserver.periodic_forced.
    unfold bind at 1, get. cbn. destruct (forcedReconfigure r); [|apply same_runs_refl].
    unfold bind at 1, now. cbn. apply same_runs_now. intros t.
    eapply alone_pbind_same; [apply rs_configure_alone|].
    intros [[err|] z] r'; unfold bind, call, get, ret, now; same_steps.
  - unfold RealserverGoroutines.tick_slow, realserver.periodic_slow.
    unfold bind at 1, now. cbn. apply same_runs_now. intros t.
    eapply alone_pbind_same; [apply rs_configure_alone|].
    intros [[err|] z] r'; unfold bind, call, get, ret, now; same_steps.
  - unfold RealserverGoroutines.tick_check, realserver.periodic_check,
      realserver.skip_condition.
    unfold bind at 1, now. cbn -[Nat.ltb]. apply same_runs_now. intros start.
    unfold bind at 1, get. cbn -[Nat.ltb].
    destruct (Nat.ltb (lastInboundUpdate r) (lastReconfigure r));
      [apply same_runs_refl|].
    unfold bind at 1, call. cbn. apply same_runs_vis. intros [].
    destruct (config r) as [c|]; cbn.
    2:{ unfold bind, now, call. same_steps. }
    destruct (String.eqb (Name (node r)) ""); cbn.
    { unfold bind, now, call. same_steps. }
    eapply alone_pbind_same; [apply rs_configure_alone|].
    intros [[err|] z] r'; unfold bind, call, get, ret, now, modify; same_steps.
Qed.

End RealserverAlone.

(** ** Both workers: the skip-condition after an update *)

Section SkipConditionFacts.
Import types Examples Goroutines.

(** C6, as amended.  [watches] and [periodic] run as two goroutines, under
    any schedule and any environment.  Take any state they reach in which
    [watches] is about to evaluate the [time.Now()] of
    [lastInboundUpdate = time.Now()]: it is there after it has taken a
    configuration from [configChan], and after it has taken from [nodeChan]
    a node update that passed the equality guard.  If [periodic], in the
    steps it takes between that reading of the clock and the assignment,
    does not change [lastReconfigure], then the skip-condition
    [lastReconfigure > lastInboundUpdate] is false immediately after the
    assignment.  This holds of the director and of the realserver. *)
Theorem skip_condition_false_after_accepted_update :
  (forall (W : Type) (hd : handler bgp.dE W) (w0 : W) (clk0 : time)
          (sch mid : list (move bgp.event))
          (m1 m2 m3 m4 : machine bgp.bgpserver bgp.dE),
     let f1 := run (moves DirectorGoroutines.handles sch DirectorGoroutines.started)
                   hd w0 clk0 in
     out f1 = Returned m1 ->
     reads_clock_for DirectorGoroutines.set_lastInboundUpdate (in_watches m1) ->
     let f2 := run (advance watches m1) hd (world f1) (clock f1) in
     out f2 = Returned m2 ->
     Forall (fun mv => mover DirectorGoroutines.handles mv = periodic) mid ->
     let f3 := run (moves DirectorGoroutines.handles mid m2) hd (world f2) (clock f2) in
     out f3 = Returned m3 ->
     bgp.lastReconfigure (mem m3) = bgp.lastReconfigure (mem m1) ->
     out (run (advance watches m3) hd (world f3) (clock f3)) = Returned m4 ->
     bgp.noUpdatesReady (mem m4) = false) /\
  (forall (name : string) (forced : bool)
          (W : Type) (hd : handler realserver.rE W) (w0 : W) (clk0 : time)
          (sch mid : list (move realserver.event))
          (m1 m2 m3 m4 : machine realserver.realserver realserver.rE),
     let f1 := run (moves RealserverGoroutines.handles sch
                      (RealserverGoroutines.started name forced)) hd w0 clk0 in
     out f1 = Returned m1 ->
     reads_clock_for RealserverGoroutines.set_lastInboundUpdate (in_watches m1) ->
     let f2 := run (advance watches m1) hd (world f1) (clock f1) in
     out f2 = Returned m2 ->
     Forall (fun mv => mover RealserverGoroutines.handles mv = periodic) mid ->
     let f3 := run (moves RealserverGoroutines.handles mid m2) hd (world f2) (clock f2) in
     out f3 = Returned m3 ->
     realserver.lastReconfigure (mem m3) = realserver.lastReconfigure (mem m1) ->
     out (run (advance watches m3) hd (world f3) (clock f3)) = Returned m4 ->
     realserver.skip_condition (mem m4) = false).
Proof.
  split.
  - intros W hd w0 clk0 sch mid m1 m2 m3 m4 f1 H1 Hrd f2 H2 Hmid f3 H3 Hlr H4.
    destruct (director_stamps sch clk0 hd w0 H1) as [Hpast _]. fold f1 in Hpast.
    destruct (reading_then_assignment DirectorGoroutines.handles hd (world f1) (clock f1)
                m1 Hrd H2 Hmid H3 H4) as [Hc Hm].
    fold f2 in Hc, Hm. rewrite Hm. unfold bgp.noUpdatesReady. cbn.
    apply Nat.ltb_ge. rewrite Hlr. lia.
  - intros name forced W hd w0 clk0 sch mid m1 m2 m3 m4 f1 H1 Hrd f2 H2 Hmid f3 H3 Hlr H4.
    destruct (realserver_stamps name forced sch clk0 hd w0 H1) as [Hpast _].
    fold f1 in Hpast.
    destruct (reading_then_assignment RealserverGoroutines.handles hd (world f1) (clock f1)
                m1 Hrd H2 Hmid H3 H4) as [Hc Hm].
    fold f2 in Hc, Hm. rewrite Hm. unfold realserver.skip_condition. cbn.
    apply Nat.ltb_ge. rewrite Hlr. lia.
Qed.

(** The director takes a configuration; between the reading of the clock
    and the assignment [periodic] runs its queue-depth tick. *)
Lemma skip_condition_false_after_accepted_update_witness :
  let sch := [Take (bgp.RecvConfig (Some example_cluster));
              Step watches; Step watches; Step watches] in
  let mid := [Take bgp.TickQueueDepth; Step periodic] in
  let f1 := run (moves DirectorGoroutines.handles sch DirectorGoroutines.started)
                bgp.kernel_handler (example_kernel []) 0 in
  let m1 := machine_of DirectorGoroutines.started f1 in
  let f2 := run (advance watches m1) bgp.kernel_handler (world f1) (clock f1) in
  let m2 := machine_of m1 f2 in
  let f3 := run (moves DirectorGoroutines.handles mid m2) bgp.kernel_handler
                (world f2) (clock f2) in
  let m3 := machine_of m2 f3 in
  let f4 := run (advance watches m3) bgp.kernel_handler (world f3) (clock f3) in
  bgp.noUpdatesReady (mem (machine_of m3 f4)) = false.
Proof.
  intros sch mid f1 m1 f2 m2 f3 m3 f4.
  apply (proj1 skip_condition_false_after_accepted_update
           bgp.kernel bgp.kernel_handler (example_kernel []) 0 sch mid m1 m2 m3
           (machine_of m3 f4)).
  - reflexivity.
  - eexists. split; [reflexivity|]. intros t. eexists. reflexivity.
  - reflexivity.
  - repeat constructor.
  - reflexivity.
  - reflexivity.
  - reflexivity.
Defined.

(** When the mandatory reconfigure of [periodic] runs between the two
    halves of [b.lastInboundUpdate = time.Now()], the skip-condition holds
    right after [watches] has taken a configuration: the director holds a
    configuration, [watches] takes a second one, locks, assigns [config]
    and [newConfig] and reads the clock (2); the 30 s tick then runs
    [configure] to its end and assigns [lastReconfigure] (4), which takes
    no lock; [watches] assigns its reading. *)
Lemma skip_condition_holds_after_overlapped_reconfigure :
  let first := Take (bgp.RecvConfig (Some example_cluster)) :: replicate 7 (Step watches) in
  let second := [Take (bgp.RecvConfig (Some example_cluster));
                 Step watches; Step watches; Step watches; Step watches] in
  let tick := Take bgp.TickReconfigure :: replicate 12 (Step periodic) in
  let f := run (moves DirectorGoroutines.handles
                  (first ++ second ++ tick ++ [Step watches])
                  DirectorGoroutines.started)
               bgp.kernel_handler (example_kernel []) 0 in
  exists m, out f = Returned m /\
    in_periodic m = Ret tt /\
    bgp.newConfig (mem m) = true /\
    bgp.lastInboundUpdate (mem m) = 2 /\ bgp.lastReconfigure (mem m) = 4 /\
    bgp.noUpdatesReady (mem m) = true.
Proof.
  vm_compute. eexists. split; [reflexivity|]. repeat split; reflexivity.
Qed.

(** C6 as stated fails for a node update that the guard rejects: the
    director has received nodes and a configuration and has run its
    mandatory reconfigure, each case from its first step to its last; it
    then takes the same node list from [nodeChan] again, counts it as a
    no-op and is back at its [select], and the skip-condition holds. *)
Lemma skip_condition_holds_after_noop_node_update :
  let sch := Take (bgp.RecvNodes example_nodes) :: replicate 8 (Step watches) ++
             Take (bgp.RecvConfig (Some example_cluster)) :: replicate 7 (Step watches) ++
             Take bgp.TickReconfigure :: replicate 12 (Step periodic) in
  let before := run (moves DirectorGoroutines.handles sch DirectorGoroutines.started)
                    bgp.kernel_handler (example_kernel []) 0 in
  exists m, out before = Returned m /\
    in_watches m = Ret tt /\ in_periodic m = Ret tt /\
    let after := run (moves DirectorGoroutines.handles
                        (Take (bgp.RecvNodes example_nodes) :: replicate 3 (Step watches)) m)
                     bgp.kernel_handler (world before) (clock before) in
    exists m', out after = Returned m' /\
      in_watches m' = Ret tt /\
      bgp.node_update_accepted (trace after) = false /\
      bgp.lastInboundUpdate (mem m') = 2 /\ bgp.lastReconfigure (mem m') = 4 /\
      bgp.noUpdatesReady (mem m') = true.
Proof.
  vm_compute. eexists. split; [reflexivity|]. split; [reflexivity|]. split; [reflexivity|].
  eexists. repeat split; reflexivity.
Qed.

End SkipConditionFacts.

(** * More of the HAProxy package *)

(** ** [render]: what the template is handed *)

Section RenderContexts.
Import HAProxy HAProxyActs.

Lemma acts_app (tr1 tr2 : list (entry haE)) : acts (tr1 ++ tr2) = acts tr1 ++ acts tr2.
Proof. apply map_app. Qed.

Lemma context_at_beyond (h : HAProxyManager) k port :
  len (serviceAddrs h) <= k -> context_at h k port = zero_templateContext.
Proof.
  intros Hk. unfold context_at.
  rewrite (proj2 (lookup_ge_None (elems (serviceAddrs h)) k)); [reflexivity|exact Hk].
Qed.

Lemma fill_contexts (h : HAProxyManager) (rest : list uint16) (pre : list templateContext) :
  length pre + length rest <= len (serviceAddrs h) + 1 ->
  fill h (length pre) rest (pre ++ replicate (length rest) zero_templateContext) =
  pre ++ imap (fun k => context_at h (length pre + k)) rest.
Proof.
  revert pre. induction rest as [|port rest IH]; intros pre Hlen; cbn in *.
  - reflexivity.
  - assert (Hnext : forall x,
              fill h (S (length pre)) rest
                (pre ++ x :: replicate (length rest) zero_templateContext) =
              pre ++ x :: imap ((fun k => context_at h (length pre + k)) ∘ S) rest).
    { intros x. specialize (IH (pre ++ [x])).
      rewrite length_app, Nat.add_1_r in IH. cbn in IH. rewrite <- !app_assoc in IH. cbn in IH.
      rewrite IH by lia. f_equal. f_equal. apply imap_ext. intros k y _. cbn.
      f_equal. lia. }
    rewrite Nat.add_0_r.
    destruct (Nat.eqb_spec (length pre) (len (serviceAddrs h))) as [Heq|Hne].
    + rewrite Hnext. rewrite context_at_beyond by lia. reflexivity.
    + rewrite insert_app_r_alt by lia. rewrite Nat.sub_diag. cbn. apply Hnext.
Qed.

Lemma fill_from_zero (h : HAProxyManager) (ports' : slice uint16) :
  len ports' <= len (serviceAddrs h) + 1 ->
  fill h 0 (elems ports') (replicate (len ports') zero_templateContext) = contexts h ports'.
Proof.
  intros Hlen. apply (fill_contexts h (elems ports') []). exact Hlen.
Qed.

End RenderContexts.

(** ** The runs of [render], [write], [unroll] and [Reload] *)

Section ManagerRuns.
Import HAProxy HAProxyActs HAProxyRuns.

Lemma stuck_one : stuck [Stuck].
Proof. exists []. reflexivity. Qed.

Lemma stuck_cons a l : stuck l -> stuck (a :: l).
Proof. intros [pre ->]. exists (a :: pre). reflexivity. Qed.

Lemma stuck_app l1 l2 : stuck l2 -> stuck (l1 ++ l2).
Proof. intros [pre ->]. exists (l1 ++ pre). rewrite app_assoc. reflexivity. Qed.

Lemma render_loop_past (rest : list uint16) i all d (h : HAProxyManager) clk :
  len (serviceAddrs h) < i ->
  always clk (render_loop i rest all d h) (fun o _ tr =>
    tr = [] /\
    match rest with
    | [] => o = Returned (d, h)
    | _ => o = Panicked "runtime error: index out of range"
    end).
Proof.
  intros Hi. destruct rest as [|port rest']; cbn.
  - apply always_ret. split; reflexivity.
  - unfold bind, get. cbn.
    destruct (Nat.eqb_spec i (len (serviceAddrs h))) as [->|_]; [lia|].
    rewrite (proj2 (lookup_ge_None (elems (serviceAddrs h)) i)) by (unfold len in Hi; lia).
    apply always_panic. split; reflexivity.
Qed.

Lemma render_loop_runs (rest : list uint16) i all d (h : HAProxyManager) clk :
  i <= len (serviceAddrs h) ->
  always clk (render_loop i rest all d h) (fun o _ tr =>
    match o with
    | Returned (d', h') =>
        h' = h /\ i + length rest <= len (serviceAddrs h) + 1 /\
        d' = fill h i rest d /\
        acts tr = if Nat.ltb (len (serviceAddrs h)) (i + length rest)
                  then [Warned (len (serviceAddrs h))] else []
    | Panicked msg =>
        len (serviceAddrs h) + 2 <= i + length rest /\
        msg = "runtime error: index out of range" /\
        acts tr = [Warned (len (serviceAddrs h))]
    | Blocked => acts tr = [Stuck]
    end).
Proof.
  revert i d. induction rest as [|port rest' IH]; intros i d Hi; cbn -[Nat.ltb Nat.add].
  - apply always_ret. split; [reflexivity|]. split; [lia|]. split; [reflexivity|].
    destruct (Nat.ltb_spec (len (serviceAddrs h)) (i + 0)); [lia | reflexivity].
  - unfold bind, get, call. cbn -[Nat.ltb Nat.add].
    destruct (Nat.eqb_spec i (len (serviceAddrs h))) as [->|Hne].
    + apply always_vis; [reflexivity|]. intros [].
      eapply always_mono; [apply (render_loop_past rest' all d h (i := S (len (serviceAddrs h)))); lia|].
      cbn -[Nat.ltb Nat.add]. intros o c tr [-> Ho]. destruct rest' as [|port' rest'']; subst o; cbn -[Nat.ltb Nat.add].
      * split; [reflexivity|]. split; [lia|]. split; [reflexivity|].
        destruct (Nat.ltb_spec (len (serviceAddrs h)) (len (serviceAddrs h) + 1));
          [reflexivity | lia].
      * split; [lia|]. split; reflexivity.
    + destruct (lookup_lt_is_Some_2 (elems (serviceAddrs h)) i) as [dest Hd];
        [unfold len in *; lia|].
      rewrite Hd.
      replace {| Port := port; Source := listenAddr h; Dest := dest |}
        with (context_at h i port) by (unfold context_at; rewrite Hd; reflexivity).
      eapply always_mono; [apply (IH (S i)); lia|]. cbn -[Nat.ltb Nat.add].
      intros [[d' h']| |] c tr H.
      * destruct H as (-> & Hlen & -> & Hacts). split; [reflexivity|]. split; [lia|].
        split; [reflexivity|]. rewrite Hacts.
        replace (i + S (length rest')) with (S (i + length rest')) by lia. reflexivity.
      * destruct H as (Hlen & -> & Hacts). split; [lia|]. split; [reflexivity|exact Hacts].
      * exact H.
Qed.

Lemma render_runs (p : slice uint16) (h : HAProxyManager) clk :
  always clk (render p h) (fun o _ tr =>
    match o with
    | Returned (r, h') =>
        h' = h /\ len p <= len (serviceAddrs h) + 1 /\
        acts tr = warnings h p ++ [Executed (contexts h p) r]
    | Panicked msg =>
        len (serviceAddrs h) + 2 <= len p /\
        msg = "runtime error: index out of range" /\
        acts tr = [Warned (len (serviceAddrs h))]
    | Blocked => stuck (acts tr)
    end).
Proof.
  unfold render, bind. apply always_bind.
  eapply always_mono; [apply render_loop_runs; lia|]. cbn.
  intros [[d' h']| |] c tr H.
  - destruct H as (-> & Hlen & -> & Hacts). cbn in Hlen. fold (len p) in Hlen.
    rewrite fill_from_zero by exact Hlen. unfold call. cbn.
    apply always_vis.
    { rewrite acts_app. apply stuck_app, stuck_one. }
    intros r. assert (Hr : always c
        (match r with Err e => ret (E := haE) (Err e) | Ok b => ret (Ok b) end h)
        (fun o _ tr' => o = Returned (r, h) /\ tr' = [])).
    { destruct r; apply always_ret; split; reflexivity. }
    eapply always_mono; [exact Hr|]. cbn. intros o c' tr' [-> ->].
    split; [reflexivity|]. split; [exact Hlen|].
    rewrite acts_app, Hacts. reflexivity.
  - destruct H as (Hlen & -> & Hacts). split; [exact Hlen|]. split; [reflexivity|exact Hacts].
  - rewrite H. apply stuck_one.
Qed.

Lemma write_runs (b : bytes) (h : HAProxyManager) clk :
  always clk (write b h) (fun o _ tr => write_run h b o (acts tr)).
Proof.
  unfold write, bind, get, call, ret. cbn.
  apply always_vis; [apply wr_stuck, stuck_one|]. intros [err|].
  - apply always_ret. apply wr_failed, wf_open.
  - cbn. apply always_vis; [apply wr_stuck, stuck_cons, stuck_one|]. intros werr.
    cbn. apply always_vis; [apply wr_stuck, stuck_cons, stuck_cons, stuck_one|]. intros [].
    apply always_ret. destruct werr as [err|].
    + apply wr_failed, wf_write.
    + apply wr_ok.
Qed.

Lemma sendError_runs (err : error) (h : HAProxyManager) clk :
  always clk (sendError err h) (fun o _ tr =>
    match o with
    | Returned (_, h') =>
        h' = h /\ acts tr = [Offered (errChan h) (unroll_message h err) true]
    | Panicked msg =>
        msg = err /\ acts tr = [Offered (errChan h) (unroll_message h err) false]
    | Blocked => acts tr = [Stuck]
    end).
Proof.
  unfold sendError, bind, get, call, ret, panic. cbn.
  apply always_vis; [reflexivity|]. intros [|].
  - apply always_ret. split; reflexivity.
  - apply always_panic. split; reflexivity.
Qed.

Lemma unroll_runs (h : HAProxyManager) clk :
  always clk (unroll h) (fun o _ tr => unroll_run h o (acts tr)).
Proof.
  unfold unroll, bind, get. cbn [pbind fst snd]. apply always_bind.
  eapply always_mono; [apply write_runs|]. cbn.
  intros o c tr H. remember (acts tr) as a eqn:Ha. destruct H as [|err a Hf|a Hs]; cbn.
  - apply always_ret. rewrite app_nil_r, <- Ha. apply ur_restored.
  - eapply always_mono; [apply sendError_runs|]. cbn.
    intros [[[] h']| |] c' tr' H'; rewrite acts_app, <- Ha.
    + destruct H' as [-> ->]. apply ur_reported. exact Hf.
    + destruct H' as [-> ->]. apply ur_panicked. exact Hf.
    + rewrite H'. apply ur_stuck, stuck_app, stuck_one.
  - apply ur_stuck. exact Hs.
Qed.

End ManagerRuns.
Section ReloadRuns.
Import HAProxy HAProxyActs HAProxyRuns.

Lemma Reload_runs (p : slice uint16) (h : HAProxyManager) clk :
  always clk (Reload p h) (fun o _ tr => Reload_run h p o (acts tr)).
Proof.
  unfold Reload, bind, get. cbn [pbind fst snd].
  destruct (DeepEqual uint16_eqb p (ports h)) eqn:Heq.
  { apply DeepEqual_eq in Heq; [|apply uint16_eqb_eq]. apply always_ret, rl_same, Heq. }
  assert (Hne : p <> ports h).
  { intros ->. rewrite DeepEqual_ports_refl in Heq. discriminate. }
  clear Heq. apply always_bind.
  eapply always_mono; [apply render_runs|]. cbn.
  intros [[[b|err] h']| |] c tr H.
  - destruct H as (-> & Hlen & Hr). cbn [fst snd]. apply always_bind.
    eapply always_mono; [apply write_runs|]. cbn.
    intros o c1 tr1 H. remember (acts tr1) as a1 eqn:Ha1.
    destruct H as [|werr a1 Hf|a1 Hs]; cbn.
    + unfold reload, bind, get, call, panic. cbn. apply always_vis.
      { rewrite !acts_app, Hr, <- Ha1. apply rl_stuck.
        apply stuck_app, stuck_app, stuck_one. }
      intros [|[serr|]]; cbn.
      * apply always_panic. rewrite !acts_app, Hr, <- Ha1. cbn.
        change (Reload_run h p (Panicked nil_dereference)
                  ((warnings h p ++ [Executed (contexts h p) (Ok b)]) ++
                   written (filename h) b ++ [Unstarted (listenAddr h)])).
        replace ((warnings h p ++ [Executed (contexts h p) (Ok b)]) ++
                  written (filename h) b ++ [Unstarted (listenAddr h)])
          with (rendered_and_written h p b ++ [Unstarted (listenAddr h)])
          by (unfold rendered_and_written; rewrite <- !app_assoc; reflexivity).
        apply rl_no_process, Hne.
      * apply always_bind. eapply always_mono; [apply unroll_runs|]. cbn.
        intros o c2 tr2 H. remember (acts tr2) as a2 eqn:Ha2.
        assert (Hsplit : forall tr3, acts (tr ++ tr1 ++ Entry (Signal_SIGHUP (listenAddr h)) (Some (SignalReturned (Some serr))) :: tr2 ++ tr3)
                  = rendered_and_written h p b ++ Signalled (listenAddr h) (Some serr) :: a2 ++ acts tr3).
        { intros tr3. rewrite !acts_app, Hr, <- Ha1. cbn. rewrite acts_app, <- Ha2.
          unfold rendered_and_written. rewrite <- !app_assoc. reflexivity. }
        destruct o as [[[] h2]|msg|].
        -- assert (h2 = h) as -> by (inversion H; reflexivity).
           apply always_ret. rewrite Hsplit. cbn. rewrite app_nil_r.
           apply rl_unrolled; assumption.
        -- specialize (Hsplit []). rewrite !app_nil_r in Hsplit. cbn in Hsplit.
           rewrite Hsplit. eapply rl_unroll_panicked; eassumption.
        -- specialize (Hsplit []). rewrite !app_nil_r in Hsplit. cbn in Hsplit.
           rewrite Hsplit. apply rl_stuck, stuck_app, stuck_cons.
           inversion H; assumption.
      * apply always_ret. rewrite !acts_app, Hr, <- Ha1. cbn.
        change (Reload_run h p (Returned (None, set_ports p (set_rendered b h)))
                  ((warnings h p ++ [Executed (contexts h p) (Ok b)]) ++
                   written (filename h) b ++ [Signalled (listenAddr h) None])).
        replace ((warnings h p ++ [Executed (contexts h p) (Ok b)]) ++
                  written (filename h) b ++ [Signalled (listenAddr h) None])
          with (rendered_and_written h p b ++ [Signalled (listenAddr h) None])
          by (unfold rendered_and_written; rewrite <- !app_assoc; reflexivity).
        apply rl_done, Hne.
    + apply always_ret. rewrite !acts_app, Hr, <- Ha1, app_nil_r, <- app_assoc. cbn.
      apply rl_write_failed; assumption.
    + rewrite acts_app, Hr, <- app_assoc, <- Ha1. apply rl_stuck, stuck_app. cbn.
      apply stuck_cons. exact Hs.
  - destruct H as (-> & Hlen & Hr). cbn. apply always_ret.
    rewrite app_nil_r, Hr. apply rl_render_failed, Hne.
  - destruct H as (Hlen & -> & Hr). rewrite Hr. apply rl_render_panicked; assumption.
  - apply rl_stuck, H.
Qed.

End ReloadRuns.

(** ** [render], [Reload]: what a caller can rely on *)

Section ManagerProperties.
Import HAProxy HAProxyActs HAProxyRuns.

Lemma contexts_lookup (h : HAProxyManager) (p : slice uint16) k port :
  elems p !! k = Some port -> contexts h p !! k = Some (context_at h k port).
Proof. intros Hk. unfold contexts. rewrite list_lookup_imap, Hk. reflexivity. Qed.

(** X1.  [render] returns only when the ports outnumber the service addresses by
    at most one, and leaves the manager as it is.  It then has executed the
    template once, after at most one warning, and returns the template's
    answer.  The template is handed one context per port, in the order of
    the ports: the port paired with the listen address and the service
    address of the same index, or, for the one port past the last service
    address, the zero context.  It panics only when the ports outnumber the
    service addresses by two or more. *)
Theorem render_hands_template_one_context_per_port
    (p : slice uint16) (h : HAProxyManager) clk :
  always clk (render p h) (fun o _ tr =>
    (forall r h', o = Returned (r, h') ->
       h' = h /\ len p <= len (serviceAddrs h) + 1 /\
       acts tr = warnings h p ++ [Executed (contexts h p) r]) /\
    (forall msg, o = Panicked msg -> len (serviceAddrs h) + 2 <= len p)) /\
  length (contexts h p) = len p /\
  (forall k port dest,
     elems p !! k = Some port -> elems (serviceAddrs h) !! k = Some dest ->
     contexts h p !! k = Some {| Port := port; Source := listenAddr h; Dest := dest |}) /\
  (forall k port,
     elems p !! k = Some port -> len (serviceAddrs h) <= k ->
     contexts h p !! k = Some zero_templateContext).
Proof.
  split; [|split; [|split]].
  - eapply always_mono; [apply render_runs|]. cbn.
    intros [[r h']| |] c tr H; (split; [intros r0 h0 [=]|intros msg0 [=]]); subst.
    + exact H.
    + apply H.
  - unfold contexts. rewrite length_imap. reflexivity.
  - intros k port dest Hk Hd. rewrite (contexts_lookup h p k Hk).
    unfold context_at. rewrite Hd. reflexivity.
  - intros k port Hk Hn. rewrite (contexts_lookup h p k Hk).
    rewrite context_at_beyond by exact Hn. reflexivity.
Qed.

(** X2.  When [Reload] returns nil, either the ports were the instance's own and
    nothing was called, or: the template was executed on the contexts of
    the new ports and answered some bytes, the configuration file was
    opened, written with exactly these bytes and closed, one SIGHUP was sent
    after that and answered nil, nothing else was called, and the manager
    now holds the new ports and, as [rendered], the bytes that are in the
    file. *)
Theorem Reload_nil_means_written_then_signalled
    (p : slice uint16) (h : HAProxyManager) clk :
  always clk (Reload p h) (fun o _ tr =>
    forall h', o = Returned (None, h') ->
      (p = ports h /\ h' = h /\ tr = []) \/
      (p <> ports h /\ exists b,
         h' = set_ports p (set_rendered b h) /\
         acts tr = warnings h p ++
                   [Executed (contexts h p) (Ok b);
                    Opened (filename h) None; Wrote (filename h) b None;
                    Closed (filename h); Signalled (listenAddr h) None])).
Proof.
  eapply always_mono; [apply Reload_runs|]. cbn.
  intros o c tr H h' ->. remember (acts tr) as a eqn:Ha.
  inversion H as [Hp| | | | |b Hp| | |]; subst.
  - left. split; [reflexivity|]. split; [reflexivity|].
    destruct tr; [reflexivity|discriminate].
  - right. split; [assumption|]. exists b. split; [reflexivity|].
    unfold rendered_and_written, written. rewrite <- app_assoc. reflexivity.
Qed.

(** X3.  When [Reload] returns an error the manager is left as it was, and the
    error tells how far the reload got:
    - the template failed, and no file was touched;
    - the template answered bytes but the file could not be opened, or was
      opened (so truncated) and the write of these bytes failed; no signal
      was sent;
    - the new bytes were written and the SIGHUP was answered with an
      error: then [unroll] ran, writing the manager's [rendered] bytes to
      the same file, and where that write failed the failure was queued on
      the error channel.
    In no case is a signal sent before the new configuration is written. *)
Theorem Reload_error_tells_how_far_it_got
    (p : slice uint16) (h : HAProxyManager) clk :
  always clk (Reload p h) (fun o _ tr =>
    forall e h', o = Returned (Some e, h') ->
      h' = h /\ p <> ports h /\
      ((exists err,
          e = "error rendering configuration. " +:+ err /\
          acts tr = warnings h p ++ [Executed (contexts h p) (Err err)]) \/
       (exists b err a,
          e = "error writing configuration. " +:+ err /\
          write_failed h b err a /\
          acts tr = warnings h p ++ Executed (contexts h p) (Ok b) :: a) \/
       (exists b err ua,
          e = "unable to reload haproxy. " +:+ err /\
          acts tr = rendered_and_written h p b ++
                    Signalled (listenAddr h) (Some err) :: ua /\
          (ua = written (filename h) (rendered h) \/
           exists werr a,
             write_failed h (rendered h) werr a /\
             ua = a ++ [Offered (errChan h) (unroll_message h werr) true])))).
Proof.
  eapply always_mono; [apply Reload_runs|]. cbn.
  intros o c tr H e h' ->. remember (acts tr) as a eqn:Ha.
  inversion H as [|err Hp| |b err a' Hp Hf| | |b err ua Hp Hu| |]; subst.
  - split; [reflexivity|]. split; [assumption|]. left. exists err. split; reflexivity.
  - split; [reflexivity|]. split; [assumption|]. right; left. exists b, err, a'.
    split; [reflexivity|]. split; [assumption|reflexivity].
  - split; [reflexivity|]. split; [assumption|]. right; right. exists b, err, ua.
    split; [reflexivity|]. split; [reflexivity|].
    inversion Hu as [|werr a' Hf| |]; subst.
    + left. reflexivity.
    + right. exists werr, a'. split; [assumption|reflexivity].
Qed.

(** X4.  [Reload] panics in three situations only: in [render], when the new
    ports outnumber the service addresses by two or more (after the warning
    and before the template is executed); in [reload], when the new
    configuration has been written and the process handle that
    [h.cmd.Process.Signal] dereferences is nil (no signal is sent and
    nothing is unrolled); or when the new configuration was written, the
    SIGHUP failed, the write of [unroll] failed as well and the error
    channel did not take the report.  It then panics with the error of that
    last write. *)
Theorem Reload_panics_in_render_reload_or_unroll
    (p : slice uint16) (h : HAProxyManager) clk :
  always clk (Reload p h) (fun o _ tr =>
    forall msg, o = Panicked msg ->
      (len (serviceAddrs h) + 2 <= len p /\
       msg = "runtime error: index out of range" /\
       acts tr = [Warned (len (serviceAddrs h))]) \/
      (msg = nil_dereference /\
       exists b,
         acts tr = rendered_and_written h p b ++ [Unstarted (listenAddr h)]) \/
      (exists b err a,
         write_failed h (rendered h) msg a /\
         acts tr = rendered_and_written h p b ++
                   Signalled (listenAddr h) (Some err) :: a ++
                   [Offered (errChan h) (unroll_message h msg) false])).
Proof.
  eapply always_mono; [apply Reload_runs|]. cbn.
  intros o c tr H msg ->. remember (acts tr) as a eqn:Ha.
  inversion H as [| |Hp Hlen| |b Hp| | |b err msg' ua Hp Hu|]; subst.
  - left. split; [assumption|]. split; reflexivity.
  - right; left. split; [reflexivity|]. exists b. reflexivity.
  - right; right. inversion Hu as [| |werr a' Hf|]; subst.
    exists b, err, a'. split; [assumption|reflexivity].
Qed.

(** The nil process handle in a run: a [Reload] to port 443 that finds no
    started process panics after it has written the new configuration,
    which stays in the file. *)
Lemma Reload_before_process_started_panics :
  let p := Slice [443%Z] in
  let b := Examples.example_execute (contexts Examples.example_manager p) in
  let f := run (Reload p Examples.example_manager) MoreExamples.unstarted_handler
               (Examples.example_os []) 0 in
  out f = Panicked nil_dereference /\
  files (world f) !! filename Examples.example_manager = Some b /\
  acts (trace f) = rendered_and_written Examples.example_manager p b ++
                   [Unstarted "fd00::1"].
Proof. vm_compute. repeat split; reflexivity. Qed.

End ManagerProperties.

(** ** [NewHAProxy] and the set manager *)

Section SetManagerRuns.
Import HAProxy HAProxyActs HAProxyRuns HAProxySetRuns.

Lemma NewHAProxy_runs c bin dir addr (sa : slice string) (p : slice uint16) ch clk :
  always clk (NewHAProxy c bin dir addr sa p ch) (fun o _ tr =>
    NewHAProxy_run (fresh_manager c bin dir addr sa p ch) o (acts tr)).
Proof.
  unfold NewHAProxy. cbn [pbind].
  apply always_vis; [apply nh_stuck, stuck_one|]. intros [err|]; cbn [pbind].
  { apply always_ret. apply nh_parse_failed. }
  fold (fresh_manager c bin dir addr sa p ch). set (h0 := fresh_manager c bin dir addr sa p ch).
  apply always_bind. eapply always_mono; [apply render_runs|]. cbn.
  intros [[[b|err] h']| |] c1 tr H.
  - destruct H as (-> & Hlen & Hr). cbn [fst snd]. apply always_bind.
    eapply always_mono; [apply write_runs|]. cbn.
    intros o c2 tr1 H. remember (acts tr1) as a1 eqn:Ha1.
    destruct H as [|werr a1 Hf|a1 Hs]; cbn.
    + apply always_vis.
      { rewrite !acts_app, Hr, <- Ha1. apply nh_stuck, stuck_cons.
        apply stuck_app, stuck_app, stuck_one. }
      intros []. apply always_ret. rewrite !acts_app, Hr, <- Ha1. cbn.
      change (NewHAProxy_run h0 (Returned (Ok h0))
                (Parsed None :: (warnings h0 (ports h0) ++ [Executed (contexts h0 (ports h0)) (Ok b)]) ++
                   written (filename h0) b ++ [Spawned (listenAddr h0) (hctx h0)])).
      replace ((warnings h0 (ports h0) ++ [Executed (contexts h0 (ports h0)) (Ok b)]) ++
                written (filename h0) b ++ [Spawned (listenAddr h0) (hctx h0)])
        with (rendered_and_written h0 (ports h0) b ++ [Spawned (listenAddr h0) (hctx h0)])
        by (unfold rendered_and_written; rewrite <- !app_assoc; reflexivity).
      apply nh_started.
    + apply always_ret. rewrite !acts_app, Hr, <- Ha1, app_nil_r, <- app_assoc. cbn.
      apply (@nh_write_failed h0 b werr a1 Hf).
    + rewrite acts_app, Hr, <- app_assoc, <- Ha1. apply nh_stuck, stuck_cons, stuck_app. cbn.
      apply stuck_cons. exact Hs.
  - destruct H as (-> & Hlen & Hr). cbn. apply always_ret.
    change (map act_of) with acts. rewrite app_nil_r, Hr. apply (@nh_render_failed h0).
  - destruct H as (Hlen & -> & Hr). change (map act_of) with acts. rewrite Hr.
    apply (@nh_render_panicked h0). exact Hlen.
  - apply nh_stuck, stuck_cons, H.
Qed.

Lemma existsb_warnings (f : act -> bool) (h : HAProxyManager) (p : slice uint16) :
  (forall i, f (Warned i) = false) -> existsb f (warnings h p) = false.
Proof.
  intros Hf. unfold warnings. destruct (Nat.ltb _ _); cbn; [rewrite Hf|]; reflexivity.
Qed.

Lemma NewHAProxy_error_starts_nothing (h0 : HAProxyManager) err a :
  NewHAProxy_run h0 (Returned (Err err)) a ->
  existsb is_Spawned a = false /\ existsb is_Signalled a = false.
Proof.
  intros H. inversion H as [e|e| |b e a' Hf| |]; subst; cbn.
  - split; reflexivity.
  - rewrite !existsb_app, !existsb_warnings by reflexivity. split; reflexivity.
  - rewrite !existsb_app, !existsb_warnings by reflexivity.
    destruct Hf; split; reflexivity.
Qed.

(** X5.  [NewHAProxy] returns a manager only after the template was parsed and
    executed and the configuration file was opened, written with the
    template's bytes and closed; the [run] goroutine is started last, for
    the listen address and under the context given.  The manager returned
    holds the arguments and no [rendered] bytes.  When [NewHAProxy] returns
    an error or panics, no goroutine was started; and no run that returns
    or panics has sent a signal. *)
Theorem NewHAProxy_starts_process_after_bootstrap_write
    c bin dir addr (sa : slice string) (p : slice uint16) ch clk :
  always clk (NewHAProxy c bin dir addr sa p ch) (fun o _ tr =>
    (forall h, o = Returned (Ok h) ->
       h = fresh_manager c bin dir addr sa p ch /\
       exists b,
         acts tr = Parsed None :: warnings h p ++
                   [Executed (contexts h p) (Ok b);
                    Opened (filename h) None; Wrote (filename h) b None;
                    Closed (filename h); Spawned addr c]) /\
    (forall err, o = Returned (Err err) -> existsb is_Spawned (acts tr) = false) /\
    (forall msg, o = Panicked msg ->
       len sa + 2 <= len p /\ existsb is_Spawned (acts tr) = false) /\
    (o <> Blocked -> existsb is_Signalled (acts tr) = false)).
Proof.
  eapply always_mono; [apply NewHAProxy_runs|]. cbn.
  intros o _ tr H. set (h0 := fresh_manager c bin dir addr sa p ch) in *.
  refine (conj _ (conj _ (conj _ _))).
  - intros h ->. inversion H as [| | | |b|]; subst.
    split; [reflexivity|]. exists b.
    unfold rendered_and_written, written. rewrite <- app_assoc. reflexivity.
  - intros err ->. apply (proj1 (NewHAProxy_error_starts_nothing H)).
  - intros msg ->. inversion H as [| |Hlen| | |]; subst.
    split; [exact Hlen|reflexivity].
  - intros Hnb. destruct o as [[h|err]|msg|]; [| | |contradiction].
    + inversion H as [| | | |b|]; subst. cbn.
      unfold rendered_and_written. rewrite !existsb_app, existsb_warnings by reflexivity.
      reflexivity.
    + apply (proj2 (NewHAProxy_error_starts_nothing H)).
    + inversion H; subst. reflexivity.
Qed.

(** Every run of [Configure]: on a known address it is [Reload] of the
    instance; on an unknown one a context is derived, [NewHAProxy] is
    called, and its instance is registered or its error logged and the
    context cancelled. *)
Lemma Configure_runs (v : VIPConfig) (s : HAProxySetManager) clk :
  always clk (Configure v s) (fun o _ tr =>
    match sources s !! Addr6 v with
    | Some inst =>
        match o with
        | Returned (e, s') =>
            exists inst',
              s' = with_maps (<[Addr6 v := inst']> (sources s)) (cancelFuncs s) s /\
              Reload_run inst (ListenPorts v) (Returned (e, inst')) (acts tr)
        | Panicked msg => Reload_run inst (ListenPorts v) (Panicked msg) (acts tr)
        | Blocked => stuck (acts tr)
        end
    | None =>
        match o with
        | Returned (e, s') =>
            exists c2 pre,
              let h0 := fresh_manager c2 (set_binary s) (set_configDir s) (Addr6 v)
                          (ServiceAddrs v) (ListenPorts v) (set_errChan s) in
              match e with
              | None =>
                  s' = with_maps (<[Addr6 v := h0]> (sources s))
                                 (<[Addr6 v := c2]> (cancelFuncs s)) s /\
                  NewHAProxy_run h0 (Returned (Ok h0)) pre /\
                  acts tr = Derived (set_ctx s) c2 :: pre
              | Some err =>
                  s' = s /\
                  NewHAProxy_run h0 (Returned (Err err)) pre /\
                  acts tr = Derived (set_ctx s) c2 :: pre ++
                    [Logged ("error creating new haproxy. canceling context. " +:+ err);
                     Cancelled c2]
              end
        | Panicked msg => len (ServiceAddrs v) + 2 <= len (ListenPorts v)
        | Blocked => stuck (acts tr)
        end
    end).
Proof.
  unfold Configure, bind, get, call, ret, modify. cbn.
  destruct (sources s !! Addr6 v) as [inst|] eqn:Hl.
  - unfold Reload_in_set. rewrite Hl. apply always_bind.
    eapply always_mono; [apply Reload_runs|]. cbn.
    intros [[e inst']| |] c tr H.
    + apply always_ret. exists inst'. rewrite app_nil_r. split; [reflexivity|exact H].
    + exact H.
    + inversion H; assumption.
  - apply always_vis; [apply stuck_one|]. intros c2. cbn.
    apply always_bind. apply always_bind. eapply always_mono; [apply NewHAProxy_runs|].
    set (h0 := fresh_manager c2 (set_binary s) (set_configDir s) (Addr6 v)
                 (ServiceAddrs v) (ListenPorts v) (set_errChan s)).
    intros [r| |] c tr H; cbn.
    + apply always_ret. cbn. destruct r as [instance|err]; cbn.
      * assert (instance = h0) as -> by (inversion H; reflexivity).
        unfold Reload_in_set. cbn. rewrite lookup_insert_eq.
        change (ListenPorts v) with (ports h0) at 1. rewrite Reload_same_ports. cbn.
        apply always_ret. exists c2, (acts tr).
        change (map act_of) with acts. rewrite !app_nil_r.
        split; [|split; [exact H|reflexivity]].
        unfold with_maps. cbn. rewrite insert_insert_eq. reflexivity.
      * apply always_vis.
        { change (map act_of) with acts. rewrite acts_app. cbn.
          apply stuck_cons, stuck_app, stuck_one. }
        intros []. cbn. apply always_vis.
        { change (map act_of) with acts. rewrite !acts_app. cbn.
          apply stuck_cons, stuck_app, stuck_cons, stuck_one. }
        intros []. apply always_ret. exists c2, (acts tr).
        change (map act_of) with acts. rewrite !acts_app. cbn.
        split; [reflexivity|]. split; [exact H|]. rewrite app_nil_r. reflexivity.
    + inversion H; assumption.
    + apply stuck_cons. inversion H; assumption.
Qed.

End SetManagerRuns.

(** ** [Configure] *)

Section ConfigureProperties.
Import HAProxy HAProxyActs HAProxyRuns HAProxySetRuns Examples MoreExamples.

Lemma always_mbind {E R A B} clk (m : M E R A) (f : A -> M E R B) (r : R)
    (Q : outcome (B * R) -> time -> list (entry E) -> Prop) :
  always clk (m r) (fun o c tr =>
    match o with
    | Returned (a, r') => always c (f a r') (fun o' c' tr' => Q o' c' (tr ++ tr'))
    | Panicked msg => Q (Panicked msg) c tr
    | Blocked => Q Blocked c tr
    end) ->
  always clk (bind m f r) Q.
Proof.
  intros H. unfold bind. apply always_bind. eapply always_mono; [exact H|].
  intros [[a r']| |] c tr Ho; exact Ho.
Qed.

Lemma NewHAProxy_started_acts (h0 : HAProxyManager) pre :
  NewHAProxy_run h0 (Returned (Ok h0)) pre ->
  exists b,
    pre = Parsed None :: warnings h0 (ports h0) ++
          [Executed (contexts h0 (ports h0)) (Ok b);
           Opened (filename h0) None; Wrote (filename h0) b None;
           Closed (filename h0); Spawned (listenAddr h0) (hctx h0)].
Proof.
  intros H. inversion H as [| | | |b|]; subst. exists b.
  unfold rendered_and_written, written. rewrite <- app_assoc. reflexivity.
Qed.

Lemma NewHAProxy_error_cancels_nothing (h0 : HAProxyManager) err a :
  NewHAProxy_run h0 (Returned (Err err)) a -> existsb is_Cancelled a = false.
Proof.
  intros H. inversion H as [e|e| |b e a' Hf| |]; subst; cbn.
  - reflexivity.
  - rewrite !existsb_app, !existsb_warnings by reflexivity. reflexivity.
  - rewrite !existsb_app, !existsb_warnings by reflexivity.
    destruct Hf; reflexivity.
Qed.

(** X6.  [Configure] for a listen address the set does not know yet.  A context
    is derived from the set's context and the instance is created under
    it.  When [Configure] returns nil, the instance and the derived context
    are registered under the address, the instance holding the service
    addresses and ports of the configuration; the calls were: derive the
    context, parse and execute the template, open, write and close the
    configuration file, start the process, and no SIGHUP at all.  When it
    returns an error the set is left as it was, no process was
    started, no signal sent, and the last two calls log the error and cancel
    the derived context. *)
Theorem Configure_unknown_address_creates_or_cancels
    (v : VIPConfig) (s : HAProxySetManager) clk :
  sources s !! Addr6 v = None ->
  always clk (Configure v s) (fun o _ tr =>
    (forall s', o = Returned (None, s') ->
       exists c2 inst b,
         inst = fresh_manager c2 (set_binary s) (set_configDir s) (Addr6 v)
                  (ServiceAddrs v) (ListenPorts v) (set_errChan s) /\
         s' = with_maps (<[Addr6 v := inst]> (sources s))
                        (<[Addr6 v := c2]> (cancelFuncs s)) s /\
         acts tr = Derived (set_ctx s) c2 :: Parsed None ::
                   warnings inst (ListenPorts v) ++
                   [Executed (contexts inst (ListenPorts v)) (Ok b);
                    Opened (filename inst) None; Wrote (filename inst) b None;
                    Closed (filename inst); Spawned (Addr6 v) c2]) /\
    (forall err s', o = Returned (Some err, s') ->
       s' = s /\
       exists c2 pre,
         acts tr = Derived (set_ctx s) c2 :: pre ++
                   [Logged ("error creating new haproxy. canceling context. " +:+ err);
                    Cancelled c2] /\
         existsb is_Spawned pre = false /\
         existsb is_Signalled pre = false /\
         existsb is_Cancelled pre = false)).
Proof.
  intros Hl. eapply always_mono; [apply Configure_runs|]. cbn beta.
  intros o c tr H. rewrite Hl in H. split.
  - intros s' ->. destruct H as (c2 & pre & Hs & Hrun & Hacts).
    destruct (NewHAProxy_started_acts Hrun) as [b Hpre].
    eexists c2, _, b. split; [reflexivity|]. split; [exact Hs|].
    rewrite Hacts, Hpre. reflexivity.
  - intros err s' ->. destruct H as (c2 & pre & Hs & Hrun & Hacts).
    split; [exact Hs|]. exists c2, pre. split; [exact Hacts|].
    split; [exact (proj1 (NewHAProxy_error_starts_nothing Hrun))|].
    split; [exact (proj2 (NewHAProxy_error_starts_nothing Hrun))|].
    exact (NewHAProxy_error_cancels_nothing Hrun).
Qed.

Lemma Configure_unknown_address_creates_or_cancels_witness :
  sources example_set !! Addr6 (second_config [80%Z]) = None /\
  let f := run (Configure (second_config [80%Z]) example_set) os_handler (example_os []) 0 in
  exists s' c2 b,
    out f = Returned (None, s') /\
    cancelFuncs s' = <["fd00::2" := c2]> (cancelFuncs example_set) /\
    acts (trace f) =
      [Derived 0 c2; Parsed None;
       Executed [{| Port := 80%Z; Source := "fd00::2"; Dest := "10.96.0.11:80" |}] (Ok b);
       Opened "/etc/ravel/fd00::2.conf" None; Wrote "/etc/ravel/fd00::2.conf" b None;
       Closed "/etc/ravel/fd00::2.conf"; Spawned "fd00::2" c2].
Proof.
  split; [reflexivity|]. cbv zeta.
  assert (Hout : exists s', out (run (Configure (second_config [80%Z]) example_set)
                                   os_handler (example_os []) 0) = Returned (None, s')).
  { eexists. vm_compute. reflexivity. }
  destruct Hout as [s' Hout].
  destruct (proj1 (@Configure_unknown_address_creates_or_cancels
                     (second_config [80%Z]) example_set 0 eq_refl
                     os os_handler (example_os [])) s' Hout)
    as (c2 & inst & b & Hinst & Hs & Hacts).
  exists s', c2, b. split; [exact Hout|]. split; [rewrite Hs; reflexivity|].
  rewrite Hacts, Hinst. reflexivity.
Defined.

Lemma Reload_run_keeps_addresses (inst inst' : HAProxyManager) (p : slice uint16) e a :
  Reload_run inst p (Returned (e, inst')) a ->
  listenAddr inst' = listenAddr inst /\ serviceAddrs inst' = serviceAddrs inst /\
  hctx inst' = hctx inst /\ errChan inst' = errChan inst /\
  (e = None -> ports inst' = p).
Proof.
  intros H. inversion H; subst; cbn; repeat split; try reflexivity; try discriminate.
Qed.

(** X7.  [Configure] for a listen address the set already knows never looks at
    the service addresses of the configuration: two configurations that
    agree on the listen address and the ports are the same program.  After
    it returns, with or without an error, the instance under the address
    still holds the service addresses it was created with, the cancel
    functions and the other instances are as before, and when it returned
    nil the instance holds the new ports. *)
Theorem Configure_known_address_keeps_service_addresses
    (v v' : VIPConfig) (s : HAProxySetManager) (inst : HAProxyManager) clk :
  sources s !! Addr6 v = Some inst ->
  Addr6 v' = Addr6 v -> ListenPorts v' = ListenPorts v ->
  Configure v' s = Configure v s /\
  always clk (Configure v s) (fun o _ tr =>
    forall e s', o = Returned (e, s') ->
      exists inst',
        sources s' = <[Addr6 v := inst']> (sources s) /\
        cancelFuncs s' = cancelFuncs s /\
        serviceAddrs inst' = serviceAddrs inst /\
        listenAddr inst' = listenAddr inst /\
        (e = None -> ports inst' = ListenPorts v)).
Proof.
  intros Hl Ha Hp. split.
  - unfold Configure, bind, get. cbn. rewrite Ha, Hp, Hl. reflexivity.
  - eapply always_mono; [apply Configure_runs|]. cbn beta.
    intros o c tr H e s' ->. rewrite Hl in H. destruct H as (inst' & -> & Hrun).
    destruct (Reload_run_keeps_addresses Hrun) as (Hla & Hsa & _ & _ & Hports).
    exists inst'. cbn. repeat split; assumption.
Qed.

Lemma Configure_known_address_keeps_service_addresses_witness :
  sources example_set !! Addr6 (example_config [443%Z]) = Some example_manager /\
  Configure (moved_config [443%Z]) example_set = Configure (example_config [443%Z]) example_set /\
  let f := run (Configure (moved_config [443%Z]) example_set) os_handler (example_os []) 0 in
  exists s' inst',
    out f = Returned (None, s') /\
    sources s' = <["fd00::1" := inst']> (sources example_set) /\
    serviceAddrs inst' = Slice ["10.96.0.10:80"] /\
    ports inst' = Slice [443%Z].
Proof.
  split; [reflexivity|].
  pose proof (@Configure_known_address_keeps_service_addresses
                (example_config [443%Z]) (moved_config [443%Z]) example_set
                example_manager 0 eq_refl eq_refl eq_refl) as [Heq H].
  split; [exact Heq|]. cbv zeta. rewrite Heq.
  assert (Hout : exists s', out (run (Configure (example_config [443%Z]) example_set)
                                   os_handler (example_os []) 0) = Returned (None, s')).
  { eexists. vm_compute. reflexivity. }
  destruct Hout as [s' Hout].
  destruct (H os os_handler (example_os []) None s' Hout) as (inst' & Hs & _ & Hsa & _ & Hp).
  exists s', inst'. split; [exact Hout|]. split; [exact Hs|].
  split; [exact Hsa|]. exact (Hp eq_refl).
Defined.

End ConfigureProperties.

(** ** [StopOne], [StopAll] and the supervisor loop *)

Section SupervisorProperties.
Import HAProxy HAProxyActs HAProxyRuns HAProxySetRuns Examples MoreExamples.

Lemma StopOne_runs (addr : string) (s : HAProxySetManager) clk :
  always clk (StopOne addr s) (fun o _ tr =>
    match cancelFuncs s !! addr with
    | None => o = Returned (tt, s) /\ tr = []
    | Some c =>
        (o = Returned (tt, s) /\ acts tr = [Cancelled c]) \/
        (o = Blocked /\ acts tr = [Stuck])
    end).
Proof.
  unfold StopOne, bind, get, call, ret. cbn.
  destruct (cancelFuncs s !! addr) as [c|]; cbn.
  - apply always_vis; [right; split; reflexivity|]. intros [].
    apply always_ret. left. split; reflexivity.
  - apply always_ret. split; reflexivity.
Qed.

Lemma StopAll_runs (s : HAProxySetManager) clk :
  always clk (StopAll s) (fun o _ tr =>
    match o with
    | Returned (_, s') =>
        exists c2,
          s' = {| sources := ∅; cancelFuncs := ∅; set_errChan := set_errChan s;
                  set_binary := set_binary s; set_configDir := set_configDir s;
                  set_ctx := c2; parentCtx := parentCtx s |} /\
          acts tr = [Cancelled (set_ctx s); Derived (parentCtx s) c2]
    | Panicked _ => False
    | Blocked => stuck (acts tr)
    end).
Proof.
  unfold StopAll, bind, get, call, put. cbn.
  apply always_vis; [apply stuck_one|]. intros []. cbn.
  apply always_vis; [apply stuck_cons, stuck_one|]. intros c2. cbn.
  apply always_ret. exists c2. split; reflexivity.
Qed.

Lemma run_received_runs (ie : HAProxyError) (s : HAProxySetManager) clk :
  always clk (run_received ie s) (fun o _ tr =>
    match o with
    | Returned (_, s') =>
        exists c2 pre,
          let h0 := fresh_manager c2 (set_binary s) (set_configDir s) (err_Source ie)
                      (err_Dest ie) (err_Ports ie) (set_errChan s) in
          (s' = with_maps (<[err_Source ie := h0]> (sources s))
                          (<[err_Source ie := c2]> (cancelFuncs s)) s /\
           NewHAProxy_run h0 (Returned (Ok h0)) pre /\
           acts tr = Logged ("got error from instance. " +:+ err_Error ie) ::
                     Derived (set_ctx s) c2 :: pre) \/
          (exists err,
             s' = with_maps (delete (err_Source ie) (sources s))
                            (delete (err_Source ie) (cancelFuncs s)) s /\
             NewHAProxy_run h0 (Returned (Err err)) pre /\
             acts tr = Logged ("got error from instance. " +:+ err_Error ie) ::
                       Derived (set_ctx s) c2 :: pre ++
                       [Logged ("error recreating haproxy. canceling context. " +:+ err);
                        Cancelled c2; Sent (set_errChan s) ie])
    | Panicked _ => len (err_Dest ie) + 2 <= len (err_Ports ie)
    | Blocked => stuck (acts tr)
    end).
Proof.
  unfold run_received, bind, get, call, ret, modify. cbn.
  apply always_vis; [apply stuck_one|]. intros []. cbn.
  apply always_vis; [apply stuck_cons, stuck_one|]. intros c2. cbn.
  apply always_bind. apply always_bind. eapply always_mono; [apply NewHAProxy_runs|].
  set (h0 := fresh_manager c2 (set_binary s) (set_configDir s) (err_Source ie)
               (err_Dest ie) (err_Ports ie) (set_errChan s)).
  change (map act_of) with acts.
  intros [r| |] c tr H; cbn.
  - apply always_ret. cbn. destruct r as [instance|err]; cbn.
    + assert (instance = h0) as -> by (inversion H; reflexivity).
      apply always_ret. exists c2, (acts tr). left.
      change (map act_of) with acts. rewrite !app_nil_r.
      split; [|split; [exact H|reflexivity]].
      unfold with_maps. cbn. rewrite !insert_delete_eq. reflexivity.
    + apply always_vis.
      { change (map act_of) with acts. rewrite acts_app. cbn.
        apply stuck_cons, stuck_cons, stuck_app, stuck_one. }
      intros []. cbn. apply always_vis.
      { change (map act_of) with acts. rewrite !acts_app. cbn.
        apply stuck_cons, stuck_cons, stuck_app, stuck_cons, stuck_one. }
      intros []. cbn. apply always_vis.
      { change (map act_of) with acts. rewrite !acts_app. cbn.
        apply stuck_cons, stuck_cons, stuck_app, stuck_cons, stuck_cons, stuck_one. }
      intros []. apply always_ret. exists c2, (acts tr). right. exists err.
      change (map act_of) with acts. rewrite !acts_app. cbn.
      split; [reflexivity|]. split; [exact H|]. rewrite app_nil_r. reflexivity.
  - change (map act_of) with acts. inversion H; assumption.
  - change (map act_of) with acts. apply stuck_cons, stuck_cons. inversion H; assumption.
Qed.

(** X8.  The two maps of the set manager know the same listen addresses: this
    holds of the manager [NewHAProxySet] returns, and every method that
    returns ([Configure] with or without an error, [StopOne], [StopAll],
    [GetRemovals] and a turn of the supervisor loop) hands it on. *)
Theorem set_maps_know_the_same_addresses clk :
  (forall c bin dir,
     always clk (NewHAProxySet c bin dir) (fun o _ _ =>
       forall s, o = Returned s -> maps_agree s)) /\
  (forall s, maps_agree s ->
     (forall v, always clk (Configure v s) (fun o _ _ =>
        forall e s', o = Returned (e, s') -> maps_agree s')) /\
     (forall addr, always clk (StopOne addr s) (fun o _ _ =>
        forall u s', o = Returned (u, s') -> maps_agree s')) /\
     always clk (StopAll s) (fun o _ _ =>
        forall u s', o = Returned (u, s') -> maps_agree s') /\
     (forall v6, always clk (GetRemovals v6 s) (fun o _ _ =>
        forall r s', o = Returned (r, s') -> maps_agree s')) /\
     (forall ie, always clk (run_received ie s) (fun o _ _ =>
        forall u s', o = Returned (u, s') -> maps_agree s'))).
Proof.
  split.
  { intros c bin dir. unfold NewHAProxySet. cbn.
    apply always_vis; [intros ?; discriminate|]. intros c2. cbn.
    apply always_vis; [intros ?; discriminate|]. intros ch. cbn.
    apply always_ret. intros s [= <-]. unfold maps_agree. cbn.
    rewrite !dom_empty_L. reflexivity. }
  intros s Hs. unfold maps_agree in Hs. refine (conj _ (conj _ (conj _ (conj _ _)))).
  - intros v. eapply always_mono; [apply Configure_runs|]. cbn beta.
    intros o c tr H e s' ->. unfold maps_agree.
    destruct (sources s !! Addr6 v) as [inst|] eqn:Hl.
    + destruct H as (inst' & -> & _). cbn.
      rewrite dom_insert_lookup_L by (rewrite Hl; eauto). exact Hs.
    + destruct H as (c2 & pre & H). cbn zeta in H. destruct e as [err|].
      * destruct H as (-> & _). exact Hs.
      * destruct H as (-> & _). cbn. rewrite !dom_insert_L, Hs. reflexivity.
  - intros addr. eapply always_mono; [apply StopOne_runs|]. cbn beta.
    intros o c tr H u s' ->. destruct (cancelFuncs s !! addr).
    + destruct H as [[[= _ ->] _]|[[=] _]]. exact Hs.
    + destruct H as [[= _ ->] _]. exact Hs.
  - eapply always_mono; [apply StopAll_runs|]. cbn beta.
    intros o c tr H u s' ->. destruct H as (c2 & -> & _). unfold maps_agree. cbn.
    rewrite !dom_empty_L. reflexivity.
  - intros v6. unfold GetRemovals, bind, get, ret. cbn.
    apply always_ret. intros r s' [= _ <-]. exact Hs.
  - intros ie. eapply always_mono; [apply run_received_runs|]. cbn beta.
    intros o c tr H u s' ->. destruct H as (c2 & pre & H). cbn zeta in H.
    unfold maps_agree. destruct H as [(-> & _)|(err & -> & _)]; cbn.
    + rewrite !dom_insert_L, Hs. reflexivity.
    + rewrite !dom_delete_L, Hs. reflexivity.
Qed.

Lemma set_maps_know_the_same_addresses_witness :
  maps_agree example_set /\
  exists s',
    out (run (Configure (second_config [80%Z]) example_set) os_handler (example_os []) 0)
      = Returned (None, s') /\
    maps_agree s'.
Proof.
  assert (H0 : maps_agree example_set).
  { unfold maps_agree, example_set. cbn. rewrite !dom_singleton_L. reflexivity. }
  split; [exact H0|].
  assert (Hout : exists s', out (run (Configure (second_config [80%Z]) example_set)
                                   os_handler (example_os []) 0) = Returned (None, s')).
  { eexists. vm_compute. reflexivity. }
  destruct Hout as [s' Hout]. exists s'. split; [exact Hout|].
  exact (proj1 (proj2 (set_maps_know_the_same_addresses 0) example_set H0)
           (second_config [80%Z]) os os_handler (example_os []) None s' Hout).
Defined.

(** X9.  [StopOne] cancels the context registered for the address, if there is
    one, and that is all: it never panics and it leaves the set manager as
    it is, the stopped instance included.  So [GetRemovals] answers after
    [StopOne] what it answered before, and a [Configure] for the stopped
    address with the ports the instance holds returns nil without starting
    a process or making any other call: the instance is not brought back. *)
Theorem StopOne_leaves_the_instance_registered
    (addr : string) (s : HAProxySetManager) clk :
  always clk (StopOne addr s) (fun o _ tr =>
    (forall msg, o <> Panicked msg) /\
    (forall u s', o = Returned (u, s') ->
       s' = s /\
       acts tr = match cancelFuncs s !! addr with
                 | Some c => [Cancelled c]
                 | None => []
                 end)) /\
  (forall v6 removals,
     always clk ((StopOne addr ;;; GetRemovals v6) s) (fun o _ _ =>
       forall r s', o = Returned (r, s') ->
         GetRemovals v6 s = Ret (removals, s) -> r = removals)) /\
  (forall inst sa,
     sources s !! addr = Some inst ->
     always clk ((StopOne addr ;;;
                  Configure {| Addr6 := addr; ServiceAddrs := sa;
                               ListenPorts := ports inst |}) s)
       (fun o _ tr =>
          (o = Returned (None, s) \/ o = Blocked) /\
          forall a, In a (acts tr) -> exists c, a = Cancelled c \/ a = Stuck)).
Proof.
  refine (conj _ (conj _ _)).
  - eapply always_mono; [apply StopOne_runs|]. cbn beta.
    intros o c tr H. destruct (cancelFuncs s !! addr) as [c0|].
    + destruct H as [[-> Ha]|[-> Ha]].
      * split; [intros msg; discriminate|]. intros u s' [= _ ->]. split; [reflexivity|exact Ha].
      * split; [intros msg; discriminate|]. intros u s'; discriminate.
    + destruct H as [-> ->]. split; [intros msg; discriminate|].
      intros u s' [= _ ->]. split; reflexivity.
  - intros v6 removals. apply always_mbind.
    eapply always_mono; [apply StopOne_runs|]. cbn beta.
    intros o c tr H.
    assert (Ho : o = Returned (tt, s) \/ o = Blocked).
    { destruct (cancelFuncs s !! addr); [destruct H as [[-> _]|[-> _]]|destruct H as [-> _]]; auto. }
    destruct Ho as [->| ->]; [|intros r s'; discriminate].
    unfold GetRemovals, bind, get, ret. cbn.
    apply always_ret. intros r s' [= <- <-] [= <-]. reflexivity.
  - intros inst sa Hl. apply always_mbind.
    eapply always_mono; [apply StopOne_runs|]. cbn beta.
    intros o c tr H.
    assert (Ho : (o = Returned (tt, s) \/ o = Blocked) /\
                 forall a, In a (acts tr) -> exists c, a = Cancelled c \/ a = Stuck).
    { destruct (cancelFuncs s !! addr) as [c0|].
      - destruct H as [[-> Ha]|[-> Ha]]; (split; [auto|]); rewrite Ha;
          intros a [<-|[]]; exists c0; auto.
      - destruct H as [-> ->]. split; [auto|]. intros a []. }
    destruct Ho as [[->| ->] Ha].
    + unfold Configure, bind, get. cbn. rewrite Hl.
      rewrite (Reload_in_set_same_ports s addr Hl). apply always_ret.
      split; [left; reflexivity|]. rewrite app_nil_r. exact Ha.
    + split; [right; reflexivity|exact Ha].
Qed.

Lemma StopOne_leaves_the_instance_registered_witness :
  sources example_set !! "fd00::1" = Some example_manager /\
  let f := run ((StopOne "fd00::1" ;;; Configure (example_config [80%Z])) example_set)
               os_handler (example_os []) 0 in
  out f = Returned (None, example_set) /\
  (exists c, acts (trace f) = [Cancelled c]) /\
  cancelled (world f) = [1].
Proof.
  split; [reflexivity|]. cbv zeta.
  pose proof (proj2 (proj2 (@StopOne_leaves_the_instance_registered "fd00::1" example_set 0))
                example_manager (Slice ["10.96.0.10:80"]) eq_refl
                os os_handler (example_os [])) as [Ho Ha].
  change {| Addr6 := "fd00::1"; ServiceAddrs := Slice ["10.96.0.10:80"];
            ListenPorts := ports example_manager |} with (example_config [80%Z]) in Ho, Ha.
  destruct Ho as [Ho|Ho].
  - split; [exact Ho|]. split; [|reflexivity]. exists 1. reflexivity.
  - exfalso. revert Ho. vm_compute. discriminate.
Defined.

Lemma GetRemovals_of_none (v6 : slice string) (s : HAProxySetManager) :
  sources s = ∅ -> GetRemovals v6 s = Ret (Slice [], s).
Proof.
  intros Hs. unfold GetRemovals, bind, get, ret. cbn.
  rewrite Hs, map_to_list_empty. reflexivity.
Qed.

(** X10.  [StopAll] cancels the set's context, derives a new one from the parent
    context and forgets every instance: it never panics, both maps are empty
    afterwards, and [GetRemovals] then finds nothing to remove.  The cancel
    functions of the instances are not called one by one.  A [Configure]
    that follows, whatever the address and the ports, creates an instance
    anew under a context derived from the new set context, and ends by
    starting its process. *)
Theorem StopAll_forgets_every_instance (v : VIPConfig) (s : HAProxySetManager) clk :
  always clk (StopAll s) (fun o _ tr =>
    (forall msg, o <> Panicked msg) /\
    (forall u s', o = Returned (u, s') ->
       exists c1,
         acts tr = [Cancelled (set_ctx s); Derived (parentCtx s) c1] /\
         sources s' = ∅ /\ cancelFuncs s' = ∅ /\
         set_ctx s' = c1 /\ parentCtx s' = parentCtx s /\
         set_errChan s' = set_errChan s /\
         forall v6, GetRemovals v6 s' = Ret (Slice [], s'))) /\
  always clk ((StopAll ;;; Configure v) s) (fun o _ tr =>
    forall s', o = Returned (None, s') ->
      exists c1 c2 inst rest,
        acts tr = Cancelled (set_ctx s) :: Derived (parentCtx s) c1 ::
                  Derived c1 c2 :: rest ++ [Spawned (Addr6 v) c2] /\
        existsb is_Signalled rest = false /\
        set_ctx s' = c1 /\
        sources s' = {[ Addr6 v := inst ]} /\
        cancelFuncs s' = {[ Addr6 v := c2 ]} /\
        hctx inst = c2 /\ ports inst = ListenPorts v /\
        serviceAddrs inst = ServiceAddrs v).
Proof.
  split.
  - eapply always_mono; [apply StopAll_runs|]. cbn beta.
    intros o c tr H. split.
    + intros msg ->. exact H.
    + intros u s' ->. destruct H as (c1 & -> & Ha). exists c1.
      refine (conj Ha (conj eq_refl (conj eq_refl (conj eq_refl (conj eq_refl (conj eq_refl _)))))).
      intros v6. apply GetRemovals_of_none. reflexivity.
  - apply always_mbind. eapply always_mono; [apply StopAll_runs|]. cbn beta.
    intros [[u s1]|msg|] c tr H; [|intros s'; discriminate|intros s'; discriminate].
    destruct H as (c1 & -> & Ha).
    eapply always_mono; [apply Configure_runs|]. cbn beta.
    intros o c' tr' H s' ->. cbn in H. rewrite lookup_empty in H.
    destruct H as (c2 & pre & -> & Hrun & Hacts).
    destruct (NewHAProxy_started_acts Hrun) as [b Hpre].
    set (h0 := fresh_manager c2 (set_binary s) (set_configDir s) (Addr6 v)
                 (ServiceAddrs v) (ListenPorts v) (set_errChan s)) in *.
    exists c1, c2, h0,
      (Parsed None :: warnings h0 (ports h0) ++
       [Executed (contexts h0 (ports h0)) (Ok b);
        Opened (filename h0) None; Wrote (filename h0) b None; Closed (filename h0)]).
    rewrite acts_app, Ha, Hacts, Hpre.
    split.
    { cbn. rewrite <- app_assoc. reflexivity. }
    split.
    { cbn. rewrite existsb_app, existsb_warnings by reflexivity. reflexivity. }
    repeat split; reflexivity.
Qed.

(** X11.  One turn of the supervisor loop on a reported instance error.  The
    instance and its cancel function are dropped from the maps without the
    cancel function being called, a context is derived from the set's
    context and [NewHAProxy] is called for the source, destinations and
    ports of the report.  If that succeeds the new instance and context are
    registered under the source and the process is started last.  If it
    fails the source is in neither map, the derived context is cancelled
    and the very same report is sent back to the error channel with a
    blocking send, the last call of the turn.  Other addresses are not
    touched either way. *)
Theorem supervisor_replaces_the_instance_or_requeues_the_error
    (ie : HAProxyError) (s : HAProxySetManager) clk :
  always clk (run_received ie s) (fun o _ tr =>
    forall u s', o = Returned (u, s') ->
      (forall addr, addr <> err_Source ie ->
         sources s' !! addr = sources s !! addr /\
         cancelFuncs s' !! addr = cancelFuncs s !! addr) /\
      exists c2 pre,
        (sources s' !! err_Source ie =
           Some (fresh_manager c2 (set_binary s) (set_configDir s) (err_Source ie)
                   (err_Dest ie) (err_Ports ie) (set_errChan s)) /\
         cancelFuncs s' !! err_Source ie = Some c2 /\
         acts tr = Logged ("got error from instance. " +:+ err_Error ie) ::
                   Derived (set_ctx s) c2 :: pre ++ [Spawned (err_Source ie) c2] /\
         existsb is_Cancelled pre = false /\ existsb is_Spawned pre = false) \/
        (exists err,
           sources s' !! err_Source ie = None /\
           cancelFuncs s' !! err_Source ie = None /\
           acts tr = Logged ("got error from instance. " +:+ err_Error ie) ::
                     Derived (set_ctx s) c2 :: pre ++
                     [Logged ("error recreating haproxy. canceling context. " +:+ err);
                      Cancelled c2; Sent (set_errChan s) ie] /\
           existsb is_Cancelled pre = false /\ existsb is_Spawned pre = false)).
Proof.
  eapply always_mono; [apply run_received_runs|]. cbn beta.
  intros o c tr H u s' ->. destruct H as (c2 & pre & H). cbn zeta in H.
  set (h0 := fresh_manager c2 (set_binary s) (set_configDir s) (err_Source ie)
               (err_Dest ie) (err_Ports ie) (set_errChan s)) in *.
  destruct H as [(-> & Hrun & Hacts)|(err & -> & Hrun & Hacts)].
  - split.
    { intros addr Hne. cbn. rewrite !lookup_insert_ne by congruence. split; reflexivity. }
    destruct (NewHAProxy_started_acts Hrun) as [b Hpre].
    exists c2, (Parsed None :: warnings h0 (ports h0) ++
                [Executed (contexts h0 (ports h0)) (Ok b);
                 Opened (filename h0) None; Wrote (filename h0) b None;
                 Closed (filename h0)]).
    left. cbn [sources cancelFuncs with_maps]. rewrite !lookup_insert_eq.
    split; [reflexivity|]. split; [reflexivity|]. rewrite Hacts, Hpre.
    split; [cbn; rewrite <- app_assoc; reflexivity|].
    cbn. rewrite !existsb_app, !existsb_warnings by reflexivity. split; reflexivity.
  - split.
    { intros addr Hne. cbn. rewrite !lookup_delete_ne by congruence. split; reflexivity. }
    exists c2, pre. right. exists err. cbn [sources cancelFuncs with_maps].
    rewrite !lookup_delete_eq.
    split; [reflexivity|]. split; [reflexivity|]. split; [exact Hacts|].
    split; [exact (NewHAProxy_error_cancels_nothing Hrun)|].
    exact (proj1 (NewHAProxy_error_starts_nothing Hrun)).
Qed.

(** The requeue of the supervisor loop is a plain send: with the error
    channel full and nobody receiving, a turn whose [NewHAProxy] fails
    never returns. *)
Lemma supervisor_requeue_blocks_on_full_channel :
  let ie := {| err_Error := "exit status 1"; err_Source := "fd00::1";
               err_Dest := Slice ["10.96.0.10:80"]; err_Ports := Slice [80%Z] |} in
  let w := set_chan 0 {| capacity := 1; buffer := [ie] |}
             (example_os [Some "template: conf:1: unexpected EOF"]) in
  let f := run (run_received ie example_set) os_handler w 0 in
  out f = Blocked /\
  last (acts (trace f)) = Some Stuck.
Proof. vm_compute. split; reflexivity. Qed.

Lemma run_exited_runs (err : error) (h : HAProxyManager) clk :
  always clk (run_exited (Some err) h) (fun o _ tr =>
    let e2 := "haproxy exited with error. " +:+ err in
    match o with
    | Returned (_, h') =>
        h' = h /\
        acts tr = [Logged ("wat. " +:+ e2); Offered (errChan h) (unroll_message h e2) true]
    | Panicked msg =>
        msg = e2 /\
        acts tr = [Logged ("wat. " +:+ e2); Offered (errChan h) (unroll_message h e2) false]
    | Blocked => stuck (acts tr)
    end).
Proof.
  unfold run_exited, bind, call. cbn [pbind fst snd].
  apply always_vis; [apply stuck_one|]. intros []. cbn [pbind fst snd].
  eapply always_mono; [apply sendError_runs|]. cbn.
  intros [[[] h']| |] c tr H; change (map act_of) with acts.
  - destruct H as [-> ->]. split; reflexivity.
  - destruct H as [-> ->]. split; reflexivity.
  - rewrite H. apply stuck_cons, stuck_one.
Qed.

(** X12.  The instance's [run] loop ends only when the process has exited.  A
    clean exit ends it silently.  An exit with an error is logged and
    reported on the error channel, with the instance's listen address,
    service addresses and ports; a full channel makes the goroutine panic
    with that error.  Whenever the supervisor turn that receives the report
    registers a new instance, it is one for the same listen address,
    service addresses and ports, with no rendered bytes: a process that
    died is started again as it was configured. *)
Theorem exited_instance_is_reported_and_rebuilt_alike
    (err : error) (h : HAProxyManager) (s : HAProxySetManager) clk :
  run_exited None h = Ret (tt, h) /\
  always clk (run_exited (Some err) h) (fun o c tr =>
    (forall u h', o = Returned (u, h') ->
       h' = h /\
       exists msg,
         acts tr = [Logged ("wat. haproxy exited with error. " +:+ err);
                    Offered (errChan h) msg true] /\
         err_Source msg = listenAddr h /\ err_Dest msg = serviceAddrs h /\
         err_Ports msg = ports h /\
         always c (run_received msg s) (fun o2 _ _ =>
           forall u2 s' inst,
             o2 = Returned (u2, s') -> sources s' !! listenAddr h = Some inst ->
             listenAddr inst = listenAddr h /\ serviceAddrs inst = serviceAddrs h /\
             ports inst = ports h /\ rendered inst = [] /\
             errChan inst = set_errChan s)) /\
    (forall msg, o = Panicked msg -> msg = "haproxy exited with error. " +:+ err)).
Proof.
  split; [reflexivity|].
  eapply always_mono; [apply run_exited_runs|]. cbn beta zeta.
  intros o c tr H. split.
  - intros u h' ->. destruct H as [-> Ha]. split; [reflexivity|].
    exists (unroll_message h ("haproxy exited with error. " +:+ err)).
    split; [exact Ha|]. split; [reflexivity|]. split; [reflexivity|].
    split; [reflexivity|].
    eapply always_mono; [apply run_received_runs|]. cbn beta.
    intros o2 c2' tr2 H2 u2 s' inst -> Hl. destruct H2 as (c2 & pre & H2). cbn zeta in H2.
    destruct H2 as [(-> & _)|(e & -> & _)]; cbn in Hl.
    + rewrite lookup_insert_eq in Hl. injection Hl as <-. cbn.
      repeat split; reflexivity.
    + rewrite lookup_delete_eq in Hl. discriminate.
  - intros msg ->. apply H.
Qed.

End SupervisorProperties.

(** * More of the director *)

Section DirectorTicks.
Import types bgp Examples DirectorExamples.

Lemma ticks_never_check_witness :
  let f := run (steps some_ticks skipping_worker) kernel_handler (example_kernel []) 3 in
  noUpdatesReady skipping_worker = true /\ stamps_in_past 3 skipping_worker /\
  forallb is_tick some_ticks = true /\
  parity_flags (trace f) = [] /\
  exists b', out f = Returned (tt, b') /\ newConfig b' = true /\ noUpdatesReady b' = true.
Proof.
  cbv zeta.
  assert (H0 : stamps_in_past 3 skipping_worker) by (split; cbn; lia).
  split; [reflexivity|]. split; [exact H0|]. split; [reflexivity|].
  pose proof (@ticks_never_check some_ticks skipping_worker 3 eq_refl H0 eq_refl
                kernel kernel_handler (example_kernel [])) as [Hfl Hb].
  split; [exact Hfl|].
  assert (Hout : exists b', out (run (steps some_ticks skipping_worker)
                    kernel_handler (example_kernel []) 3) = Returned (tt, b')).
  { eexists. vm_compute. reflexivity. }
  destruct Hout as [b' Hout]. exists b'. split; [exact Hout|]. exact (Hb b' Hout).
Defined.

Lemma configure_returns (b : bgpserver) clk :
  always clk (configure b) (fun o c tr =>
    forall e b', o = Returned (e, b') ->
      match e with
      | Some _ => b' = b /\ failed_last tr
      | None => b' = set_lastReconfigure c b /\ clk <= c /\ existsb failed tr = false
      end).
Proof.
  eapply always_mono; [apply configure_runs|]. cbn.
  intros o c tr H e b' ->.
  inversion H as [err tr0 Hsa|c0 configured removals additions err Hc|
                  c0 configured removals additions err Hc|
                  c0 configured removals additions d Hc|o' tr' Ho Htr]; subst.
  - split; [reflexivity|]. exact (proj1 (setAddresses_run_error Hsa)).
  - split; [reflexivity|]. eexists _, _. split; [reflexivity|]. split; [reflexivity|].
    apply existsb_failed_addresses_set.
  - split; [reflexivity|].
    eexists (addresses_set c0 configured removals additions ++
             [Entry (BgpSet (vips c0)) (Some None)]), _.
    split; [rewrite <- app_assoc; reflexivity|]. split; [reflexivity|].
    rewrite existsb_app, existsb_failed_addresses_set. reflexivity.
  - split; [reflexivity|]. split; [lia|].
    rewrite existsb_app, existsb_failed_addresses_set. reflexivity.
  - destruct (Ho (e, b')). reflexivity.
Qed.

(** X14.  What the 2 s tick did can be read off the metric it reports, and the
    worker changes accordingly.  While the skip-condition holds it makes no
    call at all.  Otherwise its last call is the [Reconfigure] metric:
    - "error" after a failed [ipLoopback.Get]: the worker is unchanged, a
      pending [newConfig] included;
    - "error" after [CheckConfigParity] answered an error: [newConfig] has
      been consumed although nothing was applied;
    - "noop" after [CheckConfigParity] answered true: [newConfig] consumed,
      nothing else called;
    - "critical" after parity was reported different and [configure]
      failed: the failed call is the last one before the metric, and only
      [newConfig] has changed;
    - "complete" after a [configure] none of whose calls failed:
      [lastReconfigure] is a time read during the tick.
    [CheckConfigParity] is handed the worker's nodes and configuration, the
    addresses just read and the [newConfig] flag. *)
Theorem performReconfigure_reports_what_it_did (b : bgpserver) clk :
  always clk (performReconfigure b) (fun o c tr =>
    forall b', o = Returned (tt, b') ->
      if noUpdatesReady b then tr = [] /\ b' = b
      else
        exists label tr0,
          tr = tr0 ++ [Entry (Metric_Reconfigure label) (Some tt)] /\
          ((label = "error" /\ b' = b /\
            exists err, tr0 = [Entry LoGet (Some (Err err))]) \/
           (exists addresses rest,
              let check := CheckConfigParity (nodes b) (config b) addresses (newConfig b) in
              tr0 = Entry LoGet (Some (Ok addresses)) :: rest /\
              ((label = "error" /\ b' = set_newConfig false b /\
                exists err, rest = [Entry check (Some (Err err))]) \/
               (label = "noop" /\ b' = set_newConfig false b /\
                rest = [Entry check (Some (Ok true))]) \/
               (exists calls,
                  rest = Entry check (Some (Ok false)) :: calls /\
                  ((label = "critical" /\ b' = set_newConfig false b /\
                    failed_last calls) \/
                   (label = "complete" /\ existsb failed calls = false /\
                    exists t, clk <= t /\ t <= c /\
                      b' = set_lastReconfigure t (set_newConfig false b)))))))).
Proof.
  unfold performReconfigure, bind, get, ret, now, call. cbn.
  destruct (noUpdatesReady b).
  { apply always_ret. intros b' [= <-]. split; reflexivity. }
  apply always_now. intros d0. cbn. apply always_vis; [intros b'; discriminate|].
  intros [addresses|err]; cbn.
  2:{ apply always_now. intros d1. cbn. apply always_vis; [intros b'; discriminate|].
      intros []. cbn. apply always_ret. intros b' [= <-].
      exists "error", [Entry LoGet (Some (Err err))]. split; [reflexivity|].
      left. split; [reflexivity|]. split; [reflexivity|]. exists err. reflexivity. }
  rewrite configReady_eq. cbn. apply always_vis; [intros b'; discriminate|].
  intros [[|]|err]; cbn.
  - apply always_now. intros d1. cbn. apply always_vis; [intros b'; discriminate|].
    intros []. cbn. apply always_ret. intros b' [= <-].
    exists "noop", [Entry LoGet (Some (Ok addresses));
                    Entry (CheckConfigParity (nodes b) (config b) addresses (newConfig b))
                          (Some (Ok true))].
    split; [reflexivity|]. right. exists addresses, [Entry (CheckConfigParity (nodes b) (config b) addresses (newConfig b)) (Some (Ok true))].
    split; [reflexivity|]. right; left. split; [reflexivity|]. split; reflexivity.
  - apply always_bind. eapply always_mono.
    { apply always_and; [apply always_clock_mono|apply configure_returns]. }
    cbn. intros [[e b1]| |] c1 tr1 [Hc1 H]; cbn;
      [|intros b'; discriminate|intros b'; discriminate].
    specialize (H e b1 eq_refl).
    destruct e as [err|]; cbn.
    + destruct H as [-> Hlast].
      apply always_now. intros d1. cbn. apply always_vis; [intros b'; discriminate|].
      intros []. cbn. apply always_ret. intros b' [= <-].
      exists "critical", (Entry LoGet (Some (Ok addresses)) ::
                          Entry (CheckConfigParity (nodes b) (config b) addresses (newConfig b))
                                (Some (Ok false)) :: tr1).
      split; [cbn; try rewrite app_nil_r; reflexivity|]. right.
      exists addresses, (Entry (CheckConfigParity (nodes b) (config b) addresses (newConfig b))
                               (Some (Ok false)) :: tr1).
      split; [reflexivity|]. right; right. exists tr1. split; [reflexivity|].
      left. split; [reflexivity|]. split; [reflexivity|exact Hlast].
    + destruct H as (-> & Hc & Hclean).
      apply always_now. intros d1. cbn. apply always_vis; [intros b'; discriminate|].
      intros []. cbn. apply always_ret. intros b' [= <-].
      exists "complete", (Entry LoGet (Some (Ok addresses)) ::
                          Entry (CheckConfigParity (nodes b) (config b) addresses (newConfig b))
                                (Some (Ok false)) :: tr1).
      split; [cbn; try rewrite app_nil_r; reflexivity|]. right.
      exists addresses, (Entry (CheckConfigParity (nodes b) (config b) addresses (newConfig b))
                               (Some (Ok false)) :: tr1).
      split; [reflexivity|]. right; right. exists tr1. split; [reflexivity|].
      right. split; [reflexivity|]. split; [exact Hclean|].
      exists c1. split; [lia|]. split; [lia|reflexivity].
  - apply always_now. intros d1. cbn. apply always_vis; [intros b'; discriminate|].
    intros []. cbn. apply always_ret. intros b' [= <-].
    exists "error", [Entry LoGet (Some (Ok addresses));
                     Entry (CheckConfigParity (nodes b) (config b) addresses (newConfig b))
                           (Some (Err err))].
    split; [reflexivity|]. right. exists addresses, [Entry (CheckConfigParity (nodes b) (config b) addresses (newConfig b)) (Some (Err err))].
    split; [reflexivity|]. left. split; [reflexivity|]. split; [reflexivity|].
    exists err. reflexivity.
Qed.

(** X15.  A worker that holds no configuration yet, as [NewBGPWorker] leaves it,
    cannot get through the mandatory 30 s reconfigure: when
    [ipLoopback.Get] answers addresses, [setAddresses] dereferences the nil
    configuration and the worker panics, having made no other call; only
    when [Get] fails does the tick return, reporting "critical" and
    leaving the worker unchanged.  The 2 s tick panics the same way when the
    parity check reports a difference. *)
Theorem nil_config_reconfigure_panics (b : bgpserver) clk :
  config b = None ->
  always clk (periodic_reconfigure b) (fun o _ tr =>
    match o with
    | Returned (_, b') =>
        b' = b /\
        exists err, tr = [Entry LoGet (Some (Err err));
                          Entry (Metric_Reconfigure "critical") (Some tt)]
    | Panicked msg =>
        msg = nil_dereference /\
        exists configured, tr = [Entry LoGet (Some (Ok configured))]
    | Blocked =>
        tr = [Entry LoGet None] \/
        exists err, tr = [Entry LoGet (Some (Err err));
                          Entry (Metric_Reconfigure "critical") None]
    end) /\
  always clk (performReconfigure b) (fun o _ tr =>
    (existsb parity_differs tr = true ->
     forall b', o = Returned (tt, b') -> existsb failed tr = true) /\
    (forall msg, o = Panicked msg ->
       msg = nil_dereference /\ existsb parity_differs tr = true)).
Proof.
  intros Hc. split.
  - unfold periodic_reconfigure, configure, setAddresses, bind, now, call, get, ret, panic.
    cbn. apply always_now. intros d0. cbn. apply always_vis; [left; reflexivity|].
    intros [configured|err]; cbn.
    + rewrite Hc. cbn. apply always_panic. split; [reflexivity|]. exists configured. reflexivity.
    + apply always_now. intros d1. cbn. apply always_vis; [right; exists err; reflexivity|].
      intros []. apply always_ret. split; [reflexivity|]. exists err. reflexivity.
  - unfold performReconfigure, bind, get, ret, now, call. cbn.
    destruct (noUpdatesReady b).
    { apply always_ret. split; [discriminate|intros msg; discriminate]. }
    apply always_now. intros d0. cbn. apply always_vis.
    { split; [discriminate|intros msg; discriminate]. }
    intros [addresses|err]; cbn.
    2:{ apply always_now. intros d1. cbn. apply always_vis.
        { split; [discriminate|intros msg; discriminate]. }
        intros []. apply always_ret. split; [discriminate|intros msg; discriminate]. }
    rewrite configReady_eq. cbn. apply always_vis.
    { split; [discriminate|intros msg; discriminate]. }
    intros [[|]|err]; cbn.
    + apply always_now. intros d1. cbn. apply always_vis.
      { split; [discriminate|intros msg; discriminate]. }
      intros []. apply always_ret. split; [discriminate|intros msg; discriminate].
    + unfold configure, setAddresses, bind, now, call, get, ret, panic. cbn.
      apply always_vis.
      { split; [intros _ b'; discriminate|intros msg; discriminate]. }
      intros [configured|err]; cbn.
      * rewrite Hc. cbn. apply always_panic.
        split; [intros _ b'; discriminate|]. intros msg [= <-]. split; reflexivity.
      * apply always_now. intros d1. cbn. apply always_vis.
        { split; [intros _ b'; discriminate|intros msg; discriminate]. }
        intros []. apply always_ret. split; [|intros msg; discriminate].
        intros _ b' _. reflexivity.
    + apply always_now. intros d1. cbn. apply always_vis.
      { split; [discriminate|intros msg; discriminate]. }
      intros []. apply always_ret. split; [discriminate|intros msg; discriminate].
Qed.

Lemma nil_config_reconfigure_panics_witness :
  config NewBGPWorker = None /\
  out (run (periodic_reconfigure NewBGPWorker) kernel_handler (example_kernel []) 0)
    = Panicked nil_dereference.
Proof.
  split; [reflexivity|].
  pose proof (proj1 (@nil_config_reconfigure_panics NewBGPWorker 0 eq_refl)
                kernel kernel_handler (example_kernel [])) as H. cbn beta in H.
  assert (Hout : exists msg,
            out (run (periodic_reconfigure NewBGPWorker) kernel_handler (example_kernel []) 0)
              = Panicked msg).
  { eexists. vm_compute. reflexivity. }
  destruct Hout as [msg Hout]. rewrite Hout in H. destruct H as [-> _]. exact Hout.
Defined.

End DirectorTicks.

(** * More of the realserver *)

Section RealserverTicks.
Import types realserver RealserverActs Examples.

(** X16.  [watches] looks for the first node of the list that carries the
    worker's node name.  A list without such a node changes nothing and
    makes no call, not even a metric.  Otherwise the node found is compared
    with the one held: if [NodeEqual] says they are equal the worker is
    unchanged, else the node found replaces it and [lastInboundUpdate] is set
    to a time read after the comparison; configuration and
    [lastReconfigure] are never touched. *)
Theorem watches_takes_the_first_node_of_that_name ns (r : realserver) clk :
  (find_node (nodeName r) ns = None <-> Forall (fun n => Name n <> nodeName r) ns) /\
  (forall n, find_node (nodeName r) ns = Some n <->
     exists l1 l2, ns = l1 ++ n :: l2 /\ Name n = nodeName r /\
                   Forall (fun m => Name m <> nodeName r) l1) /\
  always clk (watches_nodes ns r) (fun o c tr =>
    match find_node (nodeName r) ns with
    | None => o = Returned (tt, r) /\ tr = []
    | Some n =>
        forall u r', o = Returned (u, r') ->
          (r' = r /\
           tr = [Entry (NodeEqual (node r) n) (Some true);
                 Entry (Metric_NodeUpdate "noop") (Some tt)]) \/
          (r' = {| nodeName := nodeName r; config := config r; node := n;
                   lastInboundUpdate := c; lastReconfigure := lastReconfigure r;
                   forcedReconfigure := forcedReconfigure r |} /\
           clk <= c /\
           tr = [Entry (NodeEqual (node r) n) (Some false);
                 Entry (Metric_NodeUpdate "updated") (Some tt)])
    end).
Proof.
  assert (Hnone : forall name l,
            find_node name l = None <-> Forall (fun n => Name n <> name) l).
  { intros name l. induction l as [|m l IH]; cbn.
    - split; [constructor|reflexivity].
    - destruct (String.eqb_spec (Name m) name) as [Heq|Hne].
      + split; [discriminate|]. intros H. inversion H; subst. contradiction.
      + rewrite IH. split; [intros H; constructor; assumption|].
        intros H. inversion H; assumption. }
  refine (conj (Hnone _ _) (conj _ _)).
  - intros n. generalize (nodeName r) as name. intros name.
    induction ns as [|m l IH]; cbn.
    + split; [discriminate|]. intros (l1 & l2 & H & _). destruct l1; discriminate.
    + destruct (String.eqb_spec (Name m) name) as [Heq|Hne].
      * split.
        -- intros [= <-]. exists [], l. split; [reflexivity|]. split; [exact Heq|constructor].
        -- intros (l1 & l2 & H & Hn & Hl1). destruct l1 as [|m' l1]; cbn in H.
           ++ injection H as -> _. reflexivity.
           ++ injection H as <- _. inversion Hl1; subst. contradiction.
      * rewrite IH. split.
        -- intros (l1 & l2 & -> & Hn & Hl1). exists (m :: l1), l2.
           split; [reflexivity|]. split; [exact Hn|]. constructor; assumption.
        -- intros (l1 & l2 & H & Hn & Hl1). destruct l1 as [|m' l1]; cbn in H.
           ++ injection H as -> _. contradiction.
           ++ injection H as <- ->. exists l1, l2. split; [reflexivity|].
              split; [exact Hn|]. inversion Hl1; assumption.
  - unfold watches_nodes, bind, get, now, modify, call, ret. cbn.
    destruct (find_node (nodeName r) ns) as [n|]; cbn.
    2:{ apply always_ret. split; reflexivity. }
    apply always_vis; [intros u r'; discriminate|].
    intros [|]; cbn.
    + apply always_vis; [intros u r'; discriminate|].
      intros []. cbn. apply always_ret. intros u r' [= _ <-]. left. split; reflexivity.
    + apply always_vis; [intros u r'; discriminate|].
      intros []. cbn. apply always_now. intros d. cbn. apply always_ret.
      intros u r' [= _ <-]. right. split; [reflexivity|]. split; [lia|reflexivity].
Qed.

(** X17.  A realserver that has no configuration, or does not know its own node
    yet (both as [NewRealServer] leaves it), never touches the host on the
    100 ms tick: the tick makes metric calls only ("noop" unless the
    skip-condition holds), cannot panic and leaves the worker unchanged, so
    [lastReconfigure] is not advanced.  Without a configuration the 60 s
    tick returns without any call, the parity check answering true.  But
    the forced 10 min reconfigure skips the parity check: without a
    configuration it panics with a nil dereference as soon as
    [ipLoopback.Get] has answered addresses, and returns (reporting "error")
    only when [Get] fails. *)
Theorem realserver_without_configuration (r : realserver) clk :
  (config r = None \/ Name (node r) = "" ->
   always clk (periodic_check r) (fun o _ tr =>
     (forall msg, o <> Panicked msg) /\
     forallb is_metric tr = true /\
     (forall u r', o = Returned (u, r') ->
        r' = r /\
        if skip_condition r then tr = []
        else tr = [Entry Metric_QueueDepth (Some tt);
                   Entry (Metric_Reconfigure "noop") (Some tt)]))) /\
  (config r = None ->
   always clk (periodic_slow r) (fun o _ tr => o = Returned (tt, r) /\ tr = []) /\
   always clk (periodic_forced r) (fun o _ tr =>
     match o with
     | Returned (_, r') =>
         r' = r /\
         if forcedReconfigure r
         then exists err, tr = [Entry LoGet (Some (Err err));
                                Entry (Metric_Reconfigure "error") (Some tt)]
         else tr = []
     | Panicked msg =>
         forcedReconfigure r = true /\ msg = nil_dereference /\
         exists configured, tr = [Entry LoGet (Some (Ok configured))]
     | Blocked => forcedReconfigure r = true
     end)).
Proof.
  split.
  - intros Hc. unfold periodic_check, bind, get, now, modify, call, ret. cbn.
    apply always_now. intros d0. cbn.
    destruct (skip_condition r).
    { apply always_ret. split; [intros msg; discriminate|]. split; [reflexivity|].
      intros u r' [= _ <-]. split; reflexivity. }
    apply always_vis.
    { split; [intros msg; discriminate|]. split; [reflexivity|]. intros u r'; discriminate. }
    intros []. cbn.
    assert (Hskip : (match config r with None => true | Some _ => false end
                     || String.eqb (Name (node r)) "") = true).
    { destruct Hc as [-> | ->]; [reflexivity|]. apply orb_true_r. }
    rewrite Hskip. cbn. apply always_now. intros d1. cbn. apply always_vis.
    { split; [intros msg; discriminate|]. split; [reflexivity|]. intros u r'; discriminate. }
    intros []. apply always_ret.
    split; [intros msg; discriminate|]. split; [reflexivity|].
    intros u r' [= _ <-]. split; reflexivity.
  - intros Hc. split.
    + unfold periodic_slow, configure, checkConfigParity, bind, get, now, call, ret. cbn.
      apply always_now. intros d0. cbn. rewrite Hc. cbn.
      apply always_ret. split; reflexivity.
    + unfold periodic_forced, configure, setAddresses, bind, get, now, call, ret, panic. cbn.
      destruct (forcedReconfigure r); cbn.
      2:{ apply always_ret. split; reflexivity. }
      apply always_now. intros d0. cbn. apply always_vis; [reflexivity|].
      intros [configured|err]; cbn.
      * rewrite Hc. cbn. apply always_panic. split; [reflexivity|]. split; [reflexivity|].
        exists configured. reflexivity.
      * apply always_now. intros d1. cbn. apply always_vis; [reflexivity|].
        intros []. apply always_ret. split; [reflexivity|]. exists err. reflexivity.
Qed.

Lemma realserver_without_configuration_witness :
  config (NewRealServer "n1" true) = None /\
  out (run (periodic_forced (NewRealServer "n1" true)) host_handler
           (example_host ["10.10.0.1"]) 0) = Panicked nil_dereference /\
  out (run (periodic_check (NewRealServer "n1" true)) host_handler
           (example_host ["10.10.0.1"]) 0) = Returned (tt, NewRealServer "n1" true).
Proof.
  split; [reflexivity|].
  destruct (@realserver_without_configuration (NewRealServer "n1" true) 0) as [Hcheck Hnil].
  destruct (Hnil eq_refl) as [_ Hforced].
  specialize (Hforced host host_handler (example_host ["10.10.0.1"])). cbn beta in Hforced.
  specialize (Hcheck (or_introl eq_refl) host host_handler (example_host ["10.10.0.1"])).
  cbn beta in Hcheck. destruct Hcheck as (_ & _ & Hcheck).
  split.
  - assert (Hout : exists msg,
              out (run (periodic_forced (NewRealServer "n1" true)) host_handler
                       (example_host ["10.10.0.1"]) 0) = Panicked msg).
    { eexists. vm_compute. reflexivity. }
    destruct Hout as [msg Hout]. rewrite Hout in Hforced.
    destruct Hforced as (_ & -> & _). exact Hout.
  - assert (Hout : exists r',
              out (run (periodic_check (NewRealServer "n1" true)) host_handler
                       (example_host ["10.10.0.1"]) 0) = Returned (tt, r')).
    { eexists. vm_compute. reflexivity. }
    destruct Hout as [r' Hout]. rewrite Hout.
    destruct (Hcheck tt r' Hout) as [-> _]. reflexivity.
Defined.

Lemma before_merge_quiet (tr : list (entry rE)) :
  Forall (fun en => before_merge (ecall en)) tr ->
  restore_failures tr = [] /\ file_writes tr = [] /\ dumps tr = [] /\ merge_answers tr = [].
Proof.
  induction 1 as [|[X e x] tr He _ IH]; [repeat split; reflexivity|].
  unfold restore_failures, file_writes, dumps, merge_answers in *. cbn in *.
  destruct e; cbn in *; try exact IH; destruct He.
Qed.

Lemma rs_each_until_error_calls (f : string -> rE (option error)) l (r : realserver) :
  (forall addr, before_merge (f addr)) -> only_calls before_merge (each_until_error f l r).
Proof.
  intros Hf. induction l as [|a l IH]; cbn; [exact I|].
  split; [apply Hf|]. intros [err|]; cbn; [exact I | exact IH].
Qed.

Lemma rs_setAddresses_calls (r : realserver) : only_calls before_merge (setAddresses r).
Proof.
  unfold setAddresses, bind, call, get. cbn. split; [exact I|].
  intros [configured|err]; cbn; [|exact I].
  destruct (config r); cbn; [|exact I]. split; [exact I|]. intros [removals additions]. cbn.
  apply only_calls_pbind; [apply rs_each_until_error_calls; intros; exact I|].
  intros [[err|] r']; cbn; [exact I|]. apply rs_each_until_error_calls. intros; exact I.
Qed.

Lemma checkConfigParity_calls (r : realserver) : only_calls before_merge (checkConfigParity r).
Proof.
  unfold checkConfigParity, bind, call, get, ret. cbn.
  destruct (config r); cbn; [|exact I]. split; [exact I|].
  intros [addresses|err]; cbn; [|exact I]. split; [exact I|].
  intros [existing|err]; cbn; [|exact I]. split; [exact I|]. intros base. cbn.
  split; [exact I|]. intros [generated|err]; cbn; [|exact I].
  split; [exact I|]. intros base'. exact I.
Qed.

Lemma restore_report_app (res : option error * Z) (tr1 tr2 : list (entry rE)) :
  Forall (fun en => before_merge (ecall en)) tr1 ->
  restore_report res tr2 -> restore_report res (tr1 ++ tr2).
Proof.
  intros H1 H2. destruct (before_merge_quiet H1) as (Hr & Hf & Hd & Hm).
  unfold restore_report, restore_failures, file_writes, dumps, merge_answers in *.
  rewrite !omap_app, Hr, Hf, Hd, Hm. exact H2.
Qed.

Lemma configure_forced_restore (r : realserver) clk :
  always clk (configure true r) (fun o _ tr =>
    forall res r', o = Returned (res, r') -> r' = r /\ restore_report res tr).
Proof.
  unfold configure. cbv zeta. cbn [negb]. unfold bind at 1. apply always_bind.
  eapply always_mono.
  { apply always_and; [apply (only_calls_trace before_merge), rs_setAddresses_calls|].
    apply setAddresses_keeps. }
  cbn. intros [[e r1]| |] c1 tr1 [Hq Hk]; cbn;
    [|intros res r'; discriminate|intros res r'; discriminate].
  rewrite (Hk _ _ eq_refl). clear Hk r1.
  assert (Hdone : forall res tr2, restore_report res tr2 ->
            forall res' r', Returned (res, r) = Returned (res', r') ->
              r' = r /\ restore_report res' (tr1 ++ tr2)).
  { intros res tr2 H2 res' r' [= <- <-]. split; [reflexivity|].
    apply restore_report_app; assumption. }
  destruct e as [err|]; cbn.
  { apply always_ret. apply (Hdone _ []). split; reflexivity. }
  unfold bind, call, get, ret. cbn.
  apply always_vis; [intros res r'; discriminate|].
  intros [existing|err]; cbn.
  2:{ apply always_ret. apply (Hdone _ [_]). split; reflexivity. }
  apply always_vis; [intros res r'; discriminate|].
  intros [generated|err]; cbn.
  2:{ apply always_ret. apply (Hdone _ [_; _]). split; reflexivity. }
  apply always_vis; [intros res r'; discriminate|].
  intros [[merged n] merr]; cbn. destruct merr as [err|]; cbn.
  { apply always_ret. apply (Hdone _ [_; _; _]). split; reflexivity. }
  apply always_vis; [intros res r'; discriminate|].
  intros [err|]; cbn.
  2:{ apply always_ret. apply (Hdone _ [_; _; _; _]). split; reflexivity. }
  apply always_vis; [intros res r'; discriminate|]. intros dump. cbn.
  apply always_vis; [intros res r'; discriminate|]. intros [werr|]; cbn.
  - apply always_vis; [intros res r'; discriminate|]. intros again. cbn.
    apply always_ret. apply (Hdone _ [_; _; _; _; _; _; _]).
    unfold restore_report. cbn. split; [reflexivity|]. split; [reflexivity|].
    split; [reflexivity|]. exists dump, (Some werr). split; [reflexivity|].
    exists again. reflexivity.
  - apply always_ret. apply (Hdone _ [_; _; _; _; _; _]).
    unfold restore_report. cbn. split; [reflexivity|]. split; [reflexivity|].
    split; [reflexivity|]. exists dump, None. split; reflexivity.
Qed.

(** X18.  When [iptables.Restore] fails, [configure] returns exactly that error
    together with the removal count [Merge] answered, whether or not the
    debug file could be written.  The rule set that was refused is
    serialized and written once to [/tmp/realserver-ruleset-err], prefixed
    with the line "ipvs restore error: <error>"; it is serialized a second
    time (for the log) only when that write failed.  In a run without a
    failed [Restore] no file is written and no rule set serialized.  At most
    one [Restore] is attempted, and the worker is not changed. *)
Theorem failed_restore_is_dumped_and_returned force (r : realserver) clk :
  always clk (configure force r) (fun o _ tr =>
    forall res r', o = Returned (res, r') ->
      r' = r /\
      match restore_failures tr with
      | [] => file_writes tr = [] /\ dumps tr = []
      | (merged, err) :: more =>
          more = [] /\ fst res = Some err /\
          merge_answers tr = [(merged, snd res, None)] /\
          exists dump werr,
            file_writes tr =
              [("/tmp/realserver-ruleset-err",
                list_byte_of_string ("ipvs restore error: " +:+ err +:+ newline) ++ dump,
                werr)] /\
            match werr with
            | None => dumps tr = [(merged, dump)]
            | Some _ => exists again, dumps tr = [(merged, dump); (merged, again)]
            end
      end).
Proof.
  destruct force; [apply configure_forced_restore|].
  unfold configure. cbv zeta. unfold bind at 1. apply always_bind.
  eapply always_mono.
  { apply always_and; [apply (only_calls_trace before_merge), checkConfigParity_calls|].
    apply checkConfigParity_keeps. }
  cbn. intros [[[same perr] r1]| |] c1 tr1 [Hq Hk]; cbn;
    [|intros res r'; discriminate|intros res r'; discriminate].
  rewrite (Hk _ _ eq_refl). clear Hk r1.
  destruct same, perr as [err|]; cbn.
  - apply always_ret. intros res r' [= <- <-]. split; [reflexivity|].
    apply (@restore_report_app (Some err, 0%Z) tr1 [] Hq). split; reflexivity.
  - apply always_ret. intros res r' [= <- <-]. split; [reflexivity|].
    apply (@restore_report_app (None, 0%Z) tr1 [] Hq). split; reflexivity.
  - apply always_ret. intros res r' [= <- <-]. split; [reflexivity|].
    apply (@restore_report_app (Some err, 0%Z) tr1 [] Hq). split; reflexivity.
  - eapply always_mono; [apply configure_forced_restore|]. cbn.
    intros o c2 tr2 H res r' Ho. destruct (H res r' Ho) as [-> Hrep].
    split; [reflexivity|]. apply (@restore_report_app res tr1 tr2 Hq Hrep).
Qed.

Lemma always_whatever {E A} clk (p : prog E A) : always clk p (fun _ _ _ => True).
Proof. intros W hd w. exact I. Qed.

(** X19.  [configure(false)], the form used by the 60 s and the 100 ms tick,
    changes the host (deletes or adds an address, restores rules, writes a
    file) only after a parity check that found a difference: the run then
    starts with the five calls of [checkConfigParity], all answered without
    error, and the comparison of their answers is false.  With no
    configuration, with a failing parity check or with parity, nothing on
    the host is changed. *)
Theorem configure_changes_host_only_on_difference (r : realserver) clk :
  always clk (configure false r) (fun o _ tr =>
    existsb changes_host tr = true ->
    exists c addresses existing base generated base' rest,
      config r = Some c /\
      tr = Entry LoGet (Some (Ok addresses)) :: Entry Save (Some (Ok existing)) ::
           Entry BaseChain (Some base) ::
           Entry (GenerateRules (Some c)) (Some (Ok generated)) ::
           Entry BaseChain (Some base') :: rest /\
      DeepEqual string_eqb (sort_strings (vips c)) addresses &&
      DeepEqual string_eqb
        (match existing !! base with
         | Some k => sort_strings (Rules k)
         | None => Slice []
         end)
        (sort_strings (Rules (default zero_Chain (generated !! base')))) = false).
Proof.
  unfold configure. cbv zeta. unfold checkConfigParity, bind, get, call, ret. cbn.
  destruct (config r) as [c|] eqn:Hc; cbn.
  2:{ apply always_ret. discriminate. }
  apply always_vis; [discriminate|]. intros [addresses|err]; cbn.
  2:{ apply always_ret. discriminate. }
  apply always_vis; [discriminate|]. intros [existing|err]; cbn.
  2:{ apply always_ret. discriminate. }
  apply always_vis; [discriminate|]. intros base. cbn.
  apply always_vis; [discriminate|]. intros [generated|err]; cbn.
  2:{ apply always_ret. discriminate. }
  apply always_vis; [discriminate|]. intros base'. cbn.
  destruct (DeepEqual string_eqb (sort_strings (vips c)) addresses &&
            DeepEqual string_eqb
              (match existing !! base with
               | Some k => sort_strings (Rules k)
               | None => Slice []
               end)
              (sort_strings (Rules (default zero_Chain (generated !! base'))))) eqn:Hpar; cbn.
  { apply always_ret. discriminate. }
  eapply always_mono; [apply always_whatever|]. cbn.
  intros o c1 tr _ _. exists c, addresses, existing, base, generated, base', tr.
  split; [reflexivity|]. split; [reflexivity|]. exact Hpar.
Qed.

End RealserverTicks.

(** * Starting and stopping *)

Section RealserverLifecycleFacts.
Import Lifecycle LifecycleRuns LifecycleExamples RealserverLifecycle.

Lemma cleanup_runs (c : nat) (r : realserver) clk :
  always clk (cleanup c r) (fun o _ tr =>
    match o with
    | Returned (e, r') =>
        r' = r /\ exists e1 e2, tr = cleaned c e1 e2 /\ e = cleanup_error e1 e2
    | Panicked _ => False
    | Blocked => existsb watching tr = false /\ existsb arp tr = false /\
                 existsb derives tr = false
    end).
Proof.
  unfold cleanup, bind, call, ret. cbn.
  apply always_vis; [repeat split; reflexivity|]. intros e1. cbn.
  apply always_vis; [repeat split; reflexivity|]. intros e2. cbn.
  destruct e1 as [a|], e2 as [b|]; cbn; apply always_ret;
    (split; [reflexivity|]); eexists _, _; split; reflexivity.
Qed.

Lemma existsb_deleted (f : entry lE -> bool) l :
  (forall a, f (Entry (PrimaryDel a) (Some None)) = false) -> existsb f (deleted l) = false.
Proof.
  intros Hf. induction l as [|a l IH]; cbn; [reflexivity|]. rewrite Hf. exact IH.
Qed.

Lemma del_each_runs (l : list string) (r : realserver) clk :
  always clk (del_each l r) (fun o _ tr =>
    existsb watching tr = false /\ existsb arp tr = false /\ existsb derives tr = false /\
    match o with
    | Returned (None, r') => r' = r /\ tr = deleted l
    | Returned (Some err, r') =>
        r' = r /\ exists l1 a, tr = deleted l1 ++ [Entry (PrimaryDel a) (Some (Some err))]
    | Panicked _ => False
    | Blocked => True
    end).
Proof.
  induction l as [|a l IH]; cbn.
  - apply always_ret. repeat split; reflexivity.
  - unfold bind, call. cbn. apply always_vis; [repeat split; reflexivity|].
    intros [err|]; cbn.
    + apply always_ret. split; [reflexivity|]. split; [reflexivity|]. split; [reflexivity|].
      split; [reflexivity|]. exists [], a. reflexivity.
    + eapply always_mono; [apply IH|]. cbn.
      intros [[[err|] r']| |] c tr (Hw & Ha & Hd & H);
        (split; [exact Hw|]); (split; [exact Ha|]); (split; [exact Hd|]).
      * destruct H as (-> & l1 & a' & ->). split; [reflexivity|].
        exists (a :: l1), a'. reflexivity.
      * destruct H as (-> & ->). split; reflexivity.
      * exact H.
      * exact I.
Qed.

Lemma setup_runs (r : realserver) clk :
  always clk (setup r) (fun o _ tr =>
    match o with
    | Returned (None, r') =>
        exists addresses w,
          r' = {| ctx := ctx r; cxlWatch := Some w; reconfiguring := reconfiguring r |} /\
          tr = set_up (ctx r) addresses w
    | Returned (Some e, r') =>
        r' = r /\ existsb watching tr = false /\ existsb derives tr = false /\
        ((exists e1 e2, tr = cleaned (ctx r) e1 e2 /\ cleanup_error e1 e2 = Some e) \/
         (exists tr0 en,
            tr = cleaned (ctx r) None None ++ tr0 ++ [en] /\
            refused en = true /\ existsb refused tr0 = false))
    | Panicked _ => False
    | Blocked => True
    end /\
    (existsb arp tr = true -> exists rest, tr = cleaned (ctx r) None None ++ rest) /\
    (existsb watching tr = true ->
     exists addresses w rest,
       tr = cleaned (ctx r) None None ++
            [Entry LoSetARP (Some None); Entry LoSetRPFilter (Some None);
             Entry PrimarySetARP (Some None); Entry (IPVSTeardown (ctx r)) (Some None);
             Entry PrimaryGet (Some (Ok addresses))] ++
            deleted (elems addresses) ++ Entry (WithCancel (ctx r)) (Some w) :: rest)).
Proof.
  unfold setup, or_return, bind, get. cbn [pbind fst snd]. apply always_bind.
  eapply always_mono; [apply cleanup_runs|]. cbn.
  intros [[e r1]| |] c1 tr1 H; [|destruct H|].
  2:{ destruct H as (Hw & Ha & _). split; [exact I|]. rewrite Hw, Ha. split; discriminate. }
  destruct H as (-> & e1 & e2 & -> & ->).
  destruct e1 as [a|], e2 as [b|]; cbn;
    try (apply always_ret; split;
         [split; [reflexivity|]; split; [reflexivity|]; split; [reflexivity|];
          left; eexists _, _; split; reflexivity
         |split; discriminate]).
  unfold call, ret. cbn.
  assert (Hearly : forall e (tr0 : list (entry lE)) (en : entry lE),
            existsb watching (tr0 ++ [en]) = false ->
            existsb derives (tr0 ++ [en]) = false ->
            refused en = true -> existsb refused tr0 = false ->
            (r = r /\ existsb watching (cleaned (ctx r) None None ++ tr0 ++ [en]) = false /\
             existsb derives (cleaned (ctx r) None None ++ tr0 ++ [en]) = false /\
             ((exists e1 e2, cleaned (ctx r) None None ++ tr0 ++ [en] = cleaned (ctx r) e1 e2 /\
                             cleanup_error e1 e2 = Some e) \/
              (exists tr0' en',
                 cleaned (ctx r) None None ++ tr0 ++ [en] =
                   cleaned (ctx r) None None ++ tr0' ++ [en'] /\
                 refused en' = true /\ existsb refused tr0' = false))) /\
            (existsb arp (cleaned (ctx r) None None ++ tr0 ++ [en]) = true ->
             exists rest, cleaned (ctx r) None None ++ tr0 ++ [en] =
                          cleaned (ctx r) None None ++ rest)).
  { intros e tr0 en Hw Hd Hr Hr0. split.
    - split; [reflexivity|]. split; [exact Hw|]. split; [exact Hd|].
      right. exists tr0, en. split; [reflexivity|]. split; assumption.
    - intros _. eexists. reflexivity. }
  apply always_vis.
  { split; [exact I|]. split; [intros _; eexists; reflexivity|discriminate]. }
  intros [err|]; cbn.
  { apply always_ret.
    destruct (Hearly err [] (Entry LoSetARP (Some (Some err)))
                eq_refl eq_refl eq_refl eq_refl) as [H1 H2].
    split; [exact H1|]. split; [exact H2|discriminate]. }
  apply always_vis.
  { split; [exact I|]. split; [intros _; eexists; reflexivity|discriminate]. }
  intros [err|]; cbn.
  { apply always_ret.
    destruct (Hearly err [Entry LoSetARP (Some None)]
                (Entry LoSetRPFilter (Some (Some err)))
                eq_refl eq_refl eq_refl eq_refl) as [H1 H2].
    split; [exact H1|]. split; [exact H2|discriminate]. }
  apply always_vis.
  { split; [exact I|]. split; [intros _; eexists; reflexivity|discriminate]. }
  intros [err|]; cbn.
  { apply always_ret.
    destruct (Hearly err [Entry LoSetARP (Some None); Entry LoSetRPFilter (Some None)]
                (Entry PrimarySetARP (Some (Some err)))
                eq_refl eq_refl eq_refl eq_refl) as [H1 H2].
    split; [exact H1|]. split; [exact H2|discriminate]. }
  apply always_vis.
  { split; [exact I|]. split; [intros _; eexists; reflexivity|discriminate]. }
  intros [err|]; cbn.
  { apply always_ret.
    destruct (Hearly err [Entry LoSetARP (Some None); Entry LoSetRPFilter (Some None);
                          Entry PrimarySetARP (Some None)]
                (Entry (IPVSTeardown (ctx r)) (Some (Some err)))
                eq_refl eq_refl eq_refl eq_refl) as [H1 H2].
    split; [exact H1|]. split; [exact H2|discriminate]. }
  apply always_vis.
  { split; [exact I|]. split; [intros _; eexists; reflexivity|discriminate]. }
  intros [addresses|err]; cbn.
  2:{ apply always_ret.
      destruct (Hearly err [Entry LoSetARP (Some None); Entry LoSetRPFilter (Some None);
                            Entry PrimarySetARP (Some None);
                            Entry (IPVSTeardown (ctx r)) (Some None)]
                  (Entry PrimaryGet (Some (Err err)))
                  eq_refl eq_refl eq_refl eq_refl) as [H1 H2].
      split; [exact H1|]. split; [exact H2|discriminate]. }
  apply always_bind. eapply always_mono; [apply del_each_runs|]. cbn.
  set (pre := [Entry LoSetARP (Some None); Entry LoSetRPFilter (Some None);
               Entry PrimarySetARP (Some None); Entry (IPVSTeardown (ctx r)) (Some None);
               Entry PrimaryGet (Some (Ok addresses))]).
  intros [[[err|] r1]| |] c2 tr2 (Hw & Ha & Hd & H); [| |destruct H|].
  - destruct H as (-> & l1 & a & ->). cbn. apply always_ret. rewrite app_nil_r.
    destruct (Hearly err (pre ++ deleted l1) (Entry (PrimaryDel a) (Some (Some err))))
      as [H1 H2].
    + rewrite <- app_assoc. rewrite existsb_app. rewrite <- Hw. reflexivity.
    + rewrite <- app_assoc. rewrite existsb_app. rewrite <- Hd. reflexivity.
    + reflexivity.
    + rewrite existsb_app. apply existsb_deleted. reflexivity.
    + rewrite <- app_assoc in H1, H2. split; [exact H1|]. split; [exact H2|].
      intros Hx.
      change (existsb watching (pre ++ deleted l1 ++ [Entry (PrimaryDel a) (Some (Some err))])
              = true) in Hx.
      rewrite existsb_app, Hw in Hx. subst pre. cbn in Hx. discriminate.
  - destruct H as (-> & ->). cbn. apply always_vis.
    { split; [exact I|]. split; [intros _; eexists; reflexivity|].
      intros Hx.
      change (existsb watching (pre ++ deleted (elems addresses) ++
                                [Entry (WithCancel (ctx r)) None]) = true) in Hx.
      rewrite !existsb_app, existsb_deleted in Hx by reflexivity.
      subst pre. cbn in Hx. discriminate. }
    intros w. cbn. apply always_vis.
    { split; [exact I|]. split; [intros _; eexists; reflexivity|].
      intros _. exists addresses, w. eexists. reflexivity. }
    intros []. cbn. apply always_vis.
    { split; [exact I|]. split; [intros _; eexists; reflexivity|].
      intros _. exists addresses, w. eexists. reflexivity. }
    intros []. cbn. apply always_ret. split.
    { exists addresses, w. split; [reflexivity|]. reflexivity. }
    split; [intros _; eexists; reflexivity|].
    intros _. exists addresses, w. eexists. reflexivity.
  - split; [exact I|]. split; [intros _; eexists; reflexivity|].
    intros Hx. change (existsb watching (pre ++ tr2) = true) in Hx.
    rewrite existsb_app, Hw in Hx. subst pre. cbn in Hx. discriminate.
Qed.

Lemma existsb_refused_set_up c addresses w : existsb refused (set_up c addresses w) = false.
Proof.
  unfold set_up. rewrite !existsb_app, existsb_deleted by reflexivity. reflexivity.
Qed.

(** X20.  [setup] of the realserver calls, in this order: [cleanup] (loopback
    [Teardown], then iptables [Flush] whatever [Teardown] answered), ARP on
    the loopback, reverse-path filter, ARP on the primary device, IPVS
    [Teardown], [Get] of the primary addresses and [Del] of each, and only
    then derives the watch context and registers the configmap watcher and
    the node watcher with it.
    - No ARP or reverse-path rule is set unless both steps of [cleanup]
      answered nil before.
    - When [setup] returns an error, the worker is unchanged, no watch
      context was derived and no watcher registered; either [cleanup]
      failed (and the error lists each failed step), or the refused call is
      the last call made.
    - When it returns nil, no call was refused, and [cxlWatch] cancels the
      context both watchers were registered with.
    - It never panics. *)
Theorem setup_sets_arp_only_after_cleanup (r : realserver) clk :
  always clk (setup r) (fun o _ tr =>
    (existsb arp tr = true ->
     exists rest, tr = Entry (LoTeardown (ctx r)) (Some None) ::
                       Entry Flush (Some None) :: rest) /\
    (forall e r', o = Returned (Some e, r') ->
       r' = r /\ existsb watching tr = false /\ existsb derives tr = false /\
       ((exists e1 e2,
           tr = [Entry (LoTeardown (ctx r)) (Some e1); Entry Flush (Some e2)] /\
           cleanup_error e1 e2 = Some e) \/
        refused_last tr)) /\
    (forall r', o = Returned (None, r') ->
       existsb refused tr = false /\
       exists addresses w,
         tr = set_up (ctx r) addresses w /\
         cxlWatch r' = Some w /\ ctx r' = ctx r /\ reconfiguring r' = reconfiguring r) /\
    (forall msg, o <> Panicked msg)).
Proof.
  eapply always_mono; [apply setup_runs|]. cbn beta.
  intros o c tr (Ho & Harp & _). refine (conj Harp (conj _ (conj _ _))).
  - intros e r' ->. destruct Ho as (-> & Hw & Hd & H).
    split; [reflexivity|]. split; [exact Hw|]. split; [exact Hd|].
    destruct H as [(e1 & e2 & -> & He)|(tr0 & en & -> & Hen & Htr0)].
    + left. exists e1, e2. split; [reflexivity|exact He].
    + right. exists (cleaned (ctx r) None None ++ tr0), en.
      split; [rewrite <- app_assoc; reflexivity|]. split; [exact Hen|].
      rewrite existsb_app, Htr0. reflexivity.
  - intros r' ->. destruct Ho as (addresses & w & -> & ->).
    split; [apply existsb_refused_set_up|]. exists addresses, w.
    repeat split; reflexivity.
  - intros msg ->. exact Ho.
Qed.

Lemma Stop_runs (r : realserver) clk :
  reconfiguring r = false ->
  always clk (Stop r) (fun o _ tr =>
    match o with
    | Returned (e, r') =>
        r' = r /\
        exists d e1 e2,
          tr = match cxlWatch r with
               | Some c => [Entry (CancelCtx c) (Some tt)]
               | None => []
               end ++ stopped d e1 e2 /\
          e = cleanup_error e1 e2
    | Panicked _ => False
    | Blocked => True
    end).
Proof.
  intros Hr. unfold Stop, bind, get, setReconfiguring, modify, call, ret. cbn.
  rewrite Hr. cbn.
  destruct (cxlWatch r) as [c|] eqn:Hc; cbn.
  - apply always_vis; [exact I|]. intros []. cbn.
    apply always_vis; [exact I|]. intros []. cbn.
    apply always_vis; [exact I|]. intros d. cbn.
    apply always_bind. eapply always_mono; [apply cleanup_runs|]. cbn.
    intros [[e r1]| |] c1 tr1 H; [|destruct H|exact I].
    destruct H as (-> & e1 & e2 & -> & ->). cbn.
    apply always_vis; [exact I|]. intros []. cbn.
    repeat (apply always_ret; cbn).
    split; [destruct r; cbn in *; subst; reflexivity|].
    exists d, e1, e2. split; reflexivity.
  - apply always_vis; [exact I|]. intros []. cbn.
    apply always_vis; [exact I|]. intros d. cbn.
    apply always_bind. eapply always_mono; [apply cleanup_runs|]. cbn.
    intros [[e r1]| |] c1 tr1 H; [|destruct H|exact I].
    destruct H as (-> & e1 & e2 & -> & ->). cbn.
    apply always_vis; [exact I|]. intros []. cbn.
    repeat (apply always_ret; cbn).
    split; [destruct r; cbn in *; subst; reflexivity|].
    exists d, e1, e2. split; reflexivity.
Qed.

Lemma cancellations_nil (tr : list (entry lE)) :
  Forall (fun en => cancels_nothing (ecall en)) tr -> cancellations tr = [].
Proof.
  induction 1 as [|[X e x] tr He _ IH]; [reflexivity|].
  unfold cancellations in *. cbn in *. destruct e; cbn in *; try exact IH. destruct He.
Qed.

Lemma del_each_cancels_nothing l (r : realserver) : only_calls cancels_nothing (del_each l r).
Proof.
  induction l as [|a l IH]; cbn; [exact I|].
  split; [exact I|]. intros [err|]; cbn; [exact I | exact IH].
Qed.

Lemma Start_cancels_nothing (r : realserver) : only_calls cancels_nothing (Start r).
Proof.
  unfold Start, setup, or_return, cleanup, bind, get, setReconfiguring, modify, call, ret.
  cbn. destruct (reconfiguring r); cbn; [exact I|].
  split; [exact I|]. intros e1. cbn. split; [exact I|]. intros e2.
  destruct e1 as [a|], e2 as [b|]; cbn; try exact I.
  split; [exact I|]. intros [err|]; cbn; [exact I|].
  split; [exact I|]. intros [err|]; cbn; [exact I|].
  split; [exact I|]. intros [err|]; cbn; [exact I|].
  split; [exact I|]. intros [err|]; cbn; [exact I|].
  split; [exact I|]. intros [addresses|err]; cbn; [|exact I].
  repeat apply only_calls_pbind; try apply del_each_cancels_nothing.
  all: try (intros [[err|] r1]; cbn; try exact I).
  all: try (split; [exact I|]; intros w; cbn).
  all: try (split; [exact I|]; intros []; cbn).
  all: try (split; [exact I|]; intros []; cbn).
  all: try exact I.
  all: try (intros [[err|] r2]; cbn; try exact I).
  all: try (split; [exact I|]; intros []; cbn).
  all: try (split; [exact I|]; intros []; cbn).
  all: try exact I.
  all: try (intros [x r3]; cbn; exact I).
Qed.

Lemma Start_runs (r : realserver) clk :
  reconfiguring r = false ->
  always clk (Start r) (fun o _ tr =>
    match o with
    | Returned (None, r') =>
        exists addresses w,
          r' = {| ctx := ctx r; cxlWatch := Some w; reconfiguring := false |} /\
          tr = set_up (ctx r) addresses w ++
               [Entry GoPeriodic (Some tt); Entry GoWatches (Some tt)]
    | Returned (Some e, r') => r' = r /\ existsb watching tr = false
    | Panicked _ => False
    | Blocked => True
    end).
Proof.
  intros Hr. unfold Start, bind, get, setReconfiguring, modify, call, ret. cbn.
  rewrite Hr. cbn. apply always_bind. apply always_bind.
  eapply always_mono; [apply setup_runs|]. cbn.
  intros [[[e|] r1]| |] c1 tr1 (H & _); [| |destruct H|exact I].
  - destruct H as (-> & Hw & _). cbn. apply always_ret. cbn. apply always_ret.
    rewrite !app_nil_r. split; [destruct r; cbn in *; subst; reflexivity|exact Hw].
  - destruct H as (addresses & w & -> & ->). cbn.
    apply always_vis; [exact I|]. intros []. cbn.
    apply always_vis; [exact I|]. intros []. cbn.
    apply always_ret. cbn. apply always_ret.
    exists addresses, w. rewrite !app_nil_r. split; reflexivity.
Qed.

(** X21.  [Start] and [Stop] of the realserver refuse to run while
    [reconfiguring] is set, returning an error without any call.  Otherwise
    they never panic and always return with [reconfiguring] cleared.
    [Start] starts the two goroutines, [periodic] before [watches], exactly
    when [setup] succeeded, as its last two calls, and then holds the cancel
    function of the watch context [setup] derived; when it returns an error
    the worker is unchanged and nothing is being watched.  [Start] never
    cancels a context, so a watch context left by an earlier [Start] stays
    alive.  [Stop] cancels the watch context if the worker holds one (and
    skips that when it holds none, as before any [Start]), waits for the
    periodic task, runs [cleanup] under a fresh timeout context, cancels
    that context and returns the error of [cleanup]; it leaves the worker as
    it was, the watch cancel function included. *)
Theorem realserver_Start_and_Stop (r : realserver) clk :
  (reconfiguring r = true ->
   Start r = Ret (Some "unable to Start. reconfiguration already in progress.", r) /\
   Stop r = Ret (Some "unable to Stop. reconfiguration already in progress.", r)) /\
  (reconfiguring r = false ->
   always clk (Start r) (fun o _ tr =>
     (forall msg, o <> Panicked msg) /\
     cancellations tr = [] /\
     forall e r', o = Returned (e, r') ->
       reconfiguring r' = false /\ ctx r' = ctx r /\
       match e with
       | None =>
           exists addresses w,
             tr = set_up (ctx r) addresses w ++
                  [Entry GoPeriodic (Some tt); Entry GoWatches (Some tt)] /\
             cxlWatch r' = Some w
       | Some _ => r' = r /\ existsb watching tr = false
       end) /\
   always clk (Stop r) (fun o _ tr =>
     (forall msg, o <> Panicked msg) /\
     forall e r', o = Returned (e, r') ->
       r' = r /\
       exists d e1 e2,
         tr = match cxlWatch r with
              | Some c => [Entry (CancelCtx c) (Some tt)]
              | None => []
              end ++
              [Entry AwaitDone (Some tt); Entry WithTimeout (Some d);
               Entry (LoTeardown d) (Some e1); Entry Flush (Some e2);
               Entry (CancelCtx d) (Some tt)] /\
         e = cleanup_error e1 e2)).
Proof.
  split.
  - intros Hr. unfold Start, Stop, bind, get, ret. cbn. rewrite Hr. split; reflexivity.
  - intros Hr. split.
    + eapply always_mono.
      { apply always_and; [apply (only_calls_trace cancels_nothing), Start_cancels_nothing|].
        apply (Start_runs r clk Hr). }
      cbn beta. intros o c tr [Hc H]. split; [intros msg ->; exact H|].
      split; [apply cancellations_nil, Hc|].
      intros e r' ->. destruct e as [e|].
      * destruct H as [-> Hw]. split; [exact Hr|]. split; [reflexivity|].
        split; [reflexivity|exact Hw].
      * destruct H as (addresses & w & -> & ->). split; [reflexivity|].
        split; [reflexivity|]. exists addresses, w. split; reflexivity.
    + eapply always_mono; [apply (Stop_runs r clk Hr)|]. cbn beta.
      intros o c tr H. split; [intros msg ->; exact H|].
      intros e r' ->. exact H.
Qed.

Lemma realserver_Start_and_Stop_witness :
  reconfiguring (NewRealServer 0) = false /\
  cancellations (trace (run (Start (NewRealServer 0)) calm 1 0)) = [] /\
  exists r',
    out (run (Start (NewRealServer 0)) calm 1 0) = Returned (None, r') /\
    reconfiguring r' = false /\ ctx r' = 0.
Proof.
  split; [reflexivity|].
  destruct (proj1 (proj2 (@realserver_Start_and_Stop (NewRealServer 0) 0) eq_refl)
              nat calm 1) as (_ & Hc & H).
  split; [exact Hc|].
  assert (Hout : exists r', out (run (Start (NewRealServer 0)) calm 1 0) = Returned (None, r')).
  { eexists. vm_compute. reflexivity. }
  destruct Hout as [r' Hout]. exists r'. split; [exact Hout|].
  destruct (H None r' Hout) as (Hrec & Hctx & _). split; [exact Hrec|exact Hctx].
Defined.

End RealserverLifecycleFacts.

Section DirectorLifecycleFacts.
Import Lifecycle LifecycleRuns LifecycleExamples DirectorLifecycle.

(** X22.  The director's [Stop] calls [b.cxlWatch] without a nil check, and only
    a [Start] that succeeded sets it.  So:
    - [Stop] on a director that holds no watch cancel function (as
      [NewBGPWorker] leaves it, or after a [Start] that failed) panics with
      a nil dereference before making any call;
    - [Start] first stops every HAProxy instance and tears the loopback
      addresses down; if that fails it returns the error, leaves the worker
      unchanged and starts nothing; if it succeeds it derives the watch
      context, registers the node watcher ("bpg-nodes") and the configmap
      watcher with it and starts [watches] and [periodic], in this order;
      it never panics and never cancels a context, so a watch context left
      by an earlier [Start] stays alive;
    - a [Stop] that returns has cancelled the watch context, waited,
      stopped every HAProxy instance and torn down the loopback addresses
      under a fresh timeout context, cancelled that context, and returns
      the error of the teardown; it leaves the worker as it was. *)
Theorem director_Stop_needs_a_successful_Start (b : bgpserver) clk :
  (cxlWatch b = None -> Stop b = Panic nil_call) /\
  always clk (Start b) (fun o _ tr =>
    (forall msg, o <> Panicked msg) /\
    cancellations tr = [] /\
    forall e b', o = Returned (e, b') ->
      match e with
      | Some err =>
          b' = b /\
          exists terr,
            tr = [Entry StopAllHAProxy (Some tt);
                  Entry (LoTeardown (ctx b)) (Some (Some terr))] /\
            err = format_errs ["cleanup - failed to remove ip addresses - " +:+ terr]
      | None =>
          exists w, b' = {| ctx := ctx b; cxlWatch := Some w |} /\
                    tr = director_started (ctx b) w
      end) /\
  always clk (Stop b) (fun o _ tr =>
    (forall msg, o = Panicked msg -> cxlWatch b = None /\ tr = [] /\ msg = nil_call) /\
    forall e b', o = Returned (e, b') ->
      b' = b /\
      exists w d te,
        cxlWatch b = Some w /\
        tr = [Entry (CancelCtx w) (Some tt); Entry AwaitDone (Some tt);
              Entry WithTimeout (Some d); Entry StopAllHAProxy (Some tt);
              Entry (LoTeardown d) (Some te); Entry (CancelCtx d) (Some tt)] /\
        e = match te with
            | Some terr =>
                Some (format_errs ["cleanup - failed to remove ip addresses - " +:+ terr])
            | None => None
            end).
Proof.
  refine (conj _ (conj _ _)).
  - intros Hc. unfold Stop, bind, get, panic. cbn. rewrite Hc. reflexivity.
  - unfold Start, setup, cleanup, bind, get, put, call, ret. cbn.
    apply always_vis.
    { split; [intros msg; discriminate|]. split; [reflexivity|]. intros e b'; discriminate. }
    intros []. cbn. apply always_vis.
    { split; [intros msg; discriminate|]. split; [reflexivity|]. intros e b'; discriminate. }
    intros [terr|]; cbn.
    { apply always_ret. split; [intros msg; discriminate|]. split; [reflexivity|].
      intros e b' [= <- <-]. split; [reflexivity|]. exists terr. split; reflexivity. }
    apply always_vis.
    { split; [intros msg; discriminate|]. split; [reflexivity|]. intros e b'; discriminate. }
    intros w. cbn. apply always_vis.
    { split; [intros msg; discriminate|]. split; [reflexivity|]. intros e b'; discriminate. }
    intros []. cbn. apply always_vis.
    { split; [intros msg; discriminate|]. split; [reflexivity|]. intros e b'; discriminate. }
    intros []. cbn. apply always_vis.
    { split; [intros msg; discriminate|]. split; [reflexivity|]. intros e b'; discriminate. }
    intros []. cbn. apply always_vis.
    { split; [intros msg; discriminate|]. split; [reflexivity|]. intros e b'; discriminate. }
    intros []. cbn. apply always_ret.
    split; [intros msg; discriminate|]. split; [reflexivity|].
    intros e b' [= <- <-]. exists w. split; reflexivity.
  - unfold Stop, cleanup, bind, get, put, call, ret, panic. cbn.
    destruct (cxlWatch b) as [w|] eqn:Hc; cbn.
    2:{ apply always_panic. split; [|intros e b'; discriminate].
        intros msg [= <-]. repeat split; reflexivity. }
    apply always_vis.
    { split; [intros msg; discriminate|intros e b'; discriminate]. }
    intros []. cbn. apply always_vis.
    { split; [intros msg; discriminate|intros e b'; discriminate]. }
    intros []. cbn. apply always_vis.
    { split; [intros msg; discriminate|intros e b'; discriminate]. }
    intros d. cbn. apply always_vis.
    { split; [intros msg; discriminate|intros e b'; discriminate]. }
    intros []. cbn. apply always_vis.
    { split; [intros msg; discriminate|intros e b'; discriminate]. }
    intros te. cbn.
    destruct te as [terr|]; cbn;
      (apply always_vis; [split; [intros msg; discriminate|intros e b'; discriminate]|]);
      intros []; cbn; apply always_ret; (split; [intros msg; discriminate|]);
      intros e b' [= <- <-]; (split; [reflexivity|]).
    + exists w, d, (Some terr). repeat split; reflexivity.
    + exists w, d, None. repeat split; reflexivity.
Qed.

Lemma director_Stop_needs_a_successful_Start_witness :
  cxlWatch (NewBGPWorker 0) = None /\
  out (run (Stop (NewBGPWorker 0)) calm 1 0) = Panicked nil_call /\
  exists b',
    out (run (Start (NewBGPWorker 0)) calm 1 0) = Returned (None, b') /\
    out (run (Stop b') calm 2 0) = Returned (None, b').
Proof.
  split; [reflexivity|].
  destruct (@director_Stop_needs_a_successful_Start (NewBGPWorker 0) 0) as (Hp & _ & _).
  split; [rewrite (Hp eq_refl); reflexivity|].
  eexists. split; vm_compute; reflexivity.
Defined.

End DirectorLifecycleFacts.

(** * The director's table of services *)

Section ServicesTable.
Import DirectorServices.
Variable Itoa : Z -> string.

Lemma port_loop_lookup svcName svc ports (acc : gmap string string) id addr :
  port_loop Itoa svcName svc ports acc !! id = Some addr ->
  acc !! id = Some addr \/
  exists port, port ∈ ports /\ id = identifier svcName port /\
               addr = cluster_addr Itoa svc port.
Proof.
  revert acc. induction ports as [|p ports IH]; intros acc; cbn; [auto|].
  intros H. destruct (IH _ H) as [Hacc|(port & Hin & Hid & Haddr)].
  - destruct (decide (identifier svcName p = id)) as [<-|Hne].
    + rewrite lookup_insert_eq in Hacc. injection Hacc as <-.
      right. exists p. split; [constructor|]. split; reflexivity.
    + rewrite lookup_insert_ne in Hacc by exact Hne. left. exact Hacc.
  - right. exists port. split; [constructor; exact Hin|]. split; assumption.
Qed.

Lemma port_loop_keeps svcName svc ports (acc : gmap string string) id :
  is_Some (acc !! id) -> is_Some (port_loop Itoa svcName svc ports acc !! id).
Proof.
  revert acc. induction ports as [|p ports IH]; intros acc; cbn; [auto|].
  intros H. apply IH. destruct (decide (identifier svcName p = id)) as [<-|Hne].
  - rewrite lookup_insert_eq. eauto.
  - rewrite lookup_insert_ne by exact Hne. exact H.
Qed.

Lemma port_loop_has svcName svc ports (acc : gmap string string) port :
  port ∈ ports ->
  is_Some (port_loop Itoa svcName svc ports acc !! identifier svcName port).
Proof.
  revert acc. induction ports as [|p ports IH]; intros acc Hin; cbn.
  - inversion Hin.
  - inversion Hin; subst.
    + apply port_loop_keeps. rewrite lookup_insert_eq. eauto.
    + apply IH. assumption.
Qed.

Lemma service_loop_sound entries (acc services : gmap string string) id addr :
  service_loop Itoa entries acc = Some services ->
  services !! id = Some addr ->
  acc !! id = Some addr \/
  exists svcName svc port,
    (svcName, Some svc) ∈ entries /\ ClusterIP svc <> "" /\
    port ∈ elems (Ports svc) /\
    id = identifier svcName port /\ addr = cluster_addr Itoa svc port.
Proof.
  revert acc. induction entries as [|[name [svc|]] rest IH]; intros acc; cbn.
  - intros [= <-] H. left. exact H.
  - assert (Hlater : forall acc',
      service_loop Itoa rest acc' = Some services -> services !! id = Some addr ->
      acc' !! id = Some addr \/
      exists svcName svc0 port,
        (svcName, Some svc0) ∈ (name, Some svc) :: rest /\ ClusterIP svc0 <> "" /\
        port ∈ elems (Ports svc0) /\
        id = identifier svcName port /\ addr = cluster_addr Itoa svc0 port).
    { intros acc' H1 H2. destruct (IH _ H1 H2) as [H|(n & s & p & Hin & H)]; [auto|].
      right. exists n, s, p. split; [constructor; exact Hin|exact H]. }
    destruct (String.eqb_spec (ClusterIP svc) "") as [Hip|Hip]; [apply Hlater|].
    destruct (Ports svc) as [|ports] eqn:Hports; [apply Hlater|].
    intros H1 H2. destruct (Hlater _ H1 H2) as [H|H]; [|right; exact H].
    destruct (@port_loop_lookup _ _ _ _ _ _ H) as [Hacc|(port & Hin & Hid & Haddr)]; [auto|].
    right. exists name, svc, port. split; [constructor|]. split; [exact Hip|].
    rewrite Hports. split; [exact Hin|]. split; assumption.
  - discriminate.
Qed.

Lemma service_loop_complete entries (acc services : gmap string string) :
  service_loop Itoa entries acc = Some services ->
  (forall id, is_Some (acc !! id) -> is_Some (services !! id)) /\
  (forall svcName svc port,
     (svcName, Some svc) ∈ entries -> ClusterIP svc <> "" ->
     port ∈ elems (Ports svc) ->
     is_Some (services !! identifier svcName port)).
Proof.
  revert acc. induction entries as [|[name [svc|]] rest IH]; intros acc; cbn.
  - intros [= <-]. split; [auto|]. intros n s p Hin. inversion Hin.
  - destruct (String.eqb_spec (ClusterIP svc) "") as [Hip|Hip].
    { intros H. destruct (IH _ H) as [Hk Hh]. split; [exact Hk|].
      intros n s p Hin Hne Hp. inversion Hin; subst; [contradiction|]. eapply Hh; eassumption. }
    destruct (Ports svc) as [|ports] eqn:Hports.
    { intros H. destruct (IH _ H) as [Hk Hh]. split; [exact Hk|].
      intros n s p Hin Hne Hp. inversion Hin; subst.
      - rewrite Hports in Hp. inversion Hp.
      - eapply Hh; eassumption. }
    intros H. destruct (IH _ H) as [Hk Hh]. split.
    + intros id Hid. apply Hk, port_loop_keeps, Hid.
    + intros n s p Hin Hne Hp. inversion Hin; subst.
      * apply Hk, port_loop_has. rewrite Hports in Hp. exact Hp.
      * eapply Hh; eassumption.
  - discriminate.
Qed.

Lemma service_loop_nil entries (acc : gmap string string) :
  service_loop Itoa entries acc = None <-> exists svcName, (svcName, None) ∈ entries.
Proof.
  revert acc. induction entries as [|[name [svc|]] rest IH]; intros acc; cbn.
  - split; [discriminate|]. intros [n Hin]. inversion Hin.
  - assert (Hiff : (exists n, (n, None) ∈ (name, Some svc) :: rest) <->
                   (exists n, (n, @None Service) ∈ rest)).
    { split; intros [n Hin]; exists n; [inversion Hin; subst; assumption|].
      constructor. exact Hin. }
    rewrite Hiff.
    destruct (String.eqb (ClusterIP svc) ""); [apply IH|].
    destruct (Ports svc); apply IH.
  - split; [|reflexivity]. intros _. exists name. constructor.
Qed.

(** X23.  After a tick of [watchServiceUpdates] the table holds exactly what the
    services just listed give, whatever it held before: every entry maps
    "<service name>:<port name>" to "<cluster IP>:<port number>" for a port
    of a listed service that has a cluster IP, and every such port has an
    entry.  A service without cluster IP contributes nothing.  Hence
    [getClusterAddr] finds an address for every port of a listed service
    with a cluster IP, an address it returns is such a port's, and it
    answers "not found" for anything else, in particular for what only an
    earlier listing held.  The tick makes the one call [Services], and it
    panics exactly when the listing holds a nil service. *)
Theorem services_table_holds_the_listed_ports (old : gmap string string) clk :
  always clk (watchServiceUpdates_tick Itoa old) (fun o _ tr =>
    (o = Blocked /\ tr = [Entry Services None]) \/
    exists all,
      tr = [Entry Services (Some all)] /\
      ((exists msg, o = Panicked msg) <-> exists svcName, all !! svcName = Some None) /\
      forall u services, o = Returned (u, services) ->
        (forall id addr, services !! id = Some addr -> serves Itoa all id addr) /\
        (forall id addr, serves Itoa all id addr -> is_Some (services !! id)) /\
        (forall id addr,
           getClusterAddr id services = Ret (Ok addr, services) ->
           serves Itoa all id addr) /\
        (forall id,
           (forall addr, ~ serves Itoa all id addr) ->
           getClusterAddr id services = Ret (Err "not found", services))).
Proof.
  unfold watchServiceUpdates_tick, bind, call, put, panic. cbn.
  apply always_vis; [left; split; reflexivity|]. intros all.
  assert (Hsound : forall services id addr,
            service_loop Itoa (map_to_list all) ∅ = Some services ->
            services !! id = Some addr -> serves Itoa all id addr).
  { intros services id addr Hl Hs.
    destruct (@service_loop_sound _ _ _ _ _ Hl Hs) as [H|(n & s & p & Hin & Hne & Hp & Hid & Ha)].
    - rewrite lookup_empty in H. discriminate.
    - exists n, s, p. split; [apply elem_of_map_to_list, Hin|]. auto. }
  destruct (service_loop Itoa (map_to_list all) ∅) as [services|] eqn:Hl; cbn.
  - apply always_ret. right. exists all. split; [reflexivity|]. split.
    + split; [intros [msg H]; discriminate|]. intros [n Hn].
      assert (Hnone : service_loop Itoa (map_to_list all) ∅ = None).
      { apply service_loop_nil. exists n. apply elem_of_map_to_list, Hn. }
      rewrite Hnone in Hl. discriminate.
    + intros u services' [= _ <-].
      assert (H1 : forall id addr, services !! id = Some addr -> serves Itoa all id addr).
      { intros id addr. apply Hsound. reflexivity. }
      assert (H2 : forall id addr, serves Itoa all id addr -> is_Some (services !! id)).
      { intros id addr (n & s & p & Hn & Hne & Hp & -> & _).
        apply (proj2 (@service_loop_complete _ _ _ Hl) n s p); [|exact Hne|exact Hp].
        apply elem_of_map_to_list, Hn. }
      refine (conj H1 (conj H2 (conj _ _))).
      * intros id addr. unfold getClusterAddr, bind, get, ret. cbn.
        destruct (services !! id) as [a|] eqn:Ha; cbn; [|discriminate].
        intros [= <-]. apply H1, Ha.
      * intros id Hno. unfold getClusterAddr, bind, get, ret. cbn.
        destruct (services !! id) as [a|] eqn:Ha; cbn; [|reflexivity].
        destruct (Hno a). apply H1, Ha.
  - apply always_panic. right. exists all. split; [reflexivity|].
    split; [|intros u services; discriminate].
    split; [|intros _; eexists; reflexivity]. intros _.
    destruct (proj1 (@service_loop_nil _ _) Hl) as [n Hn]. exists n.
    apply elem_of_map_to_list, Hn.
Qed.

End ServicesTable.

(** * The director's HAProxy configuration *)

Section ConfigureHAProxyFacts.
Import HAProxy HAProxyActs HAProxyRuns HAProxySetRuns types DirectorHAProxy.
Variable Atoi : string -> Z.

Lemma set_haproxy_same (b : bgpserver) : set_haproxy (haproxy b) b = b.
Proof. destruct b; reflexivity. Qed.

Lemma on_haproxy_runs {A} (m : M haE HAProxySetManager A) (b : bgpserver) clk
    (Q : outcome (A * HAProxySetManager) -> time -> list (entry haE) -> Prop) :
  always clk (m (haproxy b)) Q ->
  always clk (on_haproxy m b) (fun o c tr =>
    match o with
    | Returned (a, b') => exists s', b' = set_haproxy s' b /\ Q (Returned (a, s')) c tr
    | Panicked msg => Q (Panicked msg) c tr
    | Blocked => Q Blocked c tr
    end).
Proof.
  intros H. unfold on_haproxy. apply always_bind. eapply always_mono; [exact H|].
  intros [[a s']| |] c tr HQ; cbn; [|exact HQ|exact HQ].
  apply always_ret. exists s'. rewrite app_nil_r. split; [reflexivity|exact HQ].
Qed.

Lemma port_map_loop_runs entries (sa : slice string) (lp : slice uint16)
    (b : bgpserver) clk :
  always clk (port_map_loop Atoi entries sa lp b) (fun o _ _ =>
    forall sa' lp' b', o = Returned ((sa', lp'), b') ->
      b' = b /\ (len sa = len lp -> len sa' = len lp')).
Proof.
  revert sa lp clk. induction entries as [|[port cfg] rest IH]; intros sa lp clk; cbn.
  - apply always_ret. intros sa' lp' b' [= <- <- <-]. auto.
  - unfold bind, get, call. cbn. destruct (services b !! identity cfg) as [addr4|]; cbn.
    + eapply always_mono; [apply IH|]. cbn. intros o c tr H sa' lp' b' Ho.
      destruct (H sa' lp' b' Ho) as [-> Hlen]. split; [reflexivity|].
      intros Heq. apply Hlen. unfold len, append in *. cbn. rewrite !length_app. cbn. lia.
    + apply always_vis; [intros sa' lp' b'; discriminate|]. intros []. cbn.
      apply IH.
Qed.

Lemma vip_loop_runs entries (c : ClusterConfig) (addrs : slice string)
    (cs : gmap string VIPConfig) (b : bgpserver) clk :
  always clk (vip_loop Atoi entries c addrs cs b) (fun o _ _ =>
    forall addrs' cs' b', o = Returned ((addrs', cs'), b') ->
      b' = b /\
      (aligned cs -> aligned cs') /\
      ((forall a, a ∈ elems addrs -> is_Some (cs !! a)) ->
       forall a, a ∈ elems addrs' -> is_Some (cs' !! a))).
Proof.
  revert addrs cs clk. induction entries as [|[ip portMap] rest IH]; intros addrs cs clk; cbn.
  - apply always_ret. intros addrs' cs' b' [= <- <- <-]. auto.
  - unfold bind at 1. apply always_bind.
    eapply always_mono; [apply port_map_loop_runs|]. cbn.
    intros [[[sa lp] b1]| |] c1 tr1 H; cbn;
      [|intros ? ? ?; discriminate|intros ? ? ?; discriminate].
    destruct (H sa lp b1 eq_refl) as [-> Hlen]. specialize (Hlen eq_refl).
    eapply always_mono; [apply IH|]. cbn.
    intros o c2 tr2 H2 addrs' cs' b' Ho. destruct (H2 addrs' cs' b' Ho) as (-> & Hal & Hdom).
    split; [reflexivity|]. split.
    + intros Hcs. apply Hal. intros k v Hk.
      destruct (decide (default "" (IPV6 c !! ip) = k)) as [<-|Hne].
      * rewrite lookup_insert_eq in Hk. injection Hk as <-. cbn. split; [reflexivity|exact Hlen].
      * rewrite lookup_insert_ne in Hk by exact Hne. apply Hcs, Hk.
    + intros Hcs. apply Hdom. intros a Ha. unfold append in Ha. cbn in Ha.
      destruct (decide (default "" (IPV6 c !! ip) = a)) as [<-|Hne].
      * rewrite lookup_insert_eq. eauto.
      * rewrite lookup_insert_ne by exact Hne. apply Hcs.
        apply elem_of_app in Ha as [Ha|Ha]; [exact Ha|].
        apply list_elem_of_singleton in Ha. congruence.
Qed.

Lemma stop_each_runs removals (b : bgpserver) clk :
  always clk (stop_each removals b) (fun o _ _ =>
    (forall msg, o <> Panicked msg) /\ forall u b', o = Returned (u, b') -> b' = b).
Proof.
  revert clk. induction removals as [|r rest IH]; intros clk; cbn.
  - apply always_ret. split; [intros msg; discriminate|]. intros u b' [= _ <-]. reflexivity.
  - unfold bind. apply always_bind.
    eapply always_mono; [apply on_haproxy_runs, StopOne_runs|]. cbn.
    intros [[u b1]| |] c tr H; cbn.
    + destruct H as (s' & -> & H).
      assert (s' = haproxy b) as ->.
      { destruct (cancelFuncs (haproxy b) !! r).
        - destruct H as [[[= _ ->] _]|[[=] _]]. reflexivity.
        - destruct H as [[= _ ->] _]. reflexivity. }
      rewrite set_haproxy_same. apply IH.
    + destruct (cancelFuncs (haproxy b) !! r).
      * destruct H as [[[=] _]|[[=] _]].
      * destruct H as [[=] _].
    + split; [intros msg; discriminate|intros u b'; discriminate].
Qed.

Lemma Configure_keeps_created (cs : gmap string VIPConfig) (s0 s : HAProxySetManager)
    (a : string) v clk :
  aligned cs -> cs !! a = Some v -> created_from cs s0 s ->
  always clk (Configure v s) (fun o _ _ =>
    forall e s', o = Returned (e, s') -> created_from cs s0 s').
Proof.
  intros Hal Hv Hinv. destruct (Hal a v Hv) as [Ha _].
  eapply always_mono; [apply Configure_runs|]. cbn beta.
  intros o c tr H e s' ->. rewrite Ha in H.
  destruct (sources s !! a) as [inst|] eqn:Hl.
  - destruct H as (inst' & -> & Hrun). intros k i Hk Hk0. cbn in Hk.
    destruct (decide (a = k)) as [<-|Hne].
    + rewrite lookup_insert_eq in Hk. injection Hk as <-.
      destruct (Hinv a inst Hl Hk0) as (v0 & Hv0 & Hla & Hsa & Hp).
      rewrite Hv in Hv0. injection Hv0 as <-.
      assert (inst' = inst) as ->.
      { inversion Hrun; subst; try reflexivity; exfalso; auto. }
      exists v. auto.
    + rewrite lookup_insert_ne in Hk by exact Hne. apply Hinv; assumption.
  - destruct H as (c2 & pre & H). cbn zeta in H. destruct e as [err|].
    + destruct H as (-> & _). exact Hinv.
    + destruct H as (-> & _). intros k i Hk Hk0. cbn in Hk.
      destruct (decide (a = k)) as [<-|Hne].
      * rewrite lookup_insert_eq in Hk. injection Hk as <-.
        exists v. cbn. auto.
      * rewrite lookup_insert_ne in Hk by exact Hne. apply Hinv; assumption.
Qed.

Lemma configure_each_runs addrs (cs : gmap string VIPConfig) (s0 : HAProxySetManager)
    (b : bgpserver) clk :
  aligned cs -> (forall a, a ∈ addrs -> is_Some (cs !! a)) ->
  created_from cs s0 (haproxy b) ->
  always clk (configure_each addrs cs b) (fun o _ _ =>
    forall e b', o = Returned (e, b') ->
      services b' = services b /\ config b' = config b /\
      created_from cs s0 (haproxy b')).
Proof.
  intros Hal. revert b clk. induction addrs as [|a rest IH]; intros b clk Hdom Hinv; cbn.
  - apply always_ret. intros e b' [= _ <-]. auto.
  - destruct (Hdom a) as [v Hv]; [constructor|]. rewrite Hv. cbn.
    unfold bind. apply always_bind.
    eapply always_mono; [apply on_haproxy_runs, (@Configure_keeps_created cs s0 _ a v _ Hal Hv Hinv)|].
    cbn. intros [[e b1]| |] c tr H; cbn;
      [|intros ? ?; discriminate|intros ? ?; discriminate].
    destruct H as (s' & -> & H). specialize (H e s' eq_refl).
    destruct e as [err|]; cbn.
    + apply always_ret. intros e b' [= _ <-]. auto.
    + eapply always_mono; [apply IH|].
      * intros a' Ha'. apply Hdom. constructor. exact Ha'.
      * exact H.
      * cbn. intros o c' tr' H' e b' Ho. destruct (H' e b' Ho) as (Hs & Hc & Hi). auto.
Qed.

(** X24.  [configureHAProxy] dereferences the configuration first: without one
    it panics before any call.  Otherwise, whenever it returns, with nil or
    with the error of the first [Configure] that failed, it has changed
    nothing of the worker but the HAProxy set, and every instance it
    created, that is every instance under an address the set did not know
    before, listens on that address and holds as many listen ports as
    service addresses: a port whose service has no cluster address is
    dropped together with its address, so the two slices stay paired. *)
Theorem configureHAProxy_creates_instances_with_paired_ports (b : bgpserver) clk :
  (config b = None -> configureHAProxy Atoi b = Panic nil_dereference) /\
  always clk (configureHAProxy Atoi b) (fun o _ _ =>
    forall e b', o = Returned (e, b') ->
      services b' = services b /\ config b' = config b /\
      forall k inst,
        sources (haproxy b') !! k = Some inst -> sources (haproxy b) !! k = None ->
        listenAddr inst = k /\ len (serviceAddrs inst) = len (ports inst)).
Proof.
  split.
  { intros Hc. unfold configureHAProxy, bind, get, panic. cbn. rewrite Hc. reflexivity. }
  unfold configureHAProxy. unfold bind at 1, get. cbn [pbind fst snd].
  destruct (config b) as [c|] eqn:Hc.
  2:{ apply always_panic. intros e b'; discriminate. }
  apply always_mbind. eapply always_mono; [apply vip_loop_runs|]. cbn beta.
  intros [[[addrs cs] b1]| |] c1 tr1 H;
    [|intros ? ?; discriminate|intros ? ?; discriminate].
  destruct (H addrs cs b1 eq_refl) as (-> & Hal & Hdom). clear H.
  assert (Hal' : aligned cs).
  { apply Hal. intros k v Hk. rewrite lookup_empty in Hk. discriminate. }
  assert (Hdom' : forall a, a ∈ elems addrs -> is_Some (cs !! a)).
  { apply Hdom. intros a Ha. cbn in Ha. inversion Ha. }
  clear Hal Hdom. cbn [fst snd].
  apply always_mbind. eapply always_mono.
  { apply on_haproxy_runs.
    instantiate (1 := fun o _ _ => forall r s', o = Returned (r, s') -> s' = haproxy b).
    unfold GetRemovals, bind, get, ret. cbn. apply always_ret.
    intros r s' [= _ <-]. reflexivity. }
  cbn beta. intros [[removals b2]| |] c2 tr2 H;
    [|intros ? ?; discriminate|intros ? ?; discriminate].
  destruct H as (s' & -> & H). rewrite (H removals s' eq_refl), set_haproxy_same. clear H s'.
  apply always_mbind. eapply always_mono; [apply stop_each_runs|]. cbn beta.
  intros [[u b3]| |] c3 tr3 [_ H];
    [|intros ? ?; discriminate|intros ? ?; discriminate].
  rewrite (H u b3 eq_refl). clear H b3.
  eapply always_mono.
  { apply (@configure_each_runs (elems addrs) cs (haproxy b) b c3 Hal' Hdom').
    intros k inst Hk Hk0. rewrite Hk in Hk0. discriminate. }
  cbn beta. intros o c4 tr4 H e b' Ho. destruct (H e b' Ho) as (Hs & Hcf & Hinv).
  split; [exact Hs|]. split; [rewrite Hcf; exact Hc|].
  intros k inst Hk Hk0. destruct (Hinv k inst Hk Hk0) as (v & Hv & Hla & Hsa & Hp).
  split; [exact Hla|]. rewrite Hsa, Hp. apply (Hal' k v Hv).
Qed.

End ConfigureHAProxyFacts.

Section ConfigureHAProxyExample.
Import HAProxy types DirectorHAProxy DirectorHAProxyExamples Examples.

Lemma configureHAProxy_creates_instances_with_paired_ports_witness :
  let f := run (configureHAProxy example_Atoi v6_director) os_handler (example_os []) 0 in
  exists b' inst,
    out f = Returned (None, b') /\
    sources (haproxy b') !! "fd00::1" = Some inst /\
    listenAddr inst = "fd00::1" /\
    serviceAddrs inst = Slice ["10.96.0.10:80"] /\
    len (serviceAddrs inst) = len (ports inst).
Proof.
  cbv zeta.
  assert (Hout : exists b' inst,
            out (run (configureHAProxy example_Atoi v6_director) os_handler (example_os []) 0)
              = Returned (None, b') /\
            sources (haproxy b') !! "fd00::1" = Some inst /\
            serviceAddrs inst = Slice ["10.96.0.10:80"]).
  { eexists _, _. vm_compute. repeat split; reflexivity. }
  destruct Hout as (b' & inst & Hout & Hl & Hsa). exists b', inst.
  destruct (proj2 (@configureHAProxy_creates_instances_with_paired_ports
                     example_Atoi v6_director 0) os os_handler (example_os []) None b' Hout)
    as (_ & _ & H).
  destruct (H "fd00::1" inst Hl eq_refl) as [Hla Hlen].
  split; [exact Hout|]. split; [exact Hl|]. split; [exact Hla|]. split; [exact Hsa|exact Hlen].
Defined.

End ConfigureHAProxyExample.
